(** * Index export of dc-cli: a shallow embedding and its properties

    The development follows the `export <dir>` command for search indexes
    (`processIndexes` and `handler`).  The command lists the indexes of a
    hub, fans out the settings, content-type-assignment and webhook
    fetches, expands the replicas of every index in two sequential passes,
    assembles one [IndexEntry] per index that is not a replica and writes
    the result to a JSON file after an overwrite gate.

    Remote calls, the answer at the overwrite prompt and the outcome of
    the write are read from a [World]; a run produces an outcome
    together with the trace of the observable events (fetches issued and
    settled, the prompt, the file write, the final notice).  The
    `console.log` progress lines of the source are presentation only and
    are left out of the trace. *)

From Stdlib Require Import List String Ascii ZArith Bool Arith Lia Sorted.
Import ListNotations.
Local Open Scope string_scope.
Local Open Scope list_scope.

(* ================================================================== *)
(** ** JavaScript values used by the command *)

(** A property or array slot as JavaScript sees it: missing, [null], or a
    value. *)
Inductive JsOpt (A : Type) : Type :=
| JsUndefined
| JsNull
| JsSome (a : A).
Arguments JsUndefined {A}.
Arguments JsNull {A}.
Arguments JsSome {A} a.

(** `arr[i]`: reading past the end gives `undefined`. *)
Definition js_index {A} (l : list A) (i : nat) : JsOpt A :=
  match nth_error l i with
  | Some x => JsSome x
  | None => JsUndefined
  end.

(** Truthiness of a string: only the empty string is falsy. *)
Definition truthy_string (s : string) : bool :=
  negb (String.eqb s "").

(** Truthiness of an optional string property (`undefined` is falsy). *)
Definition truthy_prop (p : option string) : bool :=
  match p with
  | Some s => truthy_string s
  | None => false
  end.

(** Truthiness of a slot holding a string, `null` or `undefined`. *)
Definition truthy_slot (p : JsOpt string) : bool :=
  match p with
  | JsSome s => truthy_string s
  | _ => false
  end.

(* ================================================================== *)
(** ** Strings: `substr`, `slice`, `split` and POSIX `path` *)

Module Str.

(** Clamp a relative index as `String.prototype.slice` does. *)
Definition clamp (len k : Z) : Z :=
  if (k <? 0)%Z then Z.max (len + k) 0 else Z.min k len.

(** `s.slice(b, e)` *)
Definition slice (s : string) (b e : Z) : string :=
  let len := Z.of_nat (String.length s) in
  let from := clamp len b in
  let to := clamp len e in
  substring (Z.to_nat from) (Z.to_nat (Z.max (to - from) 0)) s.

(** `s.substr(b)`: from a (possibly negative) start to the end. *)
Definition substr (s : string) (b : Z) : string :=
  let len := Z.of_nat (String.length s) in
  let from := if (b <? 0)%Z then Z.max (len + b) 0 else Z.min b len in
  substring (Z.to_nat from) (Z.to_nat (len - from)) s.

(** `s.split(c)` for a one-character separator; never empty. *)
Fixpoint split (c : ascii) (s : string) : list string :=
  match s with
  | EmptyString => [EmptyString]
  | String a rest =>
      if Ascii.eqb a c then EmptyString :: split c rest
      else match split c rest with
           | [] => [String a EmptyString]
           | hd :: tl => String a hd :: tl
           end
  end.

(** `arr.slice(-1)`: the last element, as a list of at most one. *)
Definition slice_last {A} (l : list A) : list A :=
  skipn (List.length l - 1) l.

Fixpoint contains (c : ascii) (s : string) : bool :=
  match s with
  | EmptyString => false
  | String a rest => Ascii.eqb a c || contains c rest
  end.

(** The characters of a string, last first. *)
Definition rchars (s : string) : list ascii :=
  rev (list_ascii_of_string s).

End Str.

(** Node's `path` module on POSIX. *)
Module Path.

Definition sep : string := "/".
Definition slash : ascii := "/"%char.

(** Loop state of `posix.basename(path, ext)`. *)
Record BaseState : Type := mkBase {
  b_start : Z;
  b_end : Z;
  matchedSlash : bool;
  extIdx : Z;
  firstNonSlashEnd : Z;
  broke : bool
}.

(** One iteration of the backwards scan at index [i] holding [code]. *)
Definition basename_step (ext : string) (i : Z) (code : ascii)
    (st : BaseState) : BaseState :=
  if Ascii.eqb code slash then
    if negb (matchedSlash st) then
      mkBase (i + 1) (b_end st) (matchedSlash st) (extIdx st)
             (firstNonSlashEnd st) true
    else st
  else
    let st1 :=
      if (firstNonSlashEnd st =? -1)%Z then
        mkBase (b_start st) (b_end st) false (extIdx st) (i + 1) false
      else st in
    if (0 <=? extIdx st1)%Z then
      if (match String.get (Z.to_nat (extIdx st1)) ext with
          | Some x => Ascii.eqb code x
          | None => false
          end) then
        let k := (extIdx st1 - 1)%Z in
        if (k =? -1)%Z then
          mkBase (b_start st1) i (matchedSlash st1) k
                 (firstNonSlashEnd st1) false
        else
          mkBase (b_start st1) (b_end st1) (matchedSlash st1) k
                 (firstNonSlashEnd st1) false
      else
        mkBase (b_start st1) (firstNonSlashEnd st1) (matchedSlash st1) (-1)
               (firstNonSlashEnd st1) false
    else st1.

(** `for (i = path.length - 1; i >= 0; --i)` over the characters taken
    from the end; stops at the `break`. *)
Fixpoint basename_loop (ext : string) (rpath : list ascii) (i : Z)
    (st : BaseState) : BaseState :=
  match rpath with
  | [] => st
  | code :: more =>
      let st' := basename_step ext i code st in
      if broke st' then st' else basename_loop ext more (i - 1) st'
  end.

(** The scan of `posix.basename(path)` when no extension is stripped. *)
Fixpoint basename_plain_loop (rpath : list ascii) (i : Z)
    (st : Z * Z * bool) : Z * Z * bool :=
  match rpath with
  | [] => st
  | code :: more =>
      let '(start, end_, matched) := st in
      if Ascii.eqb code slash then
        if negb matched then (i + 1, end_, matched)%Z
        else basename_plain_loop more (i - 1) st
      else if (end_ =? -1)%Z then
        basename_plain_loop more (i - 1) (start, (i + 1)%Z, false)
      else basename_plain_loop more (i - 1) st
  end.

(** `path.basename(path, ext)` *)
Definition basename (path ext : string) : string :=
  let plen := Z.of_nat (String.length path) in
  let elen := Z.of_nat (String.length ext) in
  if ((0 <? elen) && (elen <=? plen))%Z%bool then
    if String.eqb ext path then ""
    else
      let st := basename_loop ext (Str.rchars path) (plen - 1)
                  (mkBase 0 (-1) true (elen - 1) (-1) false) in
      let end_ :=
        if (b_start st =? b_end st)%Z then firstNonSlashEnd st
        else if (b_end st =? -1)%Z then plen
        else b_end st in
      Str.slice path (b_start st) end_
  else
    let '(start, end_, _) :=
      basename_plain_loop (Str.rchars path) (plen - 1) (0, -1, true)%Z in
    if (end_ =? -1)%Z then "" else Str.slice path start end_.

End Path.

(* ================================================================== *)
(** ** Data model *)

Module Hub.
Record t : Type := mk { id : string; name : string }.
End Hub.

(** A listing entry; [parentId] marks a replica. *)
Module IndexSummary.
Record t : Type := mk {
  id : string;
  name : string;
  parentId : option string
}.
End IndexSummary.

(** The settings bag; [replicas] may be missing altogether. *)
Module IndexSettings.
Record t : Type := mk {
  replicas : option (list string);
  body : string
}.
End IndexSettings.

Module Link.
Record t : Type := mk { href : string }.
End Link.

Module ContentTypeAssignment.
Record t : Type := mk {
  contentTypeUri : string;
  _links : list (string * Link.t)
}.
End ContentTypeAssignment.

Module Webhook.
Record CustomPayload : Type := mkPayload { value : string }.
Record t : Type := mk { customPayload : option CustomPayload }.
End Webhook.

Module ReplicaSettingsEntry.
Record t : Type := mk {
  id : string;
  name : JsOpt string;
  settings : IndexSettings.t
}.
End ReplicaSettingsEntry.

(** The listing record as exported: the source adds the property
    `assignedContentTypes` to the record itself. *)
Module IndexDetails.
Record t : Type := mk {
  summary : IndexSummary.t;
  assignedContentTypes : option (list ContentTypeAssignment.t)
}.
End IndexDetails.

(** The object literal that `handler` builds for an index. *)
Module IndexEntry.
Record t : Type := mk {
  id : string;
  indexDetails : IndexDetails.t;
  settings : JsOpt IndexSettings.t;
  replicasSettings : list ReplicaSettingsEntry.t;
  activeContentWebhook : JsOpt string;
  archivedContentWebhook : JsOpt string
}.
End IndexEntry.

(* ================================================================== *)
(** ** Outcomes, events and the run monad *)

Inductive Error : Type :=
| RemoteError (msg : string)
| TypeError (msg : string)
| WriteError (msg : string).

(** How a promise (or a synchronous block that may throw) ends. *)
Inductive Outcome (A : Type) : Type :=
| Fulfilled (a : A)
| Rejected (e : Error).
Arguments Fulfilled {A} a.
Arguments Rejected {A} e.

Definition is_rejected {A} (o : Outcome A) : bool :=
  match o with
  | Rejected _ => true
  | Fulfilled _ => false
  end.

(** The place in `handler` that issues a fetch. *)
Inductive Site : Type :=
| SHub
| SInit
| SList
| SSettings
| SAssigned
| SActiveWebhook
| SArchivedWebhook
| SReplicaByName (i : nat)
| SReplicaSettings (i : nat).

Inductive Request : Type :=
| GetHub (hubId : string)
| InitFetchClient
| GetIdexesDetailsList
| GetIndexSettings (id : string)
| GetIndexAssignedContentTypes (id : string)
| GetIndexByName (name : string)
| GetWebhook (id : string).

Inductive Event : Type :=
| Started (s : Site) (r : Request)
| Settled (s : Site) (r : Request) (failure : option Error)
| Prompted (file : string) (answer : bool)
| Written (file : string) (doc : list IndexEntry.t)
| NothingExported
| Stdout (msg : string).

Definition Trace : Type := list Event.

(** A computation of the command: its outcome and the events it caused. *)
Definition Run (A : Type) : Type := (Outcome A * Trace)%type.

Definition ret {A} (a : A) : Run A := (Fulfilled a, []).

Definition throw {A} (e : Error) : Run A := (Rejected e, []).

Definition emit (ev : Event) : Run unit := (Fulfilled tt, [ev]).

Definition bind {A B} (m : Run A) (k : A -> Run B) : Run B :=
  match m with
  | (Fulfilled a, t) => let (o, t') := k a in (o, t ++ t')
  | (Rejected e, t) => (Rejected e, t)
  end.

(** A synchronous block that may throw, run inside the command. *)
Definition lift {A} (o : Outcome A) : Run A := (o, []).

Declare Scope run_scope.
Delimit Scope run_scope with run.
Notation "x <- m ;; k" := (bind m (fun x => k))
  (at level 61, m at next level, right associativity) : run_scope.
Notation "m ;;; k" := (bind m (fun _ => k))
  (at level 61, right associativity) : run_scope.

(** Sequencing of synchronous code that may throw. *)
Definition obind {A B} (o : Outcome A) (k : A -> Outcome B) : Outcome B :=
  match o with
  | Fulfilled a => k a
  | Rejected e => Rejected e
  end.

(** `arr.map(f)` where `f` may throw: the first throw wins. *)
Fixpoint mapM {A B} (f : A -> Outcome B) (l : list A) : Outcome (list B) :=
  match l with
  | [] => Fulfilled []
  | x :: rest =>
      obind (f x) (fun y =>
      obind (mapM f rest) (fun ys => Fulfilled (y :: ys)))
  end.

(* ================================================================== *)
(** ** Promises and `Promise.all` *)

(** An element handed to `Promise.all`: a fetch already issued, with the
    way it will settle, or a plain value. *)
Inductive Pending (A : Type) : Type :=
| Issued (s : Site) (r : Request) (res : Outcome A)
| Plain (a : A).
Arguments Issued {A} s r res.
Arguments Plain {A} a.

Definition pending_outcome {A} (p : Pending A) : Outcome A :=
  match p with
  | Issued _ _ res => res
  | Plain a => Fulfilled a
  end.

(** Creating the promises issues the fetches, in array order. *)
Fixpoint started {A} (ps : list (Pending A)) : Trace :=
  match ps with
  | [] => []
  | Issued s r _ :: rest => Started s r :: started rest
  | Plain _ :: rest => started rest
  end.

(** The order in which the elements of a batch of [n] settle: the given
    completion order, made a permutation of [0 .. n-1]. *)
Fixpoint first_occurrences (seen l : list nat) : list nat :=
  match l with
  | [] => []
  | k :: rest =>
      if existsb (Nat.eqb k) seen then first_occurrences seen rest
      else k :: first_occurrences (k :: seen) rest
  end.

Definition settle_order (n : nat) (completion : list nat) : list nat :=
  first_occurrences []
    (filter (fun k => Nat.ltb k n) completion ++ seq 0 n).

(** Settlements are observed in completion order up to the first
    rejection, which rejects the combined promise. *)
Fixpoint settle {A} (ps : list (Pending A)) (order : list nat)
    : option Error * Trace :=
  match order with
  | [] => (None, [])
  | k :: rest =>
      match nth_error ps k with
      | Some (Issued s r (Rejected e)) => (Some e, [Settled s r (Some e)])
      | Some (Issued s r (Fulfilled _)) =>
          let (o, t) := settle ps rest in (o, Settled s r None :: t)
      | _ => settle ps rest
      end
  end.

(** `await Promise.all(ps)`: the values come back by position, whatever
    the completion order. *)
Definition promise_all {A} (completion : list nat) (ps : list (Pending A))
    : Run (list A) :=
  let (rej, t) := settle ps (settle_order (List.length ps) completion) in
  match rej with
  | Some e => (Rejected e, started ps ++ t)
  | None => (mapM pending_outcome ps, started ps ++ t)
  end.

(** `await p` for a single fetch. *)
Definition await {A} (s : Site) (r : Request) (res : Outcome A) : Run A :=
  match res with
  | Fulfilled a => (Fulfilled a, [Started s r; Settled s r None])
  | Rejected e => (Rejected e, [Started s r; Settled s r (Some e)])
  end.

(* ================================================================== *)
(** ** The world the command runs in *)

(** The remote services, the completion order of every batch of
    concurrent fetches, the user at the prompt and the file system.  The SDK client and
    the fetch client service are outside the sources at hand: what their
    calls answer is a parameter of the run, one outcome per request. *)
Record World : Type := mkWorld {
  hubs_get : string -> Outcome Hub.t;
  fetch_init : Outcome unit;
  getIdexesDetailsList : Outcome (list IndexSummary.t);
  getIndexSettings : string -> Outcome IndexSettings.t;
  getIndexAssignedContentTypes :
    string -> Outcome (list ContentTypeAssignment.t);
  getIndexByName : string -> Outcome IndexSummary.t;
  webhooks_get : Hub.t -> string -> Outcome Webhook.t;
  completion : Site -> list nat;
  file_exists : string -> bool;
  overwrite_confirmed : string -> bool;
  write_error : string -> list IndexEntry.t -> option Error
}.

Record Argv : Type := mkArgv { dir : string; hubId : string }.

Definition newline : string := String (ascii_of_nat 10) "".

(* ================================================================== *)
(** ** The export service *)

(** Modelled from the spec: `promptToExportSettings` of the export
    service is not part of the sources at hand.  Given the candidate
    path it reports whether a file exists there and, if so, asks for
    confirmation to overwrite; the result is the decision to proceed. *)
Definition promptToExportSettings (w : World) (filename : string)
    : Run bool :=
  if file_exists w filename then
    let answer := overwrite_confirmed w filename in
    (Fulfilled answer, [Prompted filename answer])
  else ret true.

(** Modelled from the spec: `nothingExportedExit` of the export service
    is not part of the sources at hand.  It ends the run cleanly with a
    distinct notice that nothing was exported. *)
Definition nothingExportedExit : Run unit := emit NothingExported.

(** Modelled from the spec: `writeJsonToFile` of the export service is
    not part of the sources at hand.  It serialises the document and
    writes it at the path in one call.  A serialization or filesystem
    error on write is surfaced: the call throws and no file is
    written. *)
Definition writeJsonToFile (w : World) (filename : string)
    (doc : list IndexEntry.t) : Run unit :=
  match write_error w filename doc with
  | None => emit (Written filename doc)
  | Some e => throw e
  end.

(** Modelled from the spec: the exit status the command line reports for
    a run, zero unless the run rejected. *)
Definition exit_status {A} (o : Outcome A) : Z :=
  match o with
  | Fulfilled _ => 0%Z
  | Rejected _ => 1%Z
  end.

(* ================================================================== *)
(** ** `processIndexes` *)

Section ExportCommand.

Variable w : World.

Local Open Scope run_scope.

(** The output directory without one trailing separator. *)
Definition trimmedDir (outputDir : string) : string :=
  if String.eqb (Str.substr outputDir (-1)) Path.sep
  then Str.slice outputDir 0 (-1)
  else outputDir.

Definition exportFile (hubToExport : Hub.t) : string :=
  Path.basename
    ("indexes-" ++ Hub.id hubToExport ++ "-" ++ Hub.name hubToExport)
    ".json".

Definition uniqueFilename (outputDir : string) (hubToExport : Hub.t)
    : string :=
  trimmedDir outputDir ++ Path.sep ++ exportFile hubToExport ++ ".json".

Definition processIndexes (outputDir : string) (hubToExport : Hub.t)
    (indexes : list IndexEntry.t) : Run unit :=
  let file := uniqueFilename outputDir hubToExport in
  proceed <- promptToExportSettings w file ;;
  if negb proceed then nothingExportedExit
  else
    writeJsonToFile w file indexes ;;;
    emit (Stdout ("Indexes exported successfully! " ++ newline)).

(* ================================================================== *)
(** ** `handler`: the stages *)

Definition activeRel : string := "active-content-webhook".
Definition archivedRel : string := "archived-content-webhook".

Fixpoint lookup_link (rel : string) (links : list (string * Link.t))
    : option Link.t :=
  match links with
  | [] => None
  | (k, l) :: rest => if String.eqb k rel then Some l else lookup_link rel rest
  end.

(** `type._links[rel].href.split('/').slice(-1)[0]` *)
Definition webhookRef (rel : string) (type : ContentTypeAssignment.t)
    : Outcome (JsOpt string) :=
  match lookup_link rel (ContentTypeAssignment._links type) with
  | None => Rejected (TypeError "Cannot read property 'href' of undefined")
  | Some l =>
      Fulfilled
        (js_index (Str.slice_last (Str.split Path.slash (Link.href l))) 0)
  end.

(** The body of the `forEach` over the assignment lists, for one index:
    the two webhook references, or two `null`s. *)
Definition webhookRefsOf (types : list ContentTypeAssignment.t)
    : Outcome (JsOpt string * JsOpt string) :=
  if Nat.ltb 0 (List.length types) then
    match nth_error types 0 with
    | Some type =>
        obind (webhookRef activeRel type) (fun a =>
        obind (webhookRef archivedRel type) (fun b =>
        Fulfilled (a, b)))
    | None => Rejected (TypeError "Cannot read property '_links' of undefined")
    end
  else Fulfilled (JsNull, JsNull).

(** The `forEach` itself; slot [i] of both arrays is written at step [i],
    so the arrays grow in step with the input. *)
Definition webhookRefs (assigned : list (list ContentTypeAssignment.t))
    : Outcome (list (JsOpt string) * list (JsOpt string)) :=
  obind (mapM webhookRefsOf assigned) (fun refs =>
  Fulfilled (map fst refs, map snd refs)).

(** `item ? hub.related.webhooks.get(item) : null` *)
Definition webhookPromise (site : Site) (hub : Hub.t) (item : JsOpt string)
    : Pending (option Webhook.t) :=
  match item with
  | JsSome ref =>
      if truthy_string ref then
        Issued site (GetWebhook ref)
          (obind (webhooks_get w hub ref) (fun x => Fulfilled (Some x)))
      else Plain None
  | _ => Plain None
  end.

(** `x && x.customPayload.value` *)
Definition webhookPayload (x : option Webhook.t) : Outcome (JsOpt string) :=
  match x with
  | None => Fulfilled JsNull
  | Some hook =>
      match Webhook.customPayload hook with
      | Some p => Fulfilled (JsSome (Webhook.value p))
      | None =>
          Rejected (TypeError "Cannot read property 'value' of undefined")
      end
  end.

(** `settings.replicas || []` *)
Definition replicasOf (settings : IndexSettings.t) : list string :=
  match IndexSettings.replicas settings with
  | Some names => names
  | None => []
  end.

(** First replica pass: the by-name lookups, one index per iteration. *)
Fixpoint replicaLookups (i : nat) (replicas : list (list string))
    (replicaIndexesList : list (list IndexSummary.t))
    : Run (list (list IndexSummary.t)) :=
  match replicas with
  | [] => ret replicaIndexesList
  | names :: rest =>
      if Nat.ltb 0 (List.length names) then
        replicasDetailsList <-
          promise_all (completion w (SReplicaByName i))
            (map (fun item =>
                    Issued (SReplicaByName i) (GetIndexByName item)
                           (getIndexByName w item)) names) ;;
        replicaLookups (S i) rest (replicaIndexesList ++ [replicasDetailsList])
      else replicaLookups (S i) rest (replicaIndexesList ++ [[]])
  end.

(** Second replica pass: the settings of the replicas found. *)
Fixpoint replicaSettingsFetches (i : nat)
    (replicaIndexesList : list (list IndexSummary.t))
    (replicaIndexSettingsList : list (list IndexSettings.t))
    : Run (list (list IndexSettings.t)) :=
  match replicaIndexesList with
  | [] => ret replicaIndexSettingsList
  | found :: rest =>
      if Nat.ltb 0 (List.length found) then
        replicasSettingsList <-
          promise_all (completion w (SReplicaSettings i))
            (map (fun item =>
                    Issued (SReplicaSettings i)
                           (GetIndexSettings (IndexSummary.id item))
                           (getIndexSettings w (IndexSummary.id item)))
                 found) ;;
        replicaSettingsFetches (S i) rest
          (replicaIndexSettingsList ++ [replicasSettingsList])
      else
        replicaSettingsFetches (S i) rest (replicaIndexSettingsList ++ [[]])
  end.

(** `arr.map((x, j) => f(j, x))` where `f` may throw. *)
Fixpoint mapMi {A B} (f : nat -> A -> Outcome B) (j : nat) (l : list A)
    : Outcome (list B) :=
  match l with
  | [] => Fulfilled []
  | x :: rest =>
      obind (f j x) (fun y =>
      obind (mapMi f (S j) rest) (fun ys => Fulfilled (y :: ys)))
  end.

(** `payloads[i]` where the slots hold a payload or `null`. *)
Definition js_slot {A} (l : list (JsOpt A)) (i : nat) : JsOpt A :=
  match nth_error l i with
  | Some v => v
  | None => JsUndefined
  end.

Section Assembly.

Variable settingsList : list IndexSettings.t.
Variable assignedContentTypesList : list (list ContentTypeAssignment.t).
Variable activeContentWebhooksPayload : list (JsOpt string).
Variable archivedContentWebhooksPayload : list (JsOpt string).
Variable replicas : list (list string).
Variable replicaIndexesList : list (list IndexSummary.t).
Variable replicaIndexSettingsList : list (list IndexSettings.t).

(** `{id: replicaIndexesList[i][j].id, name: replicas[i][j], settings: x}` *)
Definition replicaEntry (i j : nat) (x : IndexSettings.t)
    : Outcome ReplicaSettingsEntry.t :=
  match nth_error replicaIndexesList i with
  | None => Rejected (TypeError "Cannot read property of undefined")
  | Some found =>
      match nth_error found j with
      | None => Rejected (TypeError "Cannot read property 'id' of undefined")
      | Some r =>
          match nth_error replicas i with
          | None => Rejected (TypeError "Cannot read property of undefined")
          | Some names =>
              Fulfilled
                (ReplicaSettingsEntry.mk (IndexSummary.id r)
                   (js_index names j) x)
          end
      end
  end.

(** The entry of the non-replica index [item] at position [i]. *)
Definition indexEntry (i : nat) (item : IndexSummary.t)
    : Outcome IndexEntry.t :=
  match nth_error replicaIndexSettingsList i with
  | None => Rejected (TypeError "Cannot read property 'map' of undefined")
  | Some fetched =>
      obind (mapMi (replicaEntry i) 0 fetched) (fun replicasSettings =>
      let entry (types : option (list ContentTypeAssignment.t)) :=
        IndexEntry.mk (IndexSummary.id item)
          (IndexDetails.mk item types)
          (js_index settingsList i)
          replicasSettings
          (js_slot activeContentWebhooksPayload i)
          (js_slot archivedContentWebhooksPayload i) in
      match nth_error assignedContentTypesList i with
      | None =>
          Rejected (TypeError "Cannot read property 'length' of undefined")
      | Some types =>
          if Nat.ltb 0 (List.length types)
          then Fulfilled (entry (Some types))
          else Fulfilled (entry None)
      end)
  end.

(** The final `forEach`: an entry is pushed unless `item.parentId` is
    truthy. *)
Fixpoint buildEntries (i : nat) (items : list IndexSummary.t)
    (finalIndexesListDetails : list IndexEntry.t)
    : Outcome (list IndexEntry.t) :=
  match items with
  | [] => Fulfilled finalIndexesListDetails
  | item :: rest =>
      if negb (truthy_prop (IndexSummary.parentId item)) then
        obind (indexEntry i item) (fun entry =>
        buildEntries (S i) rest (finalIndexesListDetails ++ [entry]))
      else buildEntries (S i) rest finalIndexesListDetails
  end.

End Assembly.

(** The body of `handler` guarded by `indexesListDetails.length > 0`. *)
Definition indexEntries (hub : Hub.t)
    (indexesListDetails : list IndexSummary.t) : Run (list IndexEntry.t) :=
  settingsList <-
    promise_all (completion w SSettings)
      (map (fun item =>
              Issued SSettings (GetIndexSettings (IndexSummary.id item))
                     (getIndexSettings w (IndexSummary.id item)))
           indexesListDetails) ;;
  assignedContentTypesList <-
    promise_all (completion w SAssigned)
      (map (fun item =>
              Issued SAssigned
                     (GetIndexAssignedContentTypes (IndexSummary.id item))
                     (getIndexAssignedContentTypes w (IndexSummary.id item)))
           indexesListDetails) ;;
  refs <- lift (webhookRefs assignedContentTypesList) ;;
  activeContentWebhooksList <-
    promise_all (completion w SActiveWebhook)
      (map (webhookPromise SActiveWebhook hub) (fst refs)) ;;
  archivedContentWebhooksList <-
    promise_all (completion w SArchivedWebhook)
      (map (webhookPromise SArchivedWebhook hub) (snd refs)) ;;
  activeContentWebhooksPayload <-
    lift (mapM webhookPayload activeContentWebhooksList) ;;
  archivedContentWebhooksPayload <-
    lift (mapM webhookPayload archivedContentWebhooksList) ;;
  let replicas := map replicasOf settingsList in
  replicaIndexesList <- replicaLookups 0 replicas [] ;;
  replicaIndexSettingsList <-
    replicaSettingsFetches 0 replicaIndexesList [] ;;
  lift (buildEntries settingsList assignedContentTypesList
          activeContentWebhooksPayload archivedContentWebhooksPayload
          replicas replicaIndexesList replicaIndexSettingsList
          0 indexesListDetails []).

Definition handler (argv : Argv) : Run unit :=
  hub <- await SHub (GetHub (hubId argv)) (hubs_get w (hubId argv)) ;;
  await SInit InitFetchClient (fetch_init w) ;;;
  indexesListDetails <-
    await SList GetIdexesDetailsList (getIdexesDetailsList w) ;;
  finalIndexesListDetails <-
    (if Nat.ltb 0 (List.length indexesListDetails)
     then indexEntries hub indexesListDetails
     else ret []) ;;
  processIndexes (dir argv) hub finalIndexesListDetails.

End ExportCommand.

(* ================================================================== *)
(** ** Vocabulary of the properties *)

(** The first rejection observed in a trace. *)
Fixpoint first_failure (t : Trace) : option Error :=
  match t with
  | [] => None
  | Settled _ _ (Some e) :: _ => Some e
  | _ :: rest => first_failure rest
  end.

Definition is_written (ev : Event) : bool :=
  match ev with
  | Written _ _ => true
  | _ => false
  end.

(** Whether the remote rejects request [r] in a run with [argv]. *)
Definition fails (w : World) (argv : Argv) (r : Request) : bool :=
  match r with
  | GetHub h => is_rejected (hubs_get w h)
  | InitFetchClient => is_rejected (fetch_init w)
  | GetIdexesDetailsList => is_rejected (getIdexesDetailsList w)
  | GetIndexSettings id => is_rejected (getIndexSettings w id)
  | GetIndexAssignedContentTypes id =>
      is_rejected (getIndexAssignedContentTypes w id)
  | GetIndexByName n => is_rejected (getIndexByName w n)
  | GetWebhook ref =>
      match hubs_get w (hubId argv) with
      | Fulfilled hub => is_rejected (webhooks_get w hub ref)
      | Rejected _ => false
      end
  end.

Definition event_site (ev : Event) : option Site :=
  match ev with
  | Started s _ => Some s
  | Settled s _ _ => Some s
  | _ => None
  end.

(** Pass and index of a replica-related event: pass 0 is the by-name
    lookup, pass 1 the settings fetch. *)
Definition replica_phase (ev : Event) : option (nat * nat) :=
  match event_site ev with
  | Some (SReplicaByName i) => Some (0, i)
  | Some (SReplicaSettings i) => Some (1, i)
  | _ => None
  end.

Definition phases (t : Trace) : list (nat * nat) :=
  flat_map (fun ev => match replica_phase ev with
                      | Some p => [p]
                      | None => []
                      end) t.

(** The index each replica-related event of a trace belongs to. *)
Definition owners (t : Trace) : list nat := map snd (phases t).

(** Pass first, then index. *)
Definition phase_le (p q : nat * nat) : Prop :=
  fst p < fst q \/ (fst p = fst q /\ snd p <= snd q).

Definition replica_site (pass i : nat) : Site :=
  match pass with
  | 0 => SReplicaByName i
  | _ => SReplicaSettings i
  end.

(** The webhook payload the command derives for one link relation of an
    assignment: the reference id, the lookup unless the id is empty, and
    the custom payload value. *)
Definition webhookField (w : World) (hub : Hub.t) (rel : string)
    (type : ContentTypeAssignment.t) : Outcome (JsOpt string) :=
  obind (webhookRef rel type) (fun ref =>
  if truthy_slot ref then
    match ref with
    | JsSome id =>
        obind (webhooks_get w hub id) (fun hook => webhookPayload (Some hook))
    | _ => Fulfilled JsNull
    end
  else Fulfilled JsNull).

(** The entries pushed by the final `forEach` from position [i] on. *)
Inductive Entries (entryAt : nat -> IndexSummary.t -> Outcome IndexEntry.t)
    : nat -> list IndexSummary.t -> list IndexEntry.t -> Prop :=
| Entries_nil : forall i, Entries entryAt i [] []
| Entries_skip : forall i item items es,
    truthy_prop (IndexSummary.parentId item) = true ->
    Entries entryAt (S i) items es ->
    Entries entryAt i (item :: items) es
| Entries_keep : forall i item items e es,
    truthy_prop (IndexSummary.parentId item) = false ->
    entryAt i item = Fulfilled e ->
    Entries entryAt (S i) items es ->
    Entries entryAt i (item :: items) (e :: es).

Definition entrySummary (e : IndexEntry.t) : IndexSummary.t :=
  IndexDetails.summary (IndexEntry.indexDetails e).

(** The predicate of the final `forEach`: `!item.parentId`. *)
Definition notReplica (item : IndexSummary.t) : bool :=
  negb (truthy_prop (IndexSummary.parentId item)).

Fixpoint prefixb (pat l : list ascii) : bool :=
  match pat, l with
  | [], _ => true
  | _ :: _, [] => false
  | a :: pat', b :: l' => Ascii.eqb a b && prefixb pat' l'
  end.

(** `s.endsWith(suffix)` *)
Definition ends_with (suffix s : string) : bool :=
  prefixb (Str.rchars suffix) (Str.rchars s).

(** What the command exports for one replica name of an index. *)
Definition ReplicaOf (w : World) (n : string) (r : ReplicaSettingsEntry.t)
    : Prop :=
  exists found,
    getIndexByName w n = Fulfilled found /\
    ReplicaSettingsEntry.id r = IndexSummary.id found /\
    ReplicaSettingsEntry.name r = JsSome n /\
    getIndexSettings w (IndexSummary.id found)
    = Fulfilled (ReplicaSettingsEntry.settings r).

(** What the command exports for the listing entry [item]. *)
Definition ExportOf (w : World) (hub : Hub.t) (item : IndexSummary.t)
    (e : IndexEntry.t) : Prop :=
  exists s types,
    getIndexSettings w (IndexSummary.id item) = Fulfilled s /\
    getIndexAssignedContentTypes w (IndexSummary.id item)
    = Fulfilled types /\
    IndexEntry.id e = IndexSummary.id item /\
    entrySummary e = item /\
    IndexEntry.settings e = JsSome s /\
    Forall2 (ReplicaOf w) (replicasOf s) (IndexEntry.replicasSettings e) /\
    IndexDetails.assignedContentTypes (IndexEntry.indexDetails e)
    = (if Nat.ltb 0 (List.length types) then Some types else None) /\
    match types with
    | [] =>
        IndexEntry.activeContentWebhook e = JsNull /\
        IndexEntry.archivedContentWebhook e = JsNull
    | type :: _ =>
        webhookField w hub activeRel type
        = Fulfilled (IndexEntry.activeContentWebhook e) /\
        webhookField w hub archivedRel type
        = Fulfilled (IndexEntry.archivedContentWebhook e)
    end.

(** The errors the command throws on its own, both while it derives the
    webhook payloads. *)
Definition webhook_error (e : Error) : Prop :=
  e = TypeError "Cannot read property 'href' of undefined" \/
  e = TypeError "Cannot read property 'value' of undefined".

(** The error of a write that the file system refuses. *)
Definition write_failure (w : World) (e : Error) : Prop :=
  exists f doc, write_error w f doc = Some e.

(** A run is faithful to the remote when its outcome reflects the
    rejections of the fetches it issued: a fulfilled run issued no
    failing fetch, and a rejected run carries the first rejection it
    observed, unless it threw on its own (an error in [own]) with every
    fetch issued so far sound. *)
Definition Faithful (bad : Request -> bool) (own : Error -> Prop) {A}
    (m : Run A) : Prop :=
  match fst m with
  | Fulfilled _ =>
      first_failure (snd m) = None /\
      forall s r, In (Started s r) (snd m) -> bad r = false
  | Rejected e =>
      first_failure (snd m) = Some e \/
      (first_failure (snd m) = None /\
       (forall s r, In (Started s r) (snd m) -> bad r = false) /\
       own e)
  end.

(** The promise settles as the remote answers its request. *)
Definition answers {A} (bad : Request -> bool) (p : Pending A) : Prop :=
  match p with
  | Issued _ r res => bad r = is_rejected res
  | Plain _ => True
  end.

(** Every event of the trace is a fetch event at a site in [P]. *)
Definition AtSites (P : Site -> Prop) (t : Trace) : Prop :=
  Forall (fun ev => exists s, event_site ev = Some s /\ P s) t.

(** The promise was issued at site [s], if it is a fetch at all. *)
Definition issued_at {A} (s : Site) (p : Pending A) : Prop :=
  match p with
  | Issued s' _ _ => s' = s
  | Plain _ => True
  end.

(** The sites of the concurrent fan-outs ahead of the replica passes. *)
Definition fanout (s : Site) : Prop :=
  match s with
  | SSettings | SAssigned | SActiveWebhook | SArchivedWebhook => True
  | _ => False
  end.

(** Every site but those of the two replica passes. *)
Definition plain_site (s : Site) : Prop :=
  match s with
  | SReplicaByName _ | SReplicaSettings _ => False
  | _ => True
  end.

(** No character of the list is the path separator. *)
Definition noSlash (r : list ascii) : Prop :=
  Forall (fun c => Ascii.eqb c Path.slash = false) r.

(** The characters of [r], read from its head, are the characters of
    [ext] at the indexes [k], [k - 1], ..., [0]: the comparison the
    `basename` scan makes while it still expects the extension. *)
Fixpoint matches_back (ext : string) (k : nat) (r : list ascii) : bool :=
  match r with
  | [] => false
  | c :: r' =>
      match String.get k ext with
      | Some x =>
          Ascii.eqb c x &&
          match k with
          | 0 => true
          | S k' => matches_back ext k' r'
          end
      | None => false
      end
  end.

(* ================================================================== *)
(** ** Sample worlds *)

Module Sample.

Definition acme : Hub.t := Hub.mk "h1" "Acme".

Definition argv : Argv := mkArgv "out" "h1".

Definition main : IndexSummary.t := IndexSummary.mk "i1" "Main" None.

Definition mainReplica : IndexSummary.t :=
  IndexSummary.mk "i2" "MainReplica" (Some "i1").

Definition other : IndexSummary.t := IndexSummary.mk "i3" "Other" None.

Definition link (ref : string) : Link.t :=
  Link.mk ("https://api.example/webhooks/" ++ ref).

Definition assignment (uri a b : string) : ContentTypeAssignment.t :=
  ContentTypeAssignment.mk uri
    [(activeRel, link a); (archivedRel, link b)].

Definition payloadOf (ref : string) : Webhook.t :=
  Webhook.mk (Some (Webhook.mkPayload ("payload of " ++ ref))).

(** A remote where every fetch is fulfilled; batches settle last first,
    no file exists yet and the write goes through. *)
Definition remote (listing : list IndexSummary.t)
    (settingsOf : string -> IndexSettings.t)
    (assignedOf : string -> list ContentTypeAssignment.t)
    (byName : string -> IndexSummary.t) : World :=
  mkWorld (fun _ => Fulfilled acme) (Fulfilled tt) (Fulfilled listing)
    (fun id => Fulfilled (settingsOf id))
    (fun id => Fulfilled (assignedOf id))
    (fun n => Fulfilled (byName n))
    (fun _ ref => Fulfilled (payloadOf ref))
    (fun _ => [3; 2; 1; 0])
    (fun _ => false)
    (fun _ => false)
    (fun _ _ => None).

(** The scenario of one index with one replica and one assignment. *)
Definition scenario : World :=
  remote [main; mainReplica]
    (fun id => if String.eqb id "i1"
               then IndexSettings.mk (Some ["MainReplica"]) "main settings"
               else IndexSettings.mk None "replica settings")
    (fun id => if String.eqb id "i1"
               then [assignment "http://schema/main" "wa" "wb"]
               else [])
    (fun _ => mainReplica).

Definition scenarioEntry : IndexEntry.t :=
  IndexEntry.mk "i1"
    (IndexDetails.mk main (Some [assignment "http://schema/main" "wa" "wb"]))
    (JsSome (IndexSettings.mk (Some ["MainReplica"]) "main settings"))
    [ReplicaSettingsEntry.mk "i2" (JsSome "MainReplica")
       (IndexSettings.mk None "replica settings")]
    (JsSome "payload of wa") (JsSome "payload of wb").

(** An index declaring two replicas. *)
Definition replicaNamed (n : string) : IndexSummary.t :=
  IndexSummary.mk ("id-" ++ n) n (Some "i1").

Definition twoReplicas : World :=
  remote [main]
    (fun id => if String.eqb id "i1"
               then IndexSettings.mk (Some ["r1"; "r2"]) "main settings"
               else IndexSettings.mk None ("settings of " ++ id))
    (fun _ => [])
    replicaNamed.

Definition twoReplicasEntry : IndexEntry.t :=
  IndexEntry.mk "i1" (IndexDetails.mk main None)
    (JsSome (IndexSettings.mk (Some ["r1"; "r2"]) "main settings"))
    [ReplicaSettingsEntry.mk "id-r1" (JsSome "r1")
       (IndexSettings.mk None "settings of id-r1");
     ReplicaSettingsEntry.mk "id-r2" (JsSome "r2")
       (IndexSettings.mk None "settings of id-r2")]
    JsNull JsNull.

(** A listing entry whose `parentId` is the empty string. *)
Definition emptyParent : IndexSummary.t :=
  IndexSummary.mk "i1" "Main" (Some "").

Definition emptyParentWorld : World :=
  remote [emptyParent] (fun _ => IndexSettings.mk None "settings")
    (fun _ => []) (fun _ => mainReplica).

Definition emptyParentEntry : IndexEntry.t :=
  IndexEntry.mk "i1" (IndexDetails.mk emptyParent None)
    (JsSome (IndexSettings.mk None "settings")) [] JsNull JsNull.

(** An assignment without the active webhook relation. *)
Definition halfLinked : ContentTypeAssignment.t :=
  ContentTypeAssignment.mk "http://schema/main" [(archivedRel, link "wb")].

Definition missingLinkWorld : World :=
  remote [main] (fun _ => IndexSettings.mk None "settings")
    (fun _ => [halfLinked]) (fun _ => mainReplica).

(** An index with two content-type assignments. *)
Definition firstAssignment : ContentTypeAssignment.t :=
  assignment "http://schema/first" "wa" "wb".

Definition laterAssignment : ContentTypeAssignment.t :=
  assignment "http://schema/later" "wc" "wd".

Definition twoAssignmentsWorld : World :=
  remote [main] (fun _ => IndexSettings.mk None "settings")
    (fun _ => [firstAssignment; laterAssignment]) (fun _ => mainReplica).

Definition twoAssignmentsEntry : IndexEntry.t :=
  IndexEntry.mk "i1"
    (IndexDetails.mk main (Some [firstAssignment; laterAssignment]))
    (JsSome (IndexSettings.mk None "settings")) []
    (JsSome "payload of wa") (JsSome "payload of wb").

(** An index without assignment and without a `replicas` property. *)
Definition bareWorld : World :=
  remote [main] (fun _ => IndexSettings.mk None "settings")
    (fun _ => []) (fun _ => mainReplica).

Definition bareEntry : IndexEntry.t :=
  IndexEntry.mk "i1" (IndexDetails.mk main None)
    (JsSome (IndexSettings.mk None "settings")) [] JsNull JsNull.

(** Two indexes with one replica each. *)
Definition twoParents : World :=
  remote [main; other]
    (fun id => if String.eqb id "i1"
               then IndexSettings.mk (Some ["r1"]) "main settings"
               else if String.eqb id "i3"
               then IndexSettings.mk (Some ["r3"]) "other settings"
               else IndexSettings.mk None ("settings of " ++ id))
    (fun _ => [])
    replicaNamed.



(** The scenario with a replica that cannot be found by name. *)
Definition replicaMissing : World :=
  mkWorld (hubs_get scenario) (fetch_init scenario)
    (getIdexesDetailsList scenario) (getIndexSettings scenario)
    (getIndexAssignedContentTypes scenario)
    (fun _ => Rejected (RemoteError "404 Not Found"))
    (webhooks_get scenario) (completion scenario)
    (file_exists scenario) (overwrite_confirmed scenario)
    (write_error scenario).

(** The scenario with the export file in place and a user who declines
    to overwrite it. *)
Definition declined : World :=
  mkWorld (hubs_get scenario) (fetch_init scenario)
    (getIdexesDetailsList scenario) (getIndexSettings scenario)
    (getIndexAssignedContentTypes scenario) (getIndexByName scenario)
    (webhooks_get scenario) (completion scenario)
    (fun _ => true) (fun _ => false) (write_error scenario).

(** A hub whose name holds a path separator. *)
Definition nested : Hub.t := Hub.mk "h1" "a/b".

(** A hub whose name ends in the export extension. *)
Definition dotted : Hub.t := Hub.mk "h1" "x.json".

(** The bare world under the hub with a separator in its name. *)
Definition nestedWorld : World :=
  mkWorld (fun _ => Fulfilled nested) (fetch_init bareWorld)
    (getIdexesDetailsList bareWorld) (getIndexSettings bareWorld)
    (getIndexAssignedContentTypes bareWorld) (getIndexByName bareWorld)
    (webhooks_get bareWorld) (completion bareWorld)
    (file_exists bareWorld) (overwrite_confirmed bareWorld)
    (write_error bareWorld).

(** A hub without any index. *)
Definition emptyHub : World :=
  remote [] (fun _ => IndexSettings.mk None "settings")
    (fun _ => []) (fun _ => mainReplica).

(** The scenario with webhooks that carry no custom payload. *)
Definition noPayload : World :=
  mkWorld (hubs_get scenario) (fetch_init scenario)
    (getIdexesDetailsList scenario) (getIndexSettings scenario)
    (getIndexAssignedContentTypes scenario) (getIndexByName scenario)
    (fun _ _ => Fulfilled (Webhook.mk None)) (completion scenario)
    (file_exists scenario) (overwrite_confirmed scenario)
    (write_error scenario).

(** The scenario on a file system that refuses the write. *)
Definition diskFull : World :=
  mkWorld (hubs_get scenario) (fetch_init scenario)
    (getIdexesDetailsList scenario) (getIndexSettings scenario)
    (getIndexAssignedContentTypes scenario) (getIndexByName scenario)
    (webhooks_get scenario) (completion scenario)
    (file_exists scenario) (overwrite_confirmed scenario)
    (fun _ _ => Some (WriteError "ENOSPC: no space left on device")).

End Sample.

(** The stage of `handler` a site belongs to, in program order. *)
Definition stage (s : Site) : nat :=
  match s with
  | SHub => 0
  | SInit => 1
  | SList => 2
  | SSettings => 3
  | SAssigned => 4
  | SActiveWebhook => 5
  | SArchivedWebhook => 6
  | SReplicaByName _ => 7
  | SReplicaSettings _ => 8
  end.

(** The stage of an event; the prompt, the write and the notices belong
    to `processIndexes`, the last stage. *)
Definition event_stage (ev : Event) : nat :=
  match event_site ev with
  | Some s => stage s
  | None => 9
  end.

(** The events of the trace come in stage order, between two stages. *)
Definition Within (lo hi : nat) (t : Trace) : Prop :=
  StronglySorted le (map event_stage t) /\
  forall ev, In ev t -> lo <= event_stage ev <= hi.

Definition site_eqb (a b : Site) : bool :=
  match a, b with
  | SHub, SHub | SInit, SInit | SList, SList
  | SSettings, SSettings | SAssigned, SAssigned
  | SActiveWebhook, SActiveWebhook
  | SArchivedWebhook, SArchivedWebhook => true
  | SReplicaByName i, SReplicaByName j => Nat.eqb i j
  | SReplicaSettings i, SReplicaSettings j => Nat.eqb i j
  | _, _ => false
  end.

(** The requests a trace issues at site [s], in the order of issue. *)
Definition requests_at (s : Site) (t : Trace) : list Request :=
  flat_map (fun ev => match ev with
                      | Started s' r => if site_eqb s' s then [r] else []
                      | _ => []
                      end) t.
(** The guarded body of `handler` from the replica passes on, with what
    the stages before them have fetched. *)
Definition replicaStage (w : World) (idx : list IndexSummary.t)
    (settingsList : list IndexSettings.t)
    (assigned : list (list ContentTypeAssignment.t))
    (activePayload archivedPayload : list (JsOpt string))
    : Run (list IndexEntry.t) :=
  bind (replicaLookups w 0 (map replicasOf settingsList) [])
    (fun replicaIndexesList =>
  bind (replicaSettingsFetches w 0 replicaIndexesList [])
    (fun replicaIndexSettingsList =>
  lift (buildEntries settingsList assigned activePayload archivedPayload
          (map replicasOf settingsList) replicaIndexesList
          replicaIndexSettingsList 0 idx []))).

(** The guarded body from the webhook references on. *)
Definition webhookStage (w : World) (hub : Hub.t)
    (idx : list IndexSummary.t) (settingsList : list IndexSettings.t)
    (assigned : list (list ContentTypeAssignment.t))
    : Run (list IndexEntry.t) :=
  bind (lift (webhookRefs assigned)) (fun refs =>
  bind (promise_all (completion w SActiveWebhook)
          (map (webhookPromise w SActiveWebhook hub) (fst refs)))
    (fun activeList =>
  bind (promise_all (completion w SArchivedWebhook)
          (map (webhookPromise w SArchivedWebhook hub) (snd refs)))
    (fun archivedList =>
  bind (lift (mapM webhookPayload activeList)) (fun activePayload =>
  bind (lift (mapM webhookPayload archivedList)) (fun archivedPayload =>
  replicaStage w idx settingsList assigned activePayload
               archivedPayload))))).

(** The guarded body from the assignment fan-out on. *)
Definition assignmentStage (w : World) (hub : Hub.t)
    (idx : list IndexSummary.t) (settingsList : list IndexSettings.t)
    : Run (list IndexEntry.t) :=
  bind (promise_all (completion w SAssigned)
          (map (fun item =>
                  Issued SAssigned
                    (GetIndexAssignedContentTypes (IndexSummary.id item))
                    (getIndexAssignedContentTypes w (IndexSummary.id item)))
               idx))
    (webhookStage w hub idx settingsList).

(** The settings fan-out that opens the guarded body. *)
Definition settingsBatch (w : World) (idx : list IndexSummary.t)
    : Run (list IndexSettings.t) :=
  promise_all (completion w SSettings)
    (map (fun item =>
            Issued SSettings (GetIndexSettings (IndexSummary.id item))
                   (getIndexSettings w (IndexSummary.id item)))
         idx).

(** If the trace holds a rejection, the rejection is its last event. *)
Definition EndsAtFailure (t : Trace) : Prop :=
  forall e, first_failure t = Some e ->
  exists t0 s r, t = t0 ++ [Settled s r (Some e)] /\ first_failure t0 = None.

(** The computation goes no further than the first rejection it
    observes, and observes none when it is fulfilled. *)
Definition FailFast {A} (m : Run A) : Prop :=
  EndsAtFailure (snd m) /\
  forall a, fst m = Fulfilled a -> first_failure (snd m) = None.

(** A fulfilled computation has seen every fetch it issued settle. *)
Definition Settles {A} (m : Run A) : Prop :=
  forall a, fst m = Fulfilled a ->
  forall s r, In (Started s r) (snd m) -> In (Settled s r None) (snd m).

(** The notice `processIndexes` prints after the write. *)
Definition successNotice : string :=
  ("Indexes exported successfully! " ++ newline)%string.

(** The link relation whose webhook a site looks up. *)
Definition webhook_rel (s : Site) : option string :=
  match s with
  | SActiveWebhook => Some activeRel
  | SArchivedWebhook => Some archivedRel
  | _ => None
  end.

(** The webhook field of an entry that is filled from the lookups of
    site [s]. *)
Definition entryWebhook (s : Site) (e : IndexEntry.t) : JsOpt string :=
  match s with
  | SArchivedWebhook => IndexEntry.archivedContentWebhook e
  | _ => IndexEntry.activeContentWebhook e
  end.

(** The same world with other completion orders. *)
Definition with_completion (c : Site -> list nat) (w : World) : World :=
  mkWorld (hubs_get w) (fetch_init w) (getIdexesDetailsList w)
    (getIndexSettings w) (getIndexAssignedContentTypes w)
    (getIndexByName w) (webhooks_get w) c
    (file_exists w) (overwrite_confirmed w) (write_error w).

(** The remote serves everything the command asks about the listed index
    [item]: its settings, its assignments, the two webhooks of its first
    assignment, each with a custom payload, and, for every replica name
    in its settings, the replica and the settings of the replica. *)
Definition Served (w : World) (hub : Hub.t) (item : IndexSummary.t)
    : Prop :=
  exists s types,
    getIndexSettings w (IndexSummary.id item) = Fulfilled s /\
    getIndexAssignedContentTypes w (IndexSummary.id item)
    = Fulfilled types /\
    match types with
    | [] => True
    | type :: _ =>
        is_rejected (webhookField w hub activeRel type) = false /\
        is_rejected (webhookField w hub archivedRel type) = false
    end /\
    Forall (fun n =>
              exists r,
                getIndexByName w n = Fulfilled r /\
                is_rejected (getIndexSettings w (IndexSummary.id r))
                = false)
           (replicasOf s).

(* ================================================================== *)
(** * Properties *)

(** Picks the event out of a computed trace. *)
Ltac in_trace := vm_compute; repeat (try (left; reflexivity); right).

(** ** The run monad *)

Lemma bind_fst {A B} (m : Run A) (k : A -> Run B) :
  fst (bind m k) =
  match fst m with
  | Fulfilled a => fst (k a)
  | Rejected e => Rejected e
  end.
Proof.
  destruct m as [[a|e] t]; simpl; [|reflexivity].
  destruct (k a); reflexivity.
Qed.

Lemma bind_snd {A B} (m : Run A) (k : A -> Run B) :
  snd (bind m k) =
  snd m ++ match fst m with
           | Fulfilled a => snd (k a)
           | Rejected _ => []
           end.
Proof.
  destruct m as [[a|e] t]; simpl.
  - destruct (k a); reflexivity.
  - now rewrite app_nil_r.
Qed.

Lemma bind_fulfilled {A B} (m : Run A) (k : A -> Run B) b :
  fst (bind m k) = Fulfilled b ->
  exists a, fst m = Fulfilled a /\ fst (k a) = Fulfilled b /\
            snd (bind m k) = snd m ++ snd (k a).
Proof.
  rewrite bind_fst, bind_snd.
  destruct (fst m) as [a|e]; [|discriminate].
  intros H. exists a. auto.
Qed.

Lemma lift_fst {A} (o : Outcome A) : fst (lift o) = o.
Proof. reflexivity. Qed.

Lemma lift_snd {A} (o : Outcome A) : snd (lift o) = [].
Proof. reflexivity. Qed.

(** ** Lists read by position *)

Lemma Forall2_nth_l {A B} (R : A -> B -> Prop) l1 l2 :
  Forall2 R l1 l2 ->
  forall k x, nth_error l1 k = Some x ->
  exists y, nth_error l2 k = Some y /\ R x y.
Proof.
  induction 1 as [|a b l1 l2 Hab _ IH]; intros [|k] x Hk;
    simpl in *; try discriminate.
  - injection Hk as <-. eauto.
  - eauto.
Qed.

Lemma Forall2_nth_r {A B} (R : A -> B -> Prop) l1 l2 :
  Forall2 R l1 l2 ->
  forall k y, nth_error l2 k = Some y ->
  exists x, nth_error l1 k = Some x /\ R x y.
Proof.
  induction 1 as [|a b l1 l2 Hab _ IH]; intros [|k] y Hk;
    simpl in *; try discriminate.
  - injection Hk as <-. eauto.
  - eauto.
Qed.

Lemma Forall2_len {A B} (R : A -> B -> Prop) l1 l2 :
  Forall2 R l1 l2 -> List.length l1 = List.length l2.
Proof. induction 1; simpl; congruence. Qed.

Lemma mapM_fulfilled {A B} (f : A -> Outcome B) l ys :
  mapM f l = Fulfilled ys -> Forall2 (fun x y => f x = Fulfilled y) l ys.
Proof.
  revert ys; induction l as [|x l IH]; simpl; intros ys H.
  - injection H as <-. constructor.
  - destruct (f x) as [y|e] eqn:Hx; simpl in H; [|discriminate].
    destruct (mapM f l) as [ys'|e] eqn:Hl; simpl in H; [|discriminate].
    injection H as <-. constructor; auto.
Qed.

Lemma mapM_total {A B} (f : A -> Outcome B) l :
  (forall x, In x l -> exists y, f x = Fulfilled y) ->
  exists ys, mapM f l = Fulfilled ys.
Proof.
  induction l as [|x l IH]; simpl; intros H; [eauto|].
  destruct (H x (or_introl eq_refl)) as [y ->].
  destruct IH as [ys ->]; [auto|]. simpl. eauto.
Qed.

(** ** `Promise.all` *)

Lemma first_occurrences_in seen l k :
  In k l -> ~ In k seen -> In k (first_occurrences seen l).
Proof.
  revert seen; induction l as [|x l IH]; simpl; intros seen Hin Hseen;
    [contradiction|].
  destruct (existsb (Nat.eqb x) seen) eqn:Hx.
  - destruct Hin as [->|Hin]; [|auto].
    exfalso. apply Hseen.
    apply existsb_exists in Hx as (y & Hy & Heq).
    apply Nat.eqb_eq in Heq. now subst.
  - destruct (Nat.eq_dec x k) as [->|Hne]; [now left|].
    right. destruct Hin as [->|Hin]; [congruence|].
    apply IH; [assumption|]. intros [->|H]; [congruence|auto].
Qed.

Lemma settle_order_complete n completion k :
  k < n -> In k (settle_order n completion).
Proof.
  intros Hk. unfold settle_order.
  apply first_occurrences_in; [|intros []].
  apply in_or_app. right. apply in_seq. lia.
Qed.

Lemma settle_none_fulfilled {A} (ps : list (Pending A)) order :
  fst (settle ps order) = None ->
  forall k p, In k order -> nth_error ps k = Some p ->
  exists a, pending_outcome p = Fulfilled a.
Proof.
  induction order as [|x order IH]; simpl; intros H k p Hin Hk;
    [contradiction|].
  destruct (nth_error ps x) as [[s r [a|e]|a]|] eqn:Hx.
  - destruct (settle ps order) as [o t] eqn:Hs. simpl in *.
    destruct Hin as [->|Hin]; [|eauto].
    rewrite Hx in Hk. injection Hk as <-. simpl. eauto.
  - discriminate.
  - destruct Hin as [->|Hin]; [|eauto].
    rewrite Hx in Hk. injection Hk as <-. simpl. eauto.
  - destruct Hin as [->|Hin]; [|eauto]. congruence.
Qed.

Lemma mapM_pending_total {A} (ps : list (Pending A)) :
  (forall p, In p ps -> exists a, pending_outcome p = Fulfilled a) ->
  exists vs, mapM pending_outcome ps = Fulfilled vs.
Proof. apply mapM_total. Qed.

(** When no rejection is observed every element was fulfilled, so the
    positional read of the values cannot fail. *)
Lemma settle_none_values {A} (ps : list (Pending A)) completion :
  fst (settle ps (settle_order (List.length ps) completion)) = None ->
  exists vs, mapM pending_outcome ps = Fulfilled vs.
Proof.
  intros H. apply mapM_pending_total. intros p Hp.
  apply In_nth_error in Hp as [k Hk].
  apply (settle_none_fulfilled _ _ H k p); [|assumption].
  apply settle_order_complete. apply nth_error_Some. congruence.
Qed.

Lemma promise_all_fst {A} completion (ps : list (Pending A)) :
  fst (promise_all completion ps) =
  match fst (settle ps (settle_order (List.length ps) completion)) with
  | Some e => Rejected e
  | None => mapM pending_outcome ps
  end.
Proof.
  unfold promise_all.
  destruct (settle ps _) as [[e|] t]; reflexivity.
Qed.

Lemma promise_all_snd {A} completion (ps : list (Pending A)) :
  snd (promise_all completion ps) =
  started ps ++ snd (settle ps (settle_order (List.length ps) completion)).
Proof.
  unfold promise_all.
  destruct (settle ps _) as [[e|] t]; reflexivity.
Qed.

Lemma promise_all_fulfilled {A} completion (ps : list (Pending A)) vs :
  fst (promise_all completion ps) = Fulfilled vs ->
  Forall2 (fun p v => pending_outcome p = Fulfilled v) ps vs.
Proof.
  rewrite promise_all_fst.
  destruct (fst (settle ps _)); [discriminate|].
  apply mapM_fulfilled.
Qed.

Lemma Forall2_map_l {A B C} (R : B -> C -> Prop) (g : A -> B) l vs :
  Forall2 R (map g l) vs <-> Forall2 (fun x v => R (g x) v) l vs.
Proof.
  split.
  - revert vs; induction l as [|x l IH]; simpl; intros vs H;
      inversion H; subst; constructor; auto.
  - induction 1; simpl; constructor; auto.
Qed.

(** ** The replica passes *)

Lemma length_zero_nil {A} (l : list A) :
  Nat.ltb 0 (List.length l) = false -> l = [].
Proof. destruct l; simpl; [reflexivity|discriminate]. Qed.

Lemma replicaLookups_fulfilled w reps : forall i acc out,
  fst (replicaLookups w i reps acc) = Fulfilled out ->
  exists founds,
    out = acc ++ founds /\
    Forall2 (fun names found =>
               Forall2 (fun n r => getIndexByName w n = Fulfilled r)
                       names found)
            reps founds.
Proof.
  induction reps as [|names reps IH]; simpl; intros i acc out H.
  - injection H as <-. exists []. now rewrite app_nil_r.
  - destruct (Nat.ltb 0 (List.length names)) eqn:Hlen.
    + rewrite bind_fst in H.
      destruct (fst (promise_all _ _)) as [vs|e] eqn:Hp; [|discriminate].
      apply promise_all_fulfilled in Hp. apply Forall2_map_l in Hp.
      simpl in Hp.
      apply IH in H as (founds & -> & HF).
      exists (vs :: founds). rewrite <- app_assoc. split; [reflexivity|].
      constructor; assumption.
    + apply length_zero_nil in Hlen. subst names.
      apply IH in H as (founds & -> & HF).
      exists ([] :: founds). rewrite <- app_assoc. split; [reflexivity|].
      constructor; [constructor|assumption].
Qed.

Lemma replicaSettingsFetches_fulfilled w founds : forall i acc out,
  fst (replicaSettingsFetches w i founds acc) = Fulfilled out ->
  exists fetched,
    out = acc ++ fetched /\
    Forall2 (fun found sts =>
               Forall2 (fun r st =>
                          getIndexSettings w (IndexSummary.id r)
                          = Fulfilled st)
                       found sts)
            founds fetched.
Proof.
  induction founds as [|found founds IH]; simpl; intros i acc out H.
  - injection H as <-. exists []. now rewrite app_nil_r.
  - destruct (Nat.ltb 0 (List.length found)) eqn:Hlen.
    + rewrite bind_fst in H.
      destruct (fst (promise_all _ _)) as [vs|e] eqn:Hp; [|discriminate].
      apply promise_all_fulfilled in Hp. apply Forall2_map_l in Hp.
      simpl in Hp.
      apply IH in H as (fetched & -> & HF).
      exists (vs :: fetched). rewrite <- app_assoc. split; [reflexivity|].
      constructor; assumption.
    + apply length_zero_nil in Hlen. subst found.
      apply IH in H as (fetched & -> & HF).
      exists ([] :: fetched). rewrite <- app_assoc. split; [reflexivity|].
      constructor; [constructor|assumption].
Qed.

(** ** The final `forEach` *)

Section AssemblyFacts.

Variable settingsList : list IndexSettings.t.
Variable assigned : list (list ContentTypeAssignment.t).
Variable activePayload archivedPayload : list (JsOpt string).
Variable replicas : list (list string).
Variable founds : list (list IndexSummary.t).
Variable fetched : list (list IndexSettings.t).

Let entryAt :=
  indexEntry settingsList assigned activePayload archivedPayload
             replicas founds fetched.

Lemma buildEntries_spec : forall items i acc doc,
  buildEntries settingsList assigned activePayload archivedPayload
               replicas founds fetched i items acc = Fulfilled doc ->
  exists es, doc = acc ++ es /\ Entries entryAt i items es.
Proof.
  induction items as [|item items IH]; simpl; intros i acc doc H.
  - injection H as <-. exists []. rewrite app_nil_r. split; constructor.
  - destruct (truthy_prop (IndexSummary.parentId item)) eqn:Hp; simpl in H.
    + apply IH in H as (es & -> & HE). exists es. split; [reflexivity|].
      now apply Entries_skip.
    + destruct (indexEntry _ _ _ _ _ _ _ i item) as [e|err] eqn:He;
        simpl in H; [|discriminate].
      apply IH in H as (es & -> & HE). exists (e :: es).
      rewrite <- app_assoc. split; [reflexivity|].
      now apply Entries_keep.
Qed.

Lemma indexEntry_fulfilled i item e :
  entryAt i item = Fulfilled e ->
  IndexEntry.id e = IndexSummary.id item /\
  entrySummary e = item /\
  IndexEntry.settings e = js_index settingsList i /\
  IndexEntry.activeContentWebhook e = js_slot activePayload i /\
  IndexEntry.archivedContentWebhook e = js_slot archivedPayload i /\
  exists sts types,
    nth_error fetched i = Some sts /\
    mapMi (replicaEntry replicas founds i) 0 sts
    = Fulfilled (IndexEntry.replicasSettings e) /\
    nth_error assigned i = Some types /\
    IndexDetails.assignedContentTypes (IndexEntry.indexDetails e)
    = if Nat.ltb 0 (List.length types) then Some types else None.
Proof.
  unfold entryAt, indexEntry. intros H.
  destruct (nth_error fetched i) as [sts|] eqn:Hf; [|discriminate].
  destruct (mapMi _ 0 sts) as [rs|err] eqn:Hr; simpl in H; [|discriminate].
  destruct (nth_error assigned i) as [types|] eqn:Ha; [|discriminate].
  assert (Hgoal : forall o,
    e = IndexEntry.mk (IndexSummary.id item) (IndexDetails.mk item o)
          (js_index settingsList i) rs (js_slot activePayload i)
          (js_slot archivedPayload i) ->
    o = (if Nat.ltb 0 (List.length types) then Some types else None) ->
    IndexEntry.id e = IndexSummary.id item /\
    entrySummary e = item /\
    IndexEntry.settings e = js_index settingsList i /\
    IndexEntry.activeContentWebhook e = js_slot activePayload i /\
    IndexEntry.archivedContentWebhook e = js_slot archivedPayload i /\
    exists sts' types',
      Some sts = Some sts' /\
      mapMi (replicaEntry replicas founds i) 0 sts'
      = Fulfilled (IndexEntry.replicasSettings e) /\
      Some types = Some types' /\
      IndexDetails.assignedContentTypes (IndexEntry.indexDetails e)
      = if Nat.ltb 0 (List.length types') then Some types' else None).
  { intros o -> ->. unfold entrySummary. simpl.
    repeat split. exists sts, types. auto. }
  destruct (Nat.ltb 0 (List.length types)) eqn:Hl;
    injection H as <-; eapply Hgoal; try reflexivity; now rewrite Hl.
Qed.

End AssemblyFacts.

(** ** The stages of `handler`, when the run gets through *)

Lemma indexEntries_fulfilled w hub idx doc :
  fst (indexEntries w hub idx) = Fulfilled doc ->
  exists settingsList assigned refs aList bList aPay bPay founds fetched,
    Forall2 (fun item s =>
               getIndexSettings w (IndexSummary.id item) = Fulfilled s)
            idx settingsList /\
    Forall2 (fun item ts =>
               getIndexAssignedContentTypes w (IndexSummary.id item)
               = Fulfilled ts)
            idx assigned /\
    webhookRefs assigned = Fulfilled refs /\
    Forall2 (fun ref x =>
               pending_outcome (webhookPromise w SActiveWebhook hub ref)
               = Fulfilled x)
            (fst refs) aList /\
    Forall2 (fun ref x =>
               pending_outcome (webhookPromise w SArchivedWebhook hub ref)
               = Fulfilled x)
            (snd refs) bList /\
    mapM webhookPayload aList = Fulfilled aPay /\
    mapM webhookPayload bList = Fulfilled bPay /\
    Forall2 (fun names found =>
               Forall2 (fun n r => getIndexByName w n = Fulfilled r)
                       names found)
            (map replicasOf settingsList) founds /\
    Forall2 (fun found sts =>
               Forall2 (fun r st =>
                          getIndexSettings w (IndexSummary.id r)
                          = Fulfilled st)
                       found sts)
            founds fetched /\
    buildEntries settingsList assigned aPay bPay
                 (map replicasOf settingsList) founds fetched 0 idx []
    = Fulfilled doc.
Proof.
  unfold indexEntries. intros H.
  apply bind_fulfilled in H as (settingsList & Hs & H & _).
  apply bind_fulfilled in H as (assigned & Ha & H & _).
  apply bind_fulfilled in H as (refs & Hr & H & _).
  apply bind_fulfilled in H as (aList & Hal & H & _).
  apply bind_fulfilled in H as (bList & Hbl & H & _).
  apply bind_fulfilled in H as (aPay & Hap & H & _).
  apply bind_fulfilled in H as (bPay & Hbp & H & _).
  apply bind_fulfilled in H as (founds & Hf & H & _).
  apply bind_fulfilled in H as (fetched & Hft & H & _).
  unfold lift in H, Hr, Hap, Hbp. cbn [fst] in H, Hr, Hap, Hbp.
  apply promise_all_fulfilled, Forall2_map_l in Hs.
  apply promise_all_fulfilled, Forall2_map_l in Ha.
  apply promise_all_fulfilled, Forall2_map_l in Hal.
  apply promise_all_fulfilled, Forall2_map_l in Hbl.
  apply replicaLookups_fulfilled in Hf as (founds' & -> & Hf).
  apply replicaSettingsFetches_fulfilled in Hft as (fetched' & -> & Hft).
  simpl in *.
  exists settingsList, assigned, refs, aList, bList, aPay, bPay,
    founds', fetched'.
  repeat split; assumption.
Qed.

Lemma mapMi_nth {A B} (f : nat -> A -> Outcome B) : forall l j ys,
  mapMi f j l = Fulfilled ys ->
  List.length ys = List.length l /\
  forall k x, nth_error l k = Some x ->
  exists y, nth_error ys k = Some y /\ f (j + k) x = Fulfilled y.
Proof.
  induction l as [|x l IH]; simpl; intros j ys H.
  - injection H as <-. split; [reflexivity|].
    intros [|k] y Hk; discriminate.
  - destruct (f j x) as [y|e] eqn:Hx; simpl in H; [|discriminate].
    destruct (mapMi f (S j) l) as [ys'|e] eqn:Hl; simpl in H;
      [|discriminate].
    injection H as <-. apply IH in Hl as [Hlen Hnth].
    split; [simpl; congruence|].
    intros [|k] x' Hk; simpl in *.
    + injection Hk as <-. rewrite Nat.add_0_r. eauto.
    + rewrite Nat.add_succ_r. apply (Hnth k x' Hk).
Qed.

Lemma Forall2_of_nth {A B} (R : A -> B -> Prop) : forall l1 l2,
  List.length l1 = List.length l2 ->
  (forall k x y, nth_error l1 k = Some x -> nth_error l2 k = Some y ->
                 R x y) ->
  Forall2 R l1 l2.
Proof.
  induction l1 as [|x l1 IH]; intros [|y l2] Hlen H; simpl in Hlen;
    try discriminate; constructor.
  - apply (H 0); reflexivity.
  - apply IH; [congruence|]. intros k. apply (H (S k)).
Qed.

(** The replica entries of one index follow the declared names. *)
Lemma replicaEntries_spec w replicas founds i names found sts rs :
  nth_error replicas i = Some names ->
  nth_error founds i = Some found ->
  Forall2 (fun n r => getIndexByName w n = Fulfilled r) names found ->
  Forall2 (fun r st =>
             getIndexSettings w (IndexSummary.id r) = Fulfilled st)
          found sts ->
  mapMi (replicaEntry replicas founds i) 0 sts = Fulfilled rs ->
  Forall2 (ReplicaOf w) names rs.
Proof.
  intros Hn Hf Hnf Hfs Hrs.
  apply mapMi_nth in Hrs as [Hlen Hnth].
  pose proof (Forall2_len _ _ _ Hnf) as L1.
  pose proof (Forall2_len _ _ _ Hfs) as L2.
  apply Forall2_of_nth; [congruence|].
  intros k n r Hk Hr.
  destruct (Forall2_nth_l _ _ _ Hnf k n Hk) as (fr & Hfr & Hby).
  destruct (Forall2_nth_l _ _ _ Hfs k fr Hfr) as (st & Hst & Hset).
  destruct (Hnth k st Hst) as (r' & Hr' & He).
  rewrite Hr in Hr'. injection Hr' as <-.
  simpl in He. unfold replicaEntry in He.
  rewrite Hf, Hfr, Hn in He. injection He as <-.
  exists fr. simpl. unfold js_index. rewrite Hk. auto.
Qed.

(** The payload of one webhook slot, through reference, lookup and
    payload extraction. *)
Lemma webhook_chain w site hub rel type ref x v :
  webhookRef rel type = Fulfilled ref ->
  pending_outcome (webhookPromise w site hub ref) = Fulfilled x ->
  webhookPayload x = Fulfilled v ->
  webhookField w hub rel type = Fulfilled v.
Proof.
  intros Hr Hp Hv. unfold webhookField. rewrite Hr. simpl.
  unfold webhookPromise in Hp.
  destruct ref as [| |id]; simpl in *;
    try (injection Hp as <-; simpl in Hv; assumption).
  destruct (truthy_string id); simpl in *.
  - destruct (webhooks_get w hub id) as [hook|e]; simpl in *;
      [|discriminate].
    injection Hp as <-. assumption.
  - injection Hp as <-. assumption.
Qed.

Lemma webhook_null w site hub x v :
  pending_outcome (webhookPromise w site hub JsNull) = Fulfilled x ->
  webhookPayload x = Fulfilled v ->
  v = JsNull.
Proof.
  simpl. intros Hx Hv. injection Hx as <-. simpl in Hv. congruence.
Qed.

Lemma webhookRefs_fulfilled assigned refs :
  webhookRefs assigned = Fulfilled refs ->
  exists pairs,
    Forall2 (fun types ab => webhookRefsOf types = Fulfilled ab)
            assigned pairs /\
    fst refs = map fst pairs /\ snd refs = map snd pairs.
Proof.
  unfold webhookRefs. intros H.
  destruct (mapM webhookRefsOf assigned) as [pairs|e] eqn:Hm;
    simpl in H; [|discriminate].
  injection H as <-. exists pairs.
  split; [now apply mapM_fulfilled|split; reflexivity].
Qed.

Lemma webhookRefsOf_cons type rest ab :
  webhookRefsOf (type :: rest) = Fulfilled ab ->
  webhookRef activeRel type = Fulfilled (fst ab) /\
  webhookRef archivedRel type = Fulfilled (snd ab).
Proof.
  unfold webhookRefsOf. simpl. intros H.
  destruct (webhookRef activeRel type) as [a|e]; simpl in H;
    [|discriminate].
  destruct (webhookRef archivedRel type) as [b|e]; simpl in H;
    [|discriminate].
  injection H as <-. auto.
Qed.

Lemma Entries_Forall2 entryAt (P : IndexSummary.t -> IndexEntry.t -> Prop) :
  forall i items es,
  Entries entryAt i items es ->
  (forall k item e, nth_error items k = Some item ->
                    entryAt (i + k) item = Fulfilled e -> P item e) ->
  Forall2 P (filter notReplica items) es.
Proof.
  induction 1 as [i|i item items es Hp _ IH|i item items e es Hp He _ IH];
    intros HP; simpl.
  - constructor.
  - unfold notReplica at 1. rewrite Hp. simpl. apply IH.
    intros k it e Hk Hat. apply (HP (S k)); [assumption|].
    now rewrite Nat.add_succ_r.
  - unfold notReplica at 1. rewrite Hp. simpl. constructor.
    + apply (HP 0); [reflexivity|]. now rewrite Nat.add_0_r.
    + apply IH. intros k it e' Hk Hat. apply (HP (S k)); [assumption|].
      now rewrite Nat.add_succ_r.
Qed.

(** One webhook slot of the entry at position [k]. *)
Lemma webhook_slot w site hub rel (sel : JsOpt string * JsOpt string -> JsOpt string)
    assigned pairs (refs : list (JsOpt string)) hooks payloads k types :
  (forall type rest ab, webhookRefsOf (type :: rest) = Fulfilled ab ->
                        webhookRef rel type = Fulfilled (sel ab)) ->
  sel (JsNull, JsNull) = JsNull ->
  Forall2 (fun types ab => webhookRefsOf types = Fulfilled ab)
          assigned pairs ->
  refs = map sel pairs ->
  Forall2 (fun ref x =>
             pending_outcome (webhookPromise w site hub ref) = Fulfilled x)
          refs hooks ->
  mapM webhookPayload hooks = Fulfilled payloads ->
  nth_error assigned k = Some types ->
  match types with
  | [] => js_slot payloads k = JsNull
  | type :: _ => webhookField w hub rel type = Fulfilled (js_slot payloads k)
  end.
Proof.
  intros Hsel Hnull Hpairs -> Hhooks Hpay Hk.
  apply mapM_fulfilled in Hpay.
  destruct (Forall2_nth_l _ _ _ Hpairs k types Hk) as (ab & Hab & Hrefs).
  assert (Hr : nth_error (map sel pairs) k = Some (sel ab))
    by (now apply map_nth_error).
  destruct (Forall2_nth_l _ _ _ Hhooks k _ Hr) as (x & Hx & Hprom).
  destruct (Forall2_nth_l _ _ _ Hpay k x Hx) as (v & Hv & Hval).
  unfold js_slot. rewrite Hv.
  destruct types as [|type rest].
  - unfold webhookRefsOf in Hrefs. simpl in Hrefs.
    injection Hrefs as <-. rewrite Hnull in Hprom.
    eapply webhook_null; eassumption.
  - eapply webhook_chain; [|eassumption|eassumption].
    eapply Hsel; eassumption.
Qed.

Lemma indexEntries_exports w hub idx doc :
  fst (indexEntries w hub idx) = Fulfilled doc ->
  Forall2 (ExportOf w hub) (filter notReplica idx) doc.
Proof.
  intros H.
  apply indexEntries_fulfilled in H
    as (settingsList & assigned & refs & aList & bList & aPay & bPay &
        founds & fetched & Hs & Ha & Hr & Hal & Hbl & Hap & Hbp & Hf &
        Hft & Hb).
  apply buildEntries_spec in Hb as (es & -> & HE). simpl.
  apply webhookRefs_fulfilled in Hr as (pairs & Hpairs & Hfst & Hsnd).
  eapply Entries_Forall2; [exact HE|].
  intros k item e Hk Hat. simpl in Hat.
  apply indexEntry_fulfilled in Hat
    as (Hid & Hsum & Hset & Hact & Harc & sts & types & Hsts & Hrs &
        Hty & Hass).
  destruct (Forall2_nth_l _ _ _ Hs k item Hk) as (s & Hsk & Hget).
  destruct (Forall2_nth_l _ _ _ Ha k item Hk) as (types' & Htk & Hgeta).
  rewrite Hty in Htk. injection Htk as <-.
  assert (Hrep : nth_error (map replicasOf settingsList) k
                 = Some (replicasOf s)) by (now apply map_nth_error).
  destruct (Forall2_nth_l _ _ _ Hf k _ Hrep) as (found & Hfk & Hby).
  destruct (Forall2_nth_l _ _ _ Hft k _ Hfk) as (sts' & Hsts' & Hfs).
  rewrite Hsts in Hsts'. injection Hsts' as <-.
  exists s, types. repeat split; try assumption.
  - rewrite Hset. unfold js_index. now rewrite Hsk.
  - eapply replicaEntries_spec; eassumption.
  - pose proof (webhook_slot w SActiveWebhook hub activeRel fst
                  assigned pairs (fst refs) aList aPay k types) as A.
    pose proof (webhook_slot w SArchivedWebhook hub archivedRel snd
                  assigned pairs (snd refs) bList bPay k types) as B.
    rewrite Hact, Harc.
    destruct types as [|type rest]; split.
    + apply A; auto. intros ? ? ? HH. now apply webhookRefsOf_cons in HH.
    + apply B; auto. intros ? ? ? HH. now apply webhookRefsOf_cons in HH.
    + apply A; auto. intros ? ? ? HH. now apply webhookRefsOf_cons in HH.
    + apply B; auto. intros ? ? ? HH. now apply webhookRefsOf_cons in HH.
Qed.

(** ** Where the events of a trace come from *)

Lemma in_bind {A B} (m : Run A) (k : A -> Run B) ev :
  In ev (snd (bind m k)) <->
  In ev (snd m) \/ exists a, fst m = Fulfilled a /\ In ev (snd (k a)).
Proof.
  rewrite bind_snd, in_app_iff.
  destruct (fst m) as [a|e]; split; intros [H|H]; auto.
  - right. eauto.
  - destruct H as (a' & Ha & H). injection Ha as <-. auto.
  - contradiction.
  - destruct H as (a' & Ha & _). discriminate.
Qed.

Lemma started_site {A} s (ps : list (Pending A)) :
  Forall (issued_at s) ps ->
  forall ev, In ev (started ps) -> event_site ev = Some s.
Proof.
  induction 1 as [|p ps Hp _ IH]; simpl; intros ev Hin; [contradiction|].
  destruct p as [s' r res|a]; simpl in *; [|auto].
  destruct Hin as [<-|Hin]; [simpl; congruence|auto].
Qed.

Lemma settle_site {A} s (ps : list (Pending A)) :
  Forall (issued_at s) ps ->
  forall order ev, In ev (snd (settle ps order)) -> event_site ev = Some s.
Proof.
  intros Hps. induction order as [|k order IH]; simpl; intros ev Hin;
    [contradiction|].
  destruct (nth_error ps k) as [[s' r [a|e]|a]|] eqn:Hk; auto.
  - assert (s' = s).
    { apply nth_error_In in Hk.
      rewrite Forall_forall in Hps. apply (Hps _ Hk). }
    subst s'. destruct (settle ps order) as [o t]. simpl in *.
    destruct Hin as [<-|Hin]; auto.
  - assert (s' = s).
    { apply nth_error_In in Hk.
      rewrite Forall_forall in Hps. apply (Hps _ Hk). }
    subst s'. simpl in Hin. destruct Hin as [<-|[]]. reflexivity.
Qed.

Lemma promise_all_site {A} s completion (ps : list (Pending A)) :
  Forall (issued_at s) ps ->
  forall ev, In ev (snd (promise_all completion ps)) ->
  event_site ev = Some s.
Proof.
  intros Hps ev. rewrite promise_all_snd, in_app_iff. intros [H|H].
  - eapply started_site; eassumption.
  - eapply settle_site; eassumption.
Qed.

Lemma issued_map {A B} s (f : A -> Request) (g : A -> Outcome B) l :
  Forall (issued_at s) (map (fun x => Issued s (f x) (g x)) l).
Proof.
  apply Forall_forall. intros p Hp.
  apply in_map_iff in Hp as (x & <- & _). reflexivity.
Qed.

Lemma webhookPromise_issued w s hub refs :
  Forall (issued_at s) (map (webhookPromise w s hub) refs).
Proof.
  apply Forall_forall. intros p Hp.
  apply in_map_iff in Hp as (x & <- & _).
  unfold webhookPromise.
  destruct x as [| |ref]; simpl; auto.
  destruct (truthy_string ref); simpl; auto.
Qed.

Lemma await_site {A} s r (res : Outcome A) ev :
  In ev (snd (await s r res)) -> event_site ev = Some s.
Proof.
  destruct res; simpl; intros [<-|[<-|[]]]; reflexivity.
Qed.

(** The events of the by-name pass belong to indexes that declare
    replicas. *)
Lemma replicaLookups_events w reps : forall i acc ev,
  In ev (snd (replicaLookups w i reps acc)) ->
  exists j names,
    nth_error reps j = Some names /\ names <> [] /\
    event_site ev = Some (SReplicaByName (i + j)).
Proof.
  induction reps as [|names reps IH]; simpl; intros i acc ev Hin;
    [contradiction|].
  destruct (Nat.ltb 0 (List.length names)) eqn:Hlen.
  - apply in_bind in Hin as [Hin|(vs & _ & Hin)].
    + exists 0, names. rewrite Nat.add_0_r. simpl.
      split; [reflexivity|]. split.
      * intros ->. discriminate.
      * eapply promise_all_site; [|exact Hin]. apply issued_map.
    + apply IH in Hin as (j & ns & Hj & Hne & Hs).
      exists (S j), ns. rewrite Nat.add_succ_r. auto.
  - apply IH in Hin as (j & ns & Hj & Hne & Hs).
    exists (S j), ns. rewrite Nat.add_succ_r. auto.
Qed.

Lemma replicaSettingsFetches_events w founds : forall i acc ev,
  In ev (snd (replicaSettingsFetches w i founds acc)) ->
  exists j found,
    nth_error founds j = Some found /\ found <> [] /\
    event_site ev = Some (SReplicaSettings (i + j)).
Proof.
  induction founds as [|found founds IH]; simpl; intros i acc ev Hin;
    [contradiction|].
  destruct (Nat.ltb 0 (List.length found)) eqn:Hlen.
  - apply in_bind in Hin as [Hin|(vs & _ & Hin)].
    + exists 0, found. rewrite Nat.add_0_r. simpl.
      split; [reflexivity|]. split.
      * intros ->. discriminate.
      * eapply promise_all_site; [|exact Hin]. apply issued_map.
    + apply IH in Hin as (j & ns & Hj & Hne & Hs).
      exists (S j), ns. rewrite Nat.add_succ_r. auto.
  - apply IH in Hin as (j & ns & Hj & Hne & Hs).
    exists (S j), ns. rewrite Nat.add_succ_r. auto.
Qed.

Lemma AtSites_app P t1 t2 :
  AtSites P t1 -> AtSites P t2 -> AtSites P (t1 ++ t2).
Proof. unfold AtSites. intros. apply Forall_app. auto. Qed.

Lemma AtSites_of P t :
  (forall ev, In ev t -> exists s, event_site ev = Some s /\ P s) ->
  AtSites P t.
Proof. intros H. apply Forall_forall. exact H. Qed.

Lemma promise_all_fanout {A} s completion (ps : list (Pending A)) :
  fanout s -> Forall (issued_at s) ps ->
  AtSites fanout (snd (promise_all completion ps)).
Proof.
  intros Hs Hps. apply AtSites_of. intros ev Hin. exists s.
  split; [|assumption]. eapply promise_all_site; eassumption.
Qed.

(** The trace of the guarded body: the fan-outs, then the by-name pass,
    then the replica-settings pass. *)
Lemma indexEntries_anatomy w hub idx :
  exists pre L S,
    snd (indexEntries w hub idx) = pre ++ L ++ S /\
    AtSites fanout pre /\
    (L = [] \/
     exists settingsList,
       Forall2 (fun item s =>
                  getIndexSettings w (IndexSummary.id item) = Fulfilled s)
               idx settingsList /\
       L = snd (replicaLookups w 0 (map replicasOf settingsList) [])) /\
    (S = [] \/
     exists settingsList founds,
       Forall2 (fun item s =>
                  getIndexSettings w (IndexSummary.id item) = Fulfilled s)
               idx settingsList /\
       fst (replicaLookups w 0 (map replicasOf settingsList) [])
       = Fulfilled founds /\
       S = snd (replicaSettingsFetches w 0 founds [])).
Proof.
  unfold indexEntries.
  set (p1 := promise_all (completion w SSettings) _).
  assert (F1 : AtSites fanout (snd p1))
    by (apply (promise_all_fanout SSettings); [exact I|apply issued_map]).
  rewrite bind_snd.
  destruct (fst p1) as [settingsList|e1] eqn:E1;
    [|exists (snd p1), [], []; rewrite !app_nil_r; repeat split; auto].
  apply promise_all_fulfilled, Forall2_map_l in E1. simpl in E1.
  set (p2 := promise_all (completion w SAssigned) _).
  assert (F2 : AtSites fanout (snd p2))
    by (apply (promise_all_fanout SAssigned); [exact I|apply issued_map]).
  rewrite bind_snd.
  destruct (fst p2) as [assigned|e2];
    [|exists (snd p1 ++ snd p2), [], []; rewrite !app_nil_r;
      repeat split; auto using AtSites_app].
  rewrite bind_snd, lift_snd, lift_fst. cbn [app].
  destruct (webhookRefs assigned) as [refs|e3]; cbn beta iota;
    [|exists (snd p1 ++ snd p2), [], []; rewrite !app_nil_r;
      repeat split; auto using AtSites_app].
  set (p4 := promise_all (completion w SActiveWebhook)
              (map (webhookPromise w SActiveWebhook hub) (fst refs))).
  assert (F4 : AtSites fanout (snd p4))
    by (apply (promise_all_fanout SActiveWebhook);
        [exact I|apply webhookPromise_issued]).
  rewrite bind_snd.
  destruct (fst p4) as [aList|e4];
    [|exists (snd p1 ++ snd p2 ++ snd p4), [], []; rewrite !app_nil_r;
      repeat split; auto using AtSites_app].
  set (p5 := promise_all (completion w SArchivedWebhook)
              (map (webhookPromise w SArchivedWebhook hub) (snd refs))).
  assert (F5 : AtSites fanout (snd p5))
    by (apply (promise_all_fanout SArchivedWebhook);
        [exact I|apply webhookPromise_issued]).
  rewrite bind_snd.
  destruct (fst p5) as [bList|e5];
    [|exists (snd p1 ++ snd p2 ++ snd p4 ++ snd p5), [], [];
      rewrite !app_nil_r; repeat split; auto using AtSites_app].
  assert (Fpre : AtSites fanout (snd p1 ++ snd p2 ++ snd p4 ++ snd p5))
    by auto using AtSites_app.
  rewrite bind_snd, lift_snd, lift_fst. cbn [app].
  destruct (mapM webhookPayload aList) as [aPay|e6]; cbn beta iota;
    [|exists (snd p1 ++ snd p2 ++ snd p4 ++ snd p5), [], [];
      rewrite !app_nil_r; repeat split; auto].
  rewrite bind_snd, lift_snd, lift_fst. cbn [app].
  destruct (mapM webhookPayload bList) as [bPay|e7]; cbn beta iota;
    [|exists (snd p1 ++ snd p2 ++ snd p4 ++ snd p5), [], [];
      rewrite !app_nil_r; repeat split; auto].
  set (reps := map replicasOf settingsList).
  rewrite bind_snd.
  destruct (fst (replicaLookups w 0 reps [])) as [founds|e8] eqn:E8.
  - rewrite bind_snd.
    exists (snd p1 ++ snd p2 ++ snd p4 ++ snd p5),
      (snd (replicaLookups w 0 reps [])),
      (snd (replicaSettingsFetches w 0 founds [])).
    split.
    { destruct (fst (replicaSettingsFetches w 0 founds [])); simpl;
        rewrite ?app_nil_r, <- ?app_assoc; reflexivity. }
    split; [assumption|]. split; right; eauto.
  - exists (snd p1 ++ snd p2 ++ snd p4 ++ snd p5),
      (snd (replicaLookups w 0 reps [])), [].
    split; [rewrite !app_nil_r, <- ?app_assoc; reflexivity|].
    split; [assumption|]. split; [right; eauto|left; reflexivity].
Qed.

Lemma AtSites_weaken (P Q : Site -> Prop) t :
  (forall s, P s -> Q s) -> AtSites P t -> AtSites Q t.
Proof.
  intros HPQ. unfold AtSites. apply Forall_impl.
  intros ev (s & Hs & HP). eauto.
Qed.

Lemma fanout_plain s : fanout s -> plain_site s.
Proof. destruct s; simpl; auto. Qed.

Lemma await_fst {A} s r (res : Outcome A) : fst (await s r res) = res.
Proof. destruct res; reflexivity. Qed.

Lemma await_plain {A} s r (res : Outcome A) :
  plain_site s -> AtSites plain_site (snd (await s r res)).
Proof.
  intros Hs. apply AtSites_of. intros ev Hin.
  exists s. split; [|assumption]. eapply await_site; eassumption.
Qed.

Lemma promptToExportSettings_events w f ev :
  In ev (snd (promptToExportSettings w f)) ->
  ev = Prompted f (overwrite_confirmed w f) /\
  file_exists w f = true /\
  fst (promptToExportSettings w f) = Fulfilled (overwrite_confirmed w f).
Proof.
  unfold promptToExportSettings.
  destruct (file_exists w f); simpl; [|contradiction].
  intros [<-|[]]. auto.
Qed.

Lemma promptToExportSettings_fst w f :
  exists b, fst (promptToExportSettings w f) = Fulfilled b.
Proof.
  unfold promptToExportSettings.
  destruct (file_exists w f); simpl; eauto.
Qed.

Lemma writeJsonToFile_events w f doc ev :
  In ev (snd (writeJsonToFile w f doc)) ->
  ev = Written f doc /\
  write_error w f doc = None /\
  fst (writeJsonToFile w f doc) = Fulfilled tt.
Proof.
  unfold writeJsonToFile.
  destruct (write_error w f doc); simpl; [contradiction|].
  intros [<-|[]]. auto.
Qed.

(** What `processIndexes` does, case by case: the write and the notice
    with no file in the way or the overwrite confirmed, the clean exit
    with the overwrite declined, and the error of the write, surfaced,
    when the write fails. *)
Lemma processIndexes_cases w d hub final :
  let f := uniqueFilename d hub in
  let asked := if file_exists w f
               then [Prompted f (overwrite_confirmed w f)] else [] in
  processIndexes w d hub final
  = if file_exists w f && negb (overwrite_confirmed w f)
    then (Fulfilled tt, asked ++ [NothingExported])
    else match write_error w f final with
         | None =>
             (Fulfilled tt, asked ++ [Written f final; Stdout successNotice])
         | Some e => (Rejected e, asked)
         end.
Proof.
  unfold processIndexes, promptToExportSettings, writeJsonToFile.
  cbv zeta.
  destruct (file_exists w (uniqueFilename d hub)); simpl.
  - destruct (overwrite_confirmed w (uniqueFilename d hub)); simpl;
      [|reflexivity].
    destruct (write_error w (uniqueFilename d hub) final); reflexivity.
  - destruct (write_error w (uniqueFilename d hub) final); reflexivity.
Qed.

Lemma processIndexes_events w d hub final ev :
  In ev (snd (processIndexes w d hub final)) -> event_site ev = None.
Proof.
  rewrite processIndexes_cases. cbv zeta.
  destruct (file_exists w (uniqueFilename d hub));
    destruct (overwrite_confirmed w (uniqueFilename d hub));
    destruct (write_error w (uniqueFilename d hub) final);
    simpl; intros H;
    repeat (destruct H as [<-|H]; [reflexivity|]); contradiction.
Qed.

(** `processIndexes` ends as the write does, unless the overwrite is
    declined. *)
Lemma processIndexes_fst w d hub final :
  let f := uniqueFilename d hub in
  fst (processIndexes w d hub final)
  = if file_exists w f && negb (overwrite_confirmed w f) then Fulfilled tt
    else match write_error w f final with
         | None => Fulfilled tt
         | Some e => Rejected e
         end.
Proof.
  rewrite processIndexes_cases. cbv zeta.
  destruct (file_exists w (uniqueFilename d hub) &&
            negb (overwrite_confirmed w (uniqueFilename d hub)));
    [reflexivity|].
  destruct (write_error w (uniqueFilename d hub) final); reflexivity.
Qed.

(** The trace of a whole run: single fetches and fan-outs, the by-name
    pass, the replica-settings pass, and the export gate and write. *)
Lemma handler_anatomy w argv :
  exists pre L S post,
    snd (handler w argv) = pre ++ L ++ S ++ post /\
    AtSites plain_site pre /\
    (forall ev, In ev post -> event_site ev = None) /\
    (L = [] \/
     exists idx settingsList,
       getIdexesDetailsList w = Fulfilled idx /\
       Forall2 (fun item s =>
                  getIndexSettings w (IndexSummary.id item) = Fulfilled s)
               idx settingsList /\
       L = snd (replicaLookups w 0 (map replicasOf settingsList) [])) /\
    (S = [] \/
     exists idx settingsList founds,
       getIdexesDetailsList w = Fulfilled idx /\
       Forall2 (fun item s =>
                  getIndexSettings w (IndexSummary.id item) = Fulfilled s)
               idx settingsList /\
       fst (replicaLookups w 0 (map replicasOf settingsList) [])
       = Fulfilled founds /\
       S = snd (replicaSettingsFetches w 0 founds [])).
Proof.
  unfold handler.
  set (a1 := await SHub _ _).
  assert (F1 : AtSites plain_site (snd a1)) by (apply await_plain; exact I).
  rewrite bind_snd.
  destruct (fst a1) as [hub|e1];
    [|exists (snd a1), [], [], []; rewrite !app_nil_r;
      repeat split; auto; contradiction].
  set (a2 := await SInit _ _).
  assert (F2 : AtSites plain_site (snd a2)) by (apply await_plain; exact I).
  rewrite bind_snd.
  destruct (fst a2) as [u|e2];
    [|exists (snd a1 ++ snd a2), [], [], []; rewrite !app_nil_r;
      repeat split; auto using AtSites_app; contradiction].
  set (a3 := await SList _ _).
  assert (F3 : AtSites plain_site (snd a3)) by (apply await_plain; exact I).
  rewrite bind_snd.
  destruct (fst a3) as [idx|e3] eqn:E3;
    [|exists (snd a1 ++ snd a2 ++ snd a3), [], [], []; rewrite !app_nil_r;
      repeat split; auto using AtSites_app; contradiction].
  unfold a3 in E3. rewrite await_fst in E3.
  assert (F : AtSites plain_site (snd a1 ++ snd a2 ++ snd a3))
    by auto using AtSites_app.
  rewrite bind_snd.
  destruct (Nat.ltb 0 (List.length idx)).
  - destruct (indexEntries_anatomy w hub idx)
      as (pre & L & S & -> & Hpre & HL & HS).
    exists ((snd a1 ++ snd a2 ++ snd a3) ++ pre), L, S,
      (match fst (indexEntries w hub idx) with
       | Fulfilled a => snd (processIndexes w (dir argv) hub a)
       | Rejected _ => []
       end).
    split; [rewrite <- !app_assoc; reflexivity|].
    split; [apply AtSites_app; [assumption|]|].
    { eapply AtSites_weaken; [apply fanout_plain|assumption]. }
    split.
    { destruct (fst (indexEntries w hub idx)); [|contradiction].
      apply processIndexes_events. }
    split.
    + destruct HL as [->|(sl & Hsl & ->)]; [now left|right; eauto].
    + destruct HS as [->|(sl & fo & Hsl & Hfo & ->)];
        [now left|right]. exists idx, sl, fo. auto.
  - simpl.
    exists (snd a1 ++ snd a2 ++ snd a3), [], [],
      (snd (processIndexes w (dir argv) hub [])).
    split; [rewrite <- !app_assoc; reflexivity|].
    repeat split; auto. apply processIndexes_events.
Qed.

Lemma indexEntries_sites w hub idx ev :
  In ev (snd (indexEntries w hub idx)) -> event_site ev <> None.
Proof.
  destruct (indexEntries_anatomy w hub idx)
    as (pre & L & S & -> & Hpre & HL & HS).
  rewrite !in_app_iff. intros [H|[H|H]].
  - unfold AtSites in Hpre. rewrite Forall_forall in Hpre.
    destruct (Hpre ev H) as (s & -> & _). discriminate.
  - destruct HL as [->|(sl & _ & ->)]; [contradiction|].
    apply replicaLookups_events in H as (j & ns & _ & _ & ->).
    discriminate.
  - destruct HS as [->|(sl & fo & _ & _ & ->)]; [contradiction|].
    apply replicaSettingsFetches_events in H as (j & ns & _ & _ & ->).
    discriminate.
Qed.

Lemma processIndexes_written w d hub final f doc :
  In (Written f doc) (snd (processIndexes w d hub final)) ->
  f = uniqueFilename d hub /\ doc = final.
Proof.
  rewrite processIndexes_cases. cbv zeta.
  destruct (file_exists w (uniqueFilename d hub));
    destruct (overwrite_confirmed w (uniqueFilename d hub));
    destruct (write_error w (uniqueFilename d hub) final);
    simpl; intros H;
    repeat (destruct H as [Heq|H];
            [try discriminate; injection Heq as <- <-; auto|]);
    contradiction.
Qed.

(** A write that shows in the trace went through, and the run of
    `processIndexes` with it. *)
Lemma processIndexes_written_fst w d hub final f doc :
  In (Written f doc) (snd (processIndexes w d hub final)) ->
  fst (processIndexes w d hub final) = Fulfilled tt /\
  write_error w f doc = None.
Proof.
  intros Hin. pose proof (processIndexes_written _ _ _ _ _ _ Hin) as [-> ->].
  revert Hin. rewrite processIndexes_cases. cbv zeta.
  destruct (file_exists w (uniqueFilename d hub));
    destruct (overwrite_confirmed w (uniqueFilename d hub));
    destruct (write_error w (uniqueFilename d hub) final);
    simpl; intros H; auto;
    repeat (destruct H as [Heq|H]; [discriminate|]); contradiction.
Qed.

(** What a run that reaches the export gate has fetched. *)
Lemma handler_gate w argv ev :
  In ev (snd (handler w argv)) -> event_site ev = None ->
  exists hub idx final,
    hubs_get w (hubId argv) = Fulfilled hub /\
    getIdexesDetailsList w = Fulfilled idx /\
    Forall2 (ExportOf w hub) (filter notReplica idx) final /\
    In ev (snd (processIndexes w (dir argv) hub final)) /\
    fst (handler w argv) = fst (processIndexes w (dir argv) hub final).
Proof.
  unfold handler. intros Hin Hsite.
  apply in_bind in Hin as [Hin|(hub & Hhub & Hin)];
    [apply await_site in Hin; congruence|].
  rewrite bind_fst, Hhub. cbn beta iota. rewrite await_fst in Hhub.
  apply in_bind in Hin as [Hin|(u & Hu & Hin)];
    [apply await_site in Hin; congruence|].
  rewrite bind_fst, Hu. cbn beta iota.
  apply in_bind in Hin as [Hin|(idx & Hidx & Hin)];
    [apply await_site in Hin; congruence|].
  rewrite bind_fst, Hidx. cbn beta iota. rewrite await_fst in Hidx.
  rewrite bind_fst.
  apply in_bind in Hin as [Hin|(final & Hfinal & Hin)].
  - destruct (Nat.ltb 0 (List.length idx)); [|contradiction].
    apply indexEntries_sites in Hin. contradiction.
  - rewrite Hfinal. exists hub, idx, final.
    repeat split; try assumption.
    destruct (Nat.ltb 0 (List.length idx)) eqn:Hlen.
    + now apply indexEntries_exports.
    + apply length_zero_nil in Hlen. subst idx.
      injection Hfinal as <-. constructor.
Qed.

(** What a run that writes the export file has written, and where. *)
Lemma handler_written w argv f doc :
  In (Written f doc) (snd (handler w argv)) ->
  exists hub idx,
    hubs_get w (hubId argv) = Fulfilled hub /\
    getIdexesDetailsList w = Fulfilled idx /\
    f = uniqueFilename (dir argv) hub /\
    Forall2 (ExportOf w hub) (filter notReplica idx) doc /\
    fst (handler w argv) = Fulfilled tt.
Proof.
  intros Hin.
  apply handler_gate in Hin
    as (hub & idx & final & Hhub & Hidx & HF & Hin & Hfst);
    [|reflexivity].
  pose proof (processIndexes_written_fst _ _ _ _ _ _ Hin) as [Hok _].
  apply processIndexes_written in Hin as [-> ->].
  exists hub, idx. repeat split; try assumption. congruence.
Qed.

(** ** The exported document *)

Lemma Forall2_in_r {A B} (R : A -> B -> Prop) l1 l2 y :
  Forall2 R l1 l2 -> In y l2 -> exists x, In x l1 /\ R x y.
Proof.
  induction 1 as [|a b l1 l2 Hab _ IH]; simpl; intros Hin; [contradiction|].
  destruct Hin as [<-|Hin]; [eauto|].
  destruct (IH Hin) as (x & Hx & HR). eauto.
Qed.

Lemma Forall2_map_eq {A B C} (R : A -> B -> Prop) (f : B -> C) (g : A -> C)
    l1 l2 :
  (forall x y, R x y -> f y = g x) ->
  Forall2 R l1 l2 -> map f l2 = map g l1.
Proof.
  intros H. induction 1; simpl; [reflexivity|]. f_equal; auto.
Qed.

Lemma notReplica_iff item :
  notReplica item = true <->
  IndexSummary.parentId item = None \/ IndexSummary.parentId item = Some "".
Proof.
  unfold notReplica, truthy_prop, truthy_string.
  destruct (IndexSummary.parentId item) as [p|]; simpl.
  - rewrite negb_involutive. split.
    + intros H. apply String.eqb_eq in H. subst. auto.
    + intros [H|H]; [discriminate|]. injection H as ->. reflexivity.
  - split; auto.
Qed.

Lemma ReplicaOf_names w names rs :
  Forall2 (ReplicaOf w) names rs ->
  map ReplicaSettingsEntry.name rs = map JsSome names.
Proof.
  apply Forall2_map_eq. intros n r (found & _ & _ & Hn & _). exact Hn.
Qed.

(** C1 (amended): a run that writes the export has listed the indexes and
    wrote exactly one entry per listed index whose `parentId` is absent
    or the empty string, in the order of the listing; no entry stands
    for an index with a non-empty `parentId`. *)
Theorem export_one_entry_per_non_replica w argv f doc :
  In (Written f doc) (snd (handler w argv)) ->
  exists idx,
    getIdexesDetailsList w = Fulfilled idx /\
    map entrySummary doc = filter notReplica idx /\
    map IndexEntry.id doc = map IndexSummary.id (filter notReplica idx) /\
    (forall item, notReplica item = true <->
                  IndexSummary.parentId item = None \/
                  IndexSummary.parentId item = Some "") /\
    (forall e p, In e doc ->
                 IndexSummary.parentId (entrySummary e) = Some p -> p = "").
Proof.
  intros Hin.
  apply handler_written in Hin as (hub & idx & _ & Hidx & _ & HF & _).
  exists idx. split; [assumption|].
  assert (Hsum : map entrySummary doc = filter notReplica idx).
  { rewrite <- (map_id (filter notReplica idx)).
    eapply Forall2_map_eq; [|exact HF].
    intros x y (s & types & _ & _ & _ & H & _). exact H. }
  split; [assumption|]. split.
  { eapply Forall2_map_eq; [|exact HF].
    intros x y (s & types & _ & _ & H & _). exact H. }
  split; [apply notReplica_iff|].
  intros e p He Hp.
  assert (Hm : In (entrySummary e) (filter notReplica idx))
    by (rewrite <- Hsum; now apply in_map).
  apply filter_In in Hm as [_ Hm].
  apply notReplica_iff in Hm as [Hm|Hm]; congruence.
Qed.

Lemma export_one_entry_per_non_replica_witness :
  exists idx,
    getIdexesDetailsList Sample.scenario = Fulfilled idx /\
    map entrySummary [Sample.scenarioEntry] = filter notReplica idx /\
    map IndexEntry.id [Sample.scenarioEntry]
    = map IndexSummary.id (filter notReplica idx) /\
    (forall item, notReplica item = true <->
                  IndexSummary.parentId item = None \/
                  IndexSummary.parentId item = Some "") /\
    (forall e p, In e [Sample.scenarioEntry] ->
                 IndexSummary.parentId (entrySummary e) = Some p -> p = "").
Proof.
  apply (export_one_entry_per_non_replica Sample.scenario Sample.argv
           "out/indexes-h1-Acme.json" [Sample.scenarioEntry]).
  in_trace.
Defined.

(** C1 as stated fails: a listed index whose `parentId` is set to the
    empty string is exported as a top-level entry. *)
Lemma parentId_set_but_exported :
  In (Written "out/indexes-h1-Acme.json" [Sample.emptyParentEntry])
     (snd (handler Sample.emptyParentWorld Sample.argv)) /\
  getIdexesDetailsList Sample.emptyParentWorld
  = Fulfilled [Sample.emptyParent] /\
  IndexSummary.parentId (entrySummary Sample.emptyParentEntry) = Some "" /\
  filter (fun item => match IndexSummary.parentId item with
                      | None => true
                      | Some _ => false
                      end) [Sample.emptyParent] = [].
Proof.
  split; [in_trace|]. repeat split.
Qed.

Lemma written_entry w argv f doc e :
  In (Written f doc) (snd (handler w argv)) -> In e doc ->
  exists hub item,
    hubs_get w (hubId argv) = Fulfilled hub /\
    notReplica item = true /\
    ExportOf w hub item e.
Proof.
  intros Hin He.
  apply handler_written in Hin as (hub & idx & Hhub & _ & _ & HF & _).
  destruct (Forall2_in_r _ _ _ _ HF He) as (item & Hitem & Hexp).
  apply filter_In in Hitem as [_ Hnr]. eauto.
Qed.

(** C2: in every exported entry whose settings declare a list of replica
    names, `replicasSettings` has the length of that list and carries the
    declared names position by position, whatever order the fetches of
    the run completed in (the completion orders are part of the world). *)
Theorem replicasSettings_mirror_declared_names w argv f doc e :
  In (Written f doc) (snd (handler w argv)) -> In e doc ->
  exists s,
    getIndexSettings w (IndexEntry.id e) = Fulfilled s /\
    IndexEntry.settings e = JsSome s /\
    forall names,
      IndexSettings.replicas s = Some names ->
      List.length (IndexEntry.replicasSettings e) = List.length names /\
      map ReplicaSettingsEntry.name (IndexEntry.replicasSettings e)
      = map JsSome names /\
      Forall2 (ReplicaOf w) names (IndexEntry.replicasSettings e).
Proof.
  intros Hin He.
  destruct (written_entry _ _ _ _ _ Hin He)
    as (hub & item & _ & _ & s & types & Hs & _ & Hid & _ & Hset & Hrep & _).
  exists s. rewrite Hid. split; [assumption|]. split; [assumption|].
  intros names Hnames. unfold replicasOf in Hrep. rewrite Hnames in Hrep.
  split; [symmetry; eapply Forall2_len; eassumption|].
  split; [now apply (ReplicaOf_names w)|assumption].
Qed.

Lemma replicasSettings_mirror_declared_names_witness :
  exists s,
    getIndexSettings Sample.twoReplicas
      (IndexEntry.id Sample.twoReplicasEntry) = Fulfilled s /\
    IndexEntry.settings Sample.twoReplicasEntry = JsSome s /\
    forall names,
      IndexSettings.replicas s = Some names ->
      List.length (IndexEntry.replicasSettings Sample.twoReplicasEntry)
      = List.length names /\
      map ReplicaSettingsEntry.name
          (IndexEntry.replicasSettings Sample.twoReplicasEntry)
      = map JsSome names /\
      Forall2 (ReplicaOf Sample.twoReplicas) names
              (IndexEntry.replicasSettings Sample.twoReplicasEntry).
Proof.
  apply (replicasSettings_mirror_declared_names Sample.twoReplicas
           Sample.argv "out/indexes-h1-Acme.json"
           [Sample.twoReplicasEntry]).
  - in_trace.
  - simpl. left. reflexivity.
Defined.

(** C5 (amended): for an index with one or more assignments, both webhook
    fields of its entry are derived from the first assignment alone,
    while `indexDetails.assignedContentTypes` carries the whole list of
    assignments. *)
Theorem webhooks_from_first_assignment w argv f doc e :
  In (Written f doc) (snd (handler w argv)) -> In e doc ->
  exists hub types,
    hubs_get w (hubId argv) = Fulfilled hub /\
    getIndexAssignedContentTypes w (IndexEntry.id e) = Fulfilled types /\
    forall type rest,
      types = type :: rest ->
      webhookField w hub activeRel type
      = Fulfilled (IndexEntry.activeContentWebhook e) /\
      webhookField w hub archivedRel type
      = Fulfilled (IndexEntry.archivedContentWebhook e) /\
      IndexDetails.assignedContentTypes (IndexEntry.indexDetails e)
      = Some (type :: rest).
Proof.
  intros Hin He.
  destruct (written_entry _ _ _ _ _ Hin He)
    as (hub & item & Hhub & _ & s & types & _ & Ht & Hid & _ & _ & _ &
        Hass & Hw).
  exists hub, types. rewrite Hid. split; [assumption|].
  split; [assumption|].
  intros type rest ->. destruct Hw as [Ha Hb]. auto.
Qed.

Lemma webhooks_from_first_assignment_witness :
  exists hub types,
    hubs_get Sample.twoAssignmentsWorld (hubId Sample.argv)
    = Fulfilled hub /\
    getIndexAssignedContentTypes Sample.twoAssignmentsWorld
      (IndexEntry.id Sample.twoAssignmentsEntry) = Fulfilled types /\
    forall type rest,
      types = type :: rest ->
      webhookField Sample.twoAssignmentsWorld hub activeRel type
      = Fulfilled (IndexEntry.activeContentWebhook
                     Sample.twoAssignmentsEntry) /\
      webhookField Sample.twoAssignmentsWorld hub archivedRel type
      = Fulfilled (IndexEntry.archivedContentWebhook
                     Sample.twoAssignmentsEntry) /\
      IndexDetails.assignedContentTypes
        (IndexEntry.indexDetails Sample.twoAssignmentsEntry)
      = Some (type :: rest).
Proof.
  apply (webhooks_from_first_assignment Sample.twoAssignmentsWorld
           Sample.argv "out/indexes-h1-Acme.json"
           [Sample.twoAssignmentsEntry]).
  - in_trace.
  - simpl. left. reflexivity.
Defined.

(** C5 as stated fails: the later assignment of an index appears in its
    entry, inside `indexDetails.assignedContentTypes`. *)
Lemma later_assignment_exported :
  In (Written "out/indexes-h1-Acme.json" [Sample.twoAssignmentsEntry])
     (snd (handler Sample.twoAssignmentsWorld Sample.argv)) /\
  getIndexAssignedContentTypes Sample.twoAssignmentsWorld "i1"
  = Fulfilled [Sample.firstAssignment; Sample.laterAssignment] /\
  exists types,
    IndexDetails.assignedContentTypes
      (IndexEntry.indexDetails Sample.twoAssignmentsEntry) = Some types /\
    In Sample.laterAssignment types.
Proof.
  split; [in_trace|]. split; [reflexivity|].
  eexists. split; [reflexivity|]. simpl. auto.
Qed.

(** C6: the exported `indexDetails` of an entry carries
    `assignedContentTypes` exactly when the assignment list fetched for
    the index is not empty, and then it is that list; the property is
    never an empty sequence. *)
Theorem assignedContentTypes_iff_assigned w argv f doc e :
  In (Written f doc) (snd (handler w argv)) -> In e doc ->
  exists types,
    getIndexAssignedContentTypes w (IndexEntry.id e) = Fulfilled types /\
    (IndexDetails.assignedContentTypes (IndexEntry.indexDetails e) <> None
     <-> types <> []) /\
    (types = [] ->
     IndexDetails.assignedContentTypes (IndexEntry.indexDetails e) = None) /\
    (types <> [] ->
     IndexDetails.assignedContentTypes (IndexEntry.indexDetails e)
     = Some types) /\
    IndexDetails.assignedContentTypes (IndexEntry.indexDetails e) <> Some [].
Proof.
  intros Hin He.
  destruct (written_entry _ _ _ _ _ Hin He)
    as (hub & item & _ & _ & s & types & _ & Ht & Hid & _ & _ & _ &
        Hass & _).
  exists types. rewrite Hid. split; [assumption|]. rewrite Hass.
  destruct types as [|type rest]; simpl; repeat split;
    intros; congruence.
Qed.

Lemma assignedContentTypes_iff_assigned_witness :
  exists types,
    getIndexAssignedContentTypes Sample.scenario
      (IndexEntry.id Sample.scenarioEntry) = Fulfilled types /\
    (IndexDetails.assignedContentTypes
       (IndexEntry.indexDetails Sample.scenarioEntry) <> None
     <-> types <> []) /\
    (types = [] ->
     IndexDetails.assignedContentTypes
       (IndexEntry.indexDetails Sample.scenarioEntry) = None) /\
    (types <> [] ->
     IndexDetails.assignedContentTypes
       (IndexEntry.indexDetails Sample.scenarioEntry) = Some types) /\
    IndexDetails.assignedContentTypes
      (IndexEntry.indexDetails Sample.scenarioEntry) <> Some [].
Proof.
  apply (assignedContentTypes_iff_assigned Sample.scenario Sample.argv
           "out/indexes-h1-Acme.json" [Sample.scenarioEntry]).
  - in_trace.
  - simpl. left. reflexivity.
Defined.

(** ** Rejections *)

Lemma first_failure_app_none t1 t2 :
  first_failure t1 = None -> first_failure (t1 ++ t2) = first_failure t2.
Proof.
  induction t1 as [|ev t1 IH]; simpl; [reflexivity|].
  destruct ev as [s r|s r [e|]| | | |]; auto; discriminate.
Qed.

Lemma first_failure_started {A} (ps : list (Pending A)) :
  first_failure (started ps) = None.
Proof.
  induction ps as [|[s r res|a] ps IH]; simpl; auto.
Qed.

Lemma settle_first_failure {A} (ps : list (Pending A)) order :
  first_failure (snd (settle ps order)) = fst (settle ps order).
Proof.
  induction order as [|k order IH]; simpl; [reflexivity|].
  destruct (nth_error ps k) as [[s r [a|e]|a]|]; auto.
  destruct (settle ps order) as [o t]. simpl in *. assumption.
Qed.

Lemma settle_no_started {A} (ps : list (Pending A)) order s r :
  ~ In (Started s r) (snd (settle ps order)).
Proof.
  induction order as [|k order IH]; simpl; [tauto|].
  destruct (nth_error ps k) as [[s' r' [a|e]|a]|]; auto.
  - destruct (settle ps order) as [o t]. simpl in *.
    intros [H|H]; [discriminate|auto].
  - simpl. intros [H|[]]. discriminate.
Qed.

Lemma started_issued {A} (ps : list (Pending A)) s r :
  In (Started s r) (started ps) -> exists res, In (Issued s r res) ps.
Proof.
  induction ps as [|[s' r' res|a] ps IH]; simpl; intros H.
  - contradiction.
  - destruct H as [H|H].
    + injection H as -> ->. eauto.
    + destruct (IH H) as [res' Hres]. eauto.
  - destruct (IH H) as [res' Hres]. eauto.
Qed.

Section Faithfulness.

Variable bad : Request -> bool.
Variable own : Error -> Prop.

Lemma Faithful_bind {A B} (m : Run A) (k : A -> Run B) :
  Faithful bad own m ->
  (forall a, fst m = Fulfilled a -> Faithful bad own (k a)) ->
  Faithful bad own (bind m k).
Proof.
  unfold Faithful. intros Hm Hk.
  rewrite bind_fst, bind_snd.
  destruct (fst m) as [a|e].
  - destruct Hm as [Hnone Hgood]. specialize (Hk a eq_refl).
    rewrite (first_failure_app_none _ _ Hnone).
    destruct (fst (k a)) as [b|e].
    + destruct Hk as [Hn Hg]. split; [assumption|].
      intros s r Hin. apply in_app_iff in Hin as [Hin|Hin]; eauto.
    + destruct Hk as [Hs|(Hn & Hg & Ho)]; [now left|right].
      split; [assumption|]. split; [|assumption].
      intros s r Hin. apply in_app_iff in Hin as [Hin|Hin]; eauto.
  - rewrite app_nil_r. assumption.
Qed.

Lemma Faithful_lift {A} (o : Outcome A) :
  (forall e, o = Rejected e -> own e) -> Faithful bad own (lift o).
Proof.
  unfold Faithful, lift. simpl. intros H.
  destruct o as [a|e]; [split; [reflexivity|contradiction]|].
  right. split; [reflexivity|]. split; [contradiction|auto].
Qed.

Lemma Faithful_ret {A} (a : A) : Faithful bad own (ret a).
Proof. unfold Faithful, ret. simpl. split; [reflexivity|contradiction]. Qed.

Lemma Faithful_await {A} s r (res : Outcome A) :
  bad r = is_rejected res -> Faithful bad own (await s r res).
Proof.
  unfold Faithful. destruct res as [a|e]; simpl; intros Hbad.
  - split; [reflexivity|].
    intros s' r' [H|[H|[]]]; [|discriminate]. now injection H as <- <-.
  - now left.
Qed.

Lemma Faithful_promise_all {A} completion (ps : list (Pending A)) :
  Forall (answers bad) ps -> Faithful bad own (promise_all completion ps).
Proof.
  intros Hps. unfold Faithful.
  rewrite promise_all_fst, promise_all_snd.
  rewrite (first_failure_app_none _ _ (first_failure_started ps)).
  rewrite settle_first_failure.
  destruct (fst (settle ps _)) as [e|] eqn:Hs; [now left|].
  destruct (settle_none_values _ _ Hs) as [vs Hvs]. rewrite Hvs.
  split; [reflexivity|].
  intros s r Hin. apply in_app_iff in Hin as [Hin|Hin];
    [|now apply settle_no_started in Hin].
  apply started_issued in Hin as [res Hres].
  rewrite Forall_forall in Hps. specialize (Hps _ Hres). simpl in Hps.
  rewrite Hps.
  apply mapM_fulfilled in Hvs.
  apply In_nth_error in Hres as [k Hk].
  destruct (Forall2_nth_l _ _ _ Hvs k _ Hk) as (v & _ & Hv).
  simpl in Hv. now rewrite Hv.
Qed.

End Faithfulness.

Lemma answers_map {A B} bad s (f : A -> Request) (g : A -> Outcome B) l :
  (forall x, bad (f x) = is_rejected (g x)) ->
  Forall (answers bad) (map (fun x => Issued s (f x) (g x)) l).
Proof.
  intros H. apply Forall_forall. intros p Hp.
  apply in_map_iff in Hp as (x & <- & _). apply H.
Qed.

Lemma Faithful_replicaLookups w argv own reps : forall i acc,
  Faithful (fails w argv) own (replicaLookups w i reps acc).
Proof.
  induction reps as [|names reps IH]; simpl; intros i acc.
  - apply Faithful_ret.
  - destruct (Nat.ltb 0 (List.length names)); [|apply IH].
    apply Faithful_bind; [|intros; apply IH].
    apply Faithful_promise_all. apply answers_map. reflexivity.
Qed.

Lemma Faithful_replicaSettingsFetches w argv own founds : forall i acc,
  Faithful (fails w argv) own (replicaSettingsFetches w i founds acc).
Proof.
  induction founds as [|found founds IH]; simpl; intros i acc.
  - apply Faithful_ret.
  - destruct (Nat.ltb 0 (List.length found)); [|apply IH].
    apply Faithful_bind; [|intros; apply IH].
    apply Faithful_promise_all. apply answers_map. reflexivity.
Qed.

(** ** The command's own errors *)

Lemma mapM_rejected {A B} (f : A -> Outcome B) l e :
  mapM f l = Rejected e -> exists x, In x l /\ f x = Rejected e.
Proof.
  induction l as [|x l IH]; simpl; intros H; [discriminate|].
  destruct (f x) as [y|e'] eqn:Hx; simpl in H.
  - destruct (mapM f l) as [ys|e'] eqn:Hl; simpl in H; [discriminate|].
    injection H as ->. destruct (IH eq_refl) as (x' & Hin & Hx').
    eauto.
  - injection H as ->. eauto.
Qed.

Lemma webhookRef_rejected rel type e :
  webhookRef rel type = Rejected e ->
  e = TypeError "Cannot read property 'href' of undefined".
Proof.
  unfold webhookRef.
  destruct (lookup_link rel _); intros H; [discriminate|].
  now injection H as <-.
Qed.

Lemma webhookRefs_rejected assigned e :
  webhookRefs assigned = Rejected e -> webhook_error e.
Proof.
  unfold webhookRefs. intros H.
  destruct (mapM webhookRefsOf assigned) as [refs|e'] eqn:Hm;
    simpl in H; [discriminate|].
  injection H as ->.
  apply mapM_rejected in Hm as (types & _ & Hx).
  left. unfold webhookRefsOf in Hx.
  destruct types as [|type rest]; simpl in Hx; [discriminate|].
  destruct (webhookRef activeRel type) as [a|e1] eqn:Ha; simpl in Hx.
  - destruct (webhookRef archivedRel type) as [b|e2] eqn:Hb;
      simpl in Hx; [discriminate|].
    injection Hx as <-. eapply webhookRef_rejected; eassumption.
  - injection Hx as <-. eapply webhookRef_rejected; eassumption.
Qed.

Lemma webhookPayloads_rejected hooks e :
  mapM webhookPayload hooks = Rejected e -> webhook_error e.
Proof.
  intros H. apply mapM_rejected in H as (x & _ & Hx).
  right. unfold webhookPayload in Hx.
  destruct x as [hook|]; [|discriminate].
  destruct (Webhook.customPayload hook); [discriminate|].
  now injection Hx as <-.
Qed.

Lemma mapMi_total {A B} (f : nat -> A -> Outcome B) : forall l j,
  (forall k x, nth_error l k = Some x ->
               exists y, f (j + k) x = Fulfilled y) ->
  exists ys, mapMi f j l = Fulfilled ys.
Proof.
  induction l as [|x l IH]; simpl; intros j H; [eauto|].
  destruct (H 0 x eq_refl) as [y Hy]. rewrite Nat.add_0_r in Hy.
  rewrite Hy. simpl.
  destruct (IH (S j)) as [ys ->].
  - intros k x' Hk. specialize (H (S k) x' Hk).
    now rewrite Nat.add_succ_r in H.
  - simpl. eauto.
Qed.

(** With the parallel arrays filled by the stages, the final `forEach`
    reads every slot in range and cannot throw. *)
Lemma buildEntries_total w idx settingsList assigned aPay bPay founds
    fetched :
  Forall2 (fun item s =>
             getIndexSettings w (IndexSummary.id item) = Fulfilled s)
          idx settingsList ->
  Forall2 (fun item ts =>
             getIndexAssignedContentTypes w (IndexSummary.id item)
             = Fulfilled ts)
          idx assigned ->
  Forall2 (fun names found =>
             Forall2 (fun n r => getIndexByName w n = Fulfilled r)
                     names found)
          (map replicasOf settingsList) founds ->
  Forall2 (fun found sts =>
             Forall2 (fun r st =>
                        getIndexSettings w (IndexSummary.id r)
                        = Fulfilled st)
                     found sts)
          founds fetched ->
  exists doc,
    buildEntries settingsList assigned aPay bPay
                 (map replicasOf settingsList) founds fetched 0 idx []
    = Fulfilled doc.
Proof.
  intros Hs Ha Hf Hft.
  set (reps := map replicasOf settingsList) in *.
  assert (Hat : forall k item, nth_error idx k = Some item ->
            exists e, indexEntry settingsList assigned aPay bPay reps
                                 founds fetched k item = Fulfilled e).
  { intros k item Hk.
    destruct (Forall2_nth_l _ _ _ Hs k item Hk) as (s & Hsk & _).
    destruct (Forall2_nth_l _ _ _ Ha k item Hk) as (types & Htk & _).
    assert (Hrep : nth_error reps k = Some (replicasOf s))
      by (now apply map_nth_error).
    destruct (Forall2_nth_l _ _ _ Hf k _ Hrep) as (found & Hfk & Hby).
    destruct (Forall2_nth_l _ _ _ Hft k _ Hfk) as (sts & Hsts & Hfs).
    unfold indexEntry. rewrite Hsts, Htk.
    destruct (mapMi_total (replicaEntry reps founds k) sts 0)
      as [rs ->].
    { intros j st Hj. simpl.
      destruct (Forall2_nth_r _ _ _ Hfs j st Hj) as (r & Hr & _).
      unfold replicaEntry. rewrite Hfk, Hr, Hrep. eauto. }
    simpl. destruct (Nat.ltb 0 (List.length types)); eauto. }
  clearbody reps.
  assert (G : forall items i acc,
            (forall k item, nth_error items k = Some item ->
                            nth_error idx (i + k) = Some item) ->
            exists doc,
              buildEntries settingsList assigned aPay bPay reps founds
                           fetched i items acc = Fulfilled doc).
  { induction items as [|item items IH]; simpl; intros i acc Hsub;
      [eauto|].
    assert (Hnext : forall k it, nth_error items k = Some it ->
                                 nth_error idx (S i + k) = Some it).
    { intros k it Hk. specialize (Hsub (S k) it Hk).
      now rewrite Nat.add_succ_r in Hsub. }
    destruct (negb (truthy_prop (IndexSummary.parentId item)));
      [|apply IH; assumption].
    destruct (Hat i item) as [e ->].
    { specialize (Hsub 0 item eq_refl). now rewrite Nat.add_0_r in Hsub. }
    simpl. apply IH; assumption. }
  apply G. intros k item Hk. exact Hk.
Qed.

Lemma answers_webhooks w argv s hub refs :
  hubs_get w (hubId argv) = Fulfilled hub ->
  Forall (answers (fails w argv)) (map (webhookPromise w s hub) refs).
Proof.
  intros Hhub. apply Forall_forall. intros p Hp.
  apply in_map_iff in Hp as (x & <- & _).
  unfold webhookPromise.
  destruct x as [| |ref]; simpl; auto.
  destruct (truthy_string ref); simpl; auto.
  rewrite Hhub. destruct (webhooks_get w hub ref); reflexivity.
Qed.

Lemma Faithful_indexEntries w argv hub idx :
  hubs_get w (hubId argv) = Fulfilled hub ->
  Faithful (fails w argv) webhook_error (indexEntries w hub idx).
Proof.
  intros Hhub. unfold indexEntries.
  apply Faithful_bind;
    [apply Faithful_promise_all, answers_map; reflexivity|].
  intros settingsList Hs.
  apply promise_all_fulfilled, Forall2_map_l in Hs.
  apply Faithful_bind;
    [apply Faithful_promise_all, answers_map; reflexivity|].
  intros assigned Ha.
  apply promise_all_fulfilled, Forall2_map_l in Ha.
  apply Faithful_bind; [apply Faithful_lift, webhookRefs_rejected|].
  intros refs _.
  apply Faithful_bind;
    [apply Faithful_promise_all, answers_webhooks; assumption|].
  intros aList _.
  apply Faithful_bind;
    [apply Faithful_promise_all, answers_webhooks; assumption|].
  intros bList _.
  apply Faithful_bind; [apply Faithful_lift, webhookPayloads_rejected|].
  intros aPay _.
  apply Faithful_bind; [apply Faithful_lift, webhookPayloads_rejected|].
  intros bPay _.
  apply Faithful_bind; [apply Faithful_replicaLookups|].
  intros founds Hf.
  apply replicaLookups_fulfilled in Hf as (founds' & -> & Hf).
  apply Faithful_bind; [apply Faithful_replicaSettingsFetches|].
  intros fetched Hft.
  apply replicaSettingsFetches_fulfilled in Hft as (fetched' & -> & Hft).
  simpl app. apply Faithful_lift. intros e He.
  destruct (buildEntries_total w idx settingsList assigned aPay bPay
              founds' fetched' Hs Ha Hf Hft) as [doc Hdoc].
  congruence.
Qed.

Lemma Faithful_own bad (own own' : Error -> Prop) {A} (m : Run A) :
  (forall e, own e -> own' e) -> Faithful bad own m -> Faithful bad own' m.
Proof.
  unfold Faithful. intros Hsub. destruct (fst m); [auto|].
  intros [H|(H1 & H2 & H3)]; [now left|right; auto].
Qed.

Lemma siteless_no_failure t :
  (forall ev, In ev t -> event_site ev = None) -> first_failure t = None.
Proof.
  induction t as [|ev t IH]; intros H; [reflexivity|].
  simpl. pose proof (H ev (or_introl eq_refl)) as Hev.
  destruct ev as [s r|s r x| | | |]; try discriminate;
    apply IH; intros ev' Hin; apply H; now right.
Qed.

(** `processIndexes` issues no fetch; it rejects only with the error of
    a write that fails. *)
Lemma Faithful_processIndexes bad w d hub final :
  Faithful bad (write_failure w) (processIndexes w d hub final).
Proof.
  unfold Faithful.
  assert (H : forall ev, In ev (snd (processIndexes w d hub final)) ->
                         event_site ev = None)
    by (intros ev; apply processIndexes_events).
  assert (Hnone : first_failure (snd (processIndexes w d hub final)) = None)
    by (now apply siteless_no_failure).
  assert (Hgood : forall s r,
            In (Started s r) (snd (processIndexes w d hub final)) ->
            bad r = false).
  { intros s r Hin. apply H in Hin. discriminate. }
  rewrite processIndexes_fst. cbv zeta.
  destruct (file_exists w (uniqueFilename d hub) &&
            negb (overwrite_confirmed w (uniqueFilename d hub)));
    [auto|].
  destruct (write_error w (uniqueFilename d hub) final) as [e|] eqn:He;
    [|auto].
  right. repeat split; auto. unfold write_failure. eauto.
Qed.

(** A whole run reflects the rejections of its fetches. *)
Lemma Faithful_handler w argv :
  Faithful (fails w argv)
    (fun e => webhook_error e \/ write_failure w e) (handler w argv).
Proof.
  unfold handler.
  apply Faithful_bind; [apply Faithful_await; reflexivity|].
  intros hub Hhub. rewrite await_fst in Hhub.
  apply Faithful_bind; [apply Faithful_await; reflexivity|].
  intros _ _.
  apply Faithful_bind; [apply Faithful_await; reflexivity|].
  intros idx _.
  apply Faithful_bind.
  - apply (Faithful_own _ webhook_error); [auto|].
    destruct (Nat.ltb 0 (List.length idx)).
    + now apply Faithful_indexEntries.
    + apply Faithful_ret.
  - intros final _.
    apply (Faithful_own _ (write_failure w)); [auto|].
    apply Faithful_processIndexes.
Qed.

(** C3: when a fetch the run has issued is rejected by the remote, the
    run rejects, with the first rejection it observed, and no file is
    written.  This covers the hub, listing, settings, assignment,
    webhook and replica fetches alike. *)
Theorem rejected_fetch_rejects_export w argv s r :
  In (Started s r) (snd (handler w argv)) ->
  fails w argv r = true ->
  exists e,
    fst (handler w argv) = Rejected e /\
    first_failure (snd (handler w argv)) = Some e /\
    forall f doc, ~ In (Written f doc) (snd (handler w argv)).
Proof.
  intros Hin Hbad.
  pose proof (Faithful_handler w argv) as HF. unfold Faithful in HF.
  destruct (fst (handler w argv)) as [u|e] eqn:Hfst.
  - destruct HF as [_ Hgood]. rewrite (Hgood s r Hin) in Hbad.
    discriminate.
  - exists e. split; [reflexivity|].
    destruct HF as [HF|(_ & Hgood & _)].
    + split; [assumption|].
      intros f doc Hw. apply handler_written in Hw as (_ & _ & _ & _ & _ & _ & H).
      congruence.
    + rewrite (Hgood s r Hin) in Hbad. discriminate.
Qed.

Lemma rejected_fetch_rejects_export_witness :
  exists e,
    fst (handler Sample.replicaMissing Sample.argv) = Rejected e /\
    first_failure (snd (handler Sample.replicaMissing Sample.argv))
    = Some e /\
    forall f doc,
      ~ In (Written f doc) (snd (handler Sample.replicaMissing Sample.argv)).
Proof.
  apply (rejected_fetch_rejects_export Sample.replicaMissing Sample.argv
           (SReplicaByName 0) (GetIndexByName "MainReplica")).
  - in_trace.
  - reflexivity.
Defined.

(** ** Order of the replica fetches *)

Lemma phases_app t1 t2 : phases (t1 ++ t2) = phases t1 ++ phases t2.
Proof. apply flat_map_app. Qed.

Lemma in_phases p t :
  In p (phases t) <-> exists ev, In ev t /\ replica_phase ev = Some p.
Proof.
  unfold phases. rewrite in_flat_map. split.
  - intros (ev & Hin & Hp). exists ev. split; [assumption|].
    destruct (replica_phase ev) as [q|]; simpl in Hp; [|contradiction].
    destruct Hp as [->|[]]. reflexivity.
  - intros (ev & Hin & Hp). exists ev. split; [assumption|].
    rewrite Hp. now left.
Qed.

Lemma phases_nil t :
  (forall ev, In ev t -> replica_phase ev = None) -> phases t = [].
Proof.
  intros H. destruct (phases t) as [|p l] eqn:E; [reflexivity|].
  assert (Hin : In p (phases t)) by (rewrite E; now left).
  apply in_phases in Hin as (ev & Hev & Hp).
  rewrite (H ev Hev) in Hp. discriminate.
Qed.

Lemma phases_plain t : AtSites plain_site t -> phases t = [].
Proof.
  intros H. apply phases_nil. intros ev Hin.
  unfold AtSites in H. rewrite Forall_forall in H.
  destruct (H ev Hin) as (s & Hs & Hp).
  unfold replica_phase. rewrite Hs.
  destruct s; simpl in Hp; try reflexivity; contradiction.
Qed.

Lemma phases_siteless t :
  (forall ev, In ev t -> event_site ev = None) -> phases t = [].
Proof.
  intros H. apply phases_nil. intros ev Hin.
  unfold replica_phase. now rewrite (H ev Hin).
Qed.

Lemma StronglySorted_app {A} (R : A -> A -> Prop) l1 l2 :
  StronglySorted R l1 -> StronglySorted R l2 ->
  (forall x y, In x l1 -> In y l2 -> R x y) ->
  StronglySorted R (l1 ++ l2).
Proof.
  induction 1 as [|a l1 Hs IH Hall]; simpl; intros H2 Hx; [assumption|].
  constructor.
  - apply IH; [assumption|]. intros x y Hin. apply Hx. now right.
  - apply Forall_app. split; [assumption|].
    apply Forall_forall. intros y Hy. apply Hx; [now left|assumption].
Qed.

Lemma StronglySorted_const {A} (R : A -> A -> Prop) a l :
  R a a -> (forall x, In x l -> x = a) -> StronglySorted R l.
Proof.
  intros Ha. induction l as [|x l IH]; intros H; constructor.
  - apply IH. intros y Hy. apply H. now right.
  - rewrite (H x (or_introl eq_refl)).
    apply Forall_forall. intros y Hy.
    rewrite (H y (or_intror Hy)). exact Ha.
Qed.

Lemma phase_le_refl p : phase_le p p.
Proof. right. split; [reflexivity|apply Nat.le_refl]. Qed.

Lemma promise_all_phases {A} s completion (ps : list (Pending A)) p q :
  Forall (issued_at s) ps ->
  replica_phase (Started s GetIdexesDetailsList) = Some q ->
  In p (phases (snd (promise_all completion ps))) -> p = q.
Proof.
  intros Hps Hq Hin. apply in_phases in Hin as (ev & Hev & Hp).
  apply (promise_all_site s completion ps Hps) in Hev.
  unfold replica_phase in *. rewrite Hev in Hp. simpl in Hq. congruence.
Qed.

Lemma replicaLookups_phases w reps i acc p :
  In p (phases (snd (replicaLookups w i reps acc))) ->
  fst p = 0 /\ i <= snd p.
Proof.
  intros Hin. apply in_phases in Hin as (ev & Hev & Hp).
  apply replicaLookups_events in Hev as (j & ns & _ & _ & Hs).
  unfold replica_phase in Hp. rewrite Hs in Hp. injection Hp as <-.
  simpl. split; [reflexivity|lia].
Qed.

Lemma replicaSettingsFetches_phases w founds i acc p :
  In p (phases (snd (replicaSettingsFetches w i founds acc))) ->
  fst p = 1 /\ i <= snd p.
Proof.
  intros Hin. apply in_phases in Hin as (ev & Hev & Hp).
  apply replicaSettingsFetches_events in Hev as (j & ns & _ & _ & Hs).
  unfold replica_phase in Hp. rewrite Hs in Hp. injection Hp as <-.
  simpl. split; [reflexivity|lia].
Qed.

Lemma replicaLookups_sorted w reps : forall i acc,
  StronglySorted phase_le (phases (snd (replicaLookups w i reps acc))).
Proof.
  induction reps as [|names reps IH]; simpl; intros i acc; [constructor|].
  destruct (Nat.ltb 0 (List.length names)); [|apply IH].
  rewrite bind_snd, phases_app.
  set (batch := promise_all _ _).
  assert (Hb : forall p, In p (phases (snd batch)) -> p = (0, i)).
  { intros p. apply (promise_all_phases (SReplicaByName i));
      [apply issued_map|reflexivity]. }
  apply StronglySorted_app.
  - apply (StronglySorted_const _ (0, i)); [apply phase_le_refl|exact Hb].
  - destruct (fst batch); [apply IH|constructor].
  - intros x y Hx Hy. rewrite (Hb x Hx).
    destruct (fst batch); [|contradiction].
    apply replicaLookups_phases in Hy as [Hy1 Hy2].
    right. simpl. split; [congruence|lia].
Qed.

Lemma replicaSettingsFetches_sorted w founds : forall i acc,
  StronglySorted phase_le
    (phases (snd (replicaSettingsFetches w i founds acc))).
Proof.
  induction founds as [|found founds IH]; simpl; intros i acc;
    [constructor|].
  destruct (Nat.ltb 0 (List.length found)); [|apply IH].
  rewrite bind_snd, phases_app.
  set (batch := promise_all _ _).
  assert (Hb : forall p, In p (phases (snd batch)) -> p = (1, i)).
  { intros p. apply (promise_all_phases (SReplicaSettings i));
      [apply issued_map|reflexivity]. }
  apply StronglySorted_app.
  - apply (StronglySorted_const _ (1, i)); [apply phase_le_refl|exact Hb].
  - destruct (fst batch); [apply IH|constructor].
  - intros x y Hx Hy. rewrite (Hb x Hx).
    destruct (fst batch); [|contradiction].
    apply replicaSettingsFetches_phases in Hy as [Hy1 Hy2].
    right. simpl. split; [congruence|lia].
Qed.

(** The replica-related events of a run come pass by pass and, within a
    pass, index by index. *)
Lemma handler_phases_sorted w argv :
  StronglySorted phase_le (phases (snd (handler w argv))).
Proof.
  destruct (handler_anatomy w argv)
    as (pre & L & S & post & -> & Hpre & Hpost & HL & HS).
  rewrite !phases_app, (phases_plain _ Hpre), (phases_siteless _ Hpost).
  rewrite app_nil_r. simpl.
  apply StronglySorted_app.
  - destruct HL as [->|(idx & sl & _ & _ & ->)]; [constructor|].
    apply replicaLookups_sorted.
  - destruct HS as [->|(idx & sl & fo & _ & _ & _ & ->)]; [constructor|].
    apply replicaSettingsFetches_sorted.
  - intros x y Hx Hy.
    destruct HL as [->|(idx & sl & _ & _ & ->)]; [contradiction|].
    destruct HS as [->|(idx' & sl' & fo & _ & _ & _ & ->)];
      [contradiction|].
    apply replicaLookups_phases in Hx as [Hx _].
    apply replicaSettingsFetches_phases in Hy as [Hy _].
    left. lia.
Qed.

Lemma settle_emits {A} (ps : list (Pending A)) order k s r res :
  fst (settle ps order) = None -> In k order ->
  nth_error ps k = Some (Issued s r res) ->
  In (Settled s r None) (snd (settle ps order)).
Proof.
  induction order as [|x order IH]; simpl; intros Hnone Hin Hk;
    [contradiction|].
  destruct (nth_error ps x) as [[s' r' [a|e]|a]|] eqn:Hx.
  - destruct (settle ps order) as [o t] eqn:Hs. simpl in *.
    destruct Hin as [->|Hin].
    + rewrite Hx in Hk. injection Hk as -> -> _. now left.
    + right. auto.
  - discriminate.
  - destruct Hin as [->|Hin]; [congruence|auto].
  - destruct Hin as [->|Hin]; [congruence|auto].
Qed.

(** In a batch that is fulfilled every fetch issued has settled. *)
Lemma promise_all_settles {A} completion (ps : list (Pending A)) vs s r :
  fst (promise_all completion ps) = Fulfilled vs ->
  In (Started s r) (snd (promise_all completion ps)) ->
  In (Settled s r None) (snd (promise_all completion ps)).
Proof.
  rewrite promise_all_fst, promise_all_snd. intros Hfst Hin.
  destruct (fst (settle ps _)) as [e|] eqn:Hs; [discriminate|].
  apply in_app_iff in Hin as [Hin|Hin];
    [|now apply settle_no_started in Hin].
  apply started_issued in Hin as [res Hres].
  apply In_nth_error in Hres as [k Hk].
  apply in_or_app. right.
  apply (settle_emits ps _ k s r res Hs); [|assumption].
  apply settle_order_complete. apply nth_error_Some. congruence.
Qed.

Lemma replicaLookups_completes w reps : forall i acc i' j r ev,
  In (Started (SReplicaByName i') r) (snd (replicaLookups w i reps acc)) ->
  In ev (snd (replicaLookups w i reps acc)) ->
  replica_phase ev = Some (0, j) -> i' < j ->
  In (Settled (SReplicaByName i') r None)
     (snd (replicaLookups w i reps acc)).
Proof.
  induction reps as [|names reps IH]; simpl; intros i acc i' j r ev;
    [contradiction|].
  destruct (Nat.ltb 0 (List.length names)); [|apply IH].
  set (batch := promise_all _ _).
  assert (Hsite : forall x, In x (snd batch) ->
                            event_site x = Some (SReplicaByName i))
    by (apply promise_all_site, issued_map).
  rewrite !in_bind. intros [Hst|(vs & Hvs & Hst)] Hev Hp Hlt.
  - apply Hsite in Hst as Hi. simpl in Hi. injection Hi as ->.
    destruct Hev as [Hev|(vs & Hvs & Hev)].
    + apply Hsite in Hev. unfold replica_phase in Hp.
      rewrite Hev in Hp. injection Hp as <-. lia.
    + left. eapply promise_all_settles; eassumption.
  - apply replicaLookups_events in Hst as Hi.
    destruct Hi as (k & ns & _ & _ & Hi). simpl in Hi. injection Hi as ->.
    destruct Hev as [Hev|(vs' & Hvs' & Hev)].
    + apply Hsite in Hev. unfold replica_phase in Hp.
      rewrite Hev in Hp. injection Hp as <-. lia.
    + right. exists vs. split; [assumption|].
      rewrite Hvs in Hvs'. injection Hvs' as <-.
      eapply IH; eassumption.
Qed.

Lemma replicaSettingsFetches_completes w founds : forall i acc i' j r ev,
  In (Started (SReplicaSettings i') r)
     (snd (replicaSettingsFetches w i founds acc)) ->
  In ev (snd (replicaSettingsFetches w i founds acc)) ->
  replica_phase ev = Some (1, j) -> i' < j ->
  In (Settled (SReplicaSettings i') r None)
     (snd (replicaSettingsFetches w i founds acc)).
Proof.
  induction founds as [|found founds IH]; simpl; intros i acc i' j r ev;
    [contradiction|].
  destruct (Nat.ltb 0 (List.length found)); [|apply IH].
  set (batch := promise_all _ _).
  assert (Hsite : forall x, In x (snd batch) ->
                            event_site x = Some (SReplicaSettings i))
    by (apply promise_all_site, issued_map).
  rewrite !in_bind. intros [Hst|(vs & Hvs & Hst)] Hev Hp Hlt.
  - apply Hsite in Hst as Hi. simpl in Hi. injection Hi as ->.
    destruct Hev as [Hev|(vs & Hvs & Hev)].
    + apply Hsite in Hev. unfold replica_phase in Hp.
      rewrite Hev in Hp. injection Hp as <-. lia.
    + left. eapply promise_all_settles; eassumption.
  - apply replicaSettingsFetches_events in Hst as Hi.
    destruct Hi as (k & ns & _ & _ & Hi). simpl in Hi. injection Hi as ->.
    destruct Hev as [Hev|(vs' & Hvs' & Hev)].
    + apply Hsite in Hev. unfold replica_phase in Hp.
      rewrite Hev in Hp. injection Hp as <-. lia.
    + right. exists vs. split; [assumption|].
      rewrite Hvs in Hvs'. injection Hvs' as <-.
      eapply IH; eassumption.
Qed.

(** Where the events of each replica pass sit in the trace of a run. *)
Lemma handler_pass_events w argv :
  exists L S,
    (forall ev, In ev L -> In ev (snd (handler w argv))) /\
    (forall ev, In ev S -> In ev (snd (handler w argv))) /\
    (forall ev k, In ev (snd (handler w argv)) ->
                  replica_phase ev = Some (0, k) -> In ev L) /\
    (forall ev k, In ev (snd (handler w argv)) ->
                  replica_phase ev = Some (1, k) -> In ev S) /\
    (L = [] \/ exists reps, L = snd (replicaLookups w 0 reps [])) /\
    (S = [] \/ exists founds, S = snd (replicaSettingsFetches w 0 founds [])).
Proof.
  destruct (handler_anatomy w argv)
    as (pre & L & S & post & Heq & Hpre & Hpost & HL & HS).
  exists L, S. rewrite Heq.
  assert (Hno_pre : forall ev, In ev pre -> replica_phase ev = None).
  { intros ev Hin. unfold AtSites in Hpre. rewrite Forall_forall in Hpre.
    destruct (Hpre ev Hin) as (s & Hs & Hp).
    unfold replica_phase. rewrite Hs.
    destruct s; simpl in Hp; try reflexivity; contradiction. }
  assert (Hno_post : forall ev, In ev post -> replica_phase ev = None).
  { intros ev Hin. unfold replica_phase. now rewrite (Hpost ev Hin). }
  assert (HLp : forall ev p, In ev L -> replica_phase ev = Some p ->
                             fst p = 0).
  { intros ev p Hin Hp.
    destruct HL as [->|(idx & sl & _ & _ & ->)]; [contradiction|].
    assert (Hph : In p (phases (snd (replicaLookups w 0
                                      (map replicasOf sl) []))))
      by (apply in_phases; eauto).
    now apply replicaLookups_phases in Hph. }
  assert (HSp : forall ev p, In ev S -> replica_phase ev = Some p ->
                             fst p = 1).
  { intros ev p Hin Hp.
    destruct HS as [->|(idx & sl & fo & _ & _ & _ & ->)]; [contradiction|].
    assert (Hph : In p (phases (snd (replicaSettingsFetches w 0 fo []))))
      by (apply in_phases; eauto).
    now apply replicaSettingsFetches_phases in Hph. }
  repeat split.
  - intros ev Hin. rewrite !in_app_iff. auto.
  - intros ev Hin. rewrite !in_app_iff. auto.
  - intros ev k Hin Hp. rewrite !in_app_iff in Hin.
    destruct Hin as [Hin|[Hin|[Hin|Hin]]]; [|assumption| |].
    + rewrite (Hno_pre ev Hin) in Hp. discriminate.
    + specialize (HSp ev _ Hin Hp). discriminate.
    + rewrite (Hno_post ev Hin) in Hp. discriminate.
  - intros ev k Hin Hp. rewrite !in_app_iff in Hin.
    destruct Hin as [Hin|[Hin|[Hin|Hin]]]; [| |assumption|].
    + rewrite (Hno_pre ev Hin) in Hp. discriminate.
    + specialize (HLp ev _ Hin Hp). discriminate.
    + rewrite (Hno_post ev Hin) in Hp. discriminate.
  - destruct HL as [->|(idx & sl & _ & _ & ->)]; [now left|right; eauto].
  - destruct HS as [->|(idx & sl & fo & _ & _ & _ & ->)];
      [now left|right; eauto].
Qed.

(** C7 (amended): replica expansion runs in two passes over the indexes,
    the by-name lookups of all indexes first and the replica-settings
    fetches after them.  The replica events of a run are ordered by pass
    and, within a pass, by index; and once any event of index [j] of a
    pass has happened, every fetch that the pass started for an earlier
    index [i] has settled. *)
Theorem replica_passes_one_index_at_a_time w argv :
  StronglySorted phase_le (phases (snd (handler w argv))) /\
  forall pass i j r ev,
    i < j ->
    In (Started (replica_site pass i) r) (snd (handler w argv)) ->
    In ev (snd (handler w argv)) ->
    replica_phase ev = Some (pass, j) ->
    In (Settled (replica_site pass i) r None) (snd (handler w argv)).
Proof.
  split; [apply handler_phases_sorted|].
  intros pass i j r ev Hlt Hst Hev Hp.
  destruct (handler_pass_events w argv)
    as (L & S & HLin & HSin & HL0 & HS1 & HL & HS).
  destruct pass as [|pass]; cbn [replica_site] in *.
  - apply HLin.
    assert (HstL : In (Started (SReplicaByName i) r) L)
      by (apply (HL0 _ i); [assumption|reflexivity]).
    assert (HevL : In ev L) by (apply (HL0 _ j); assumption).
    destruct HL as [->|(reps & ->)]; [contradiction|].
    apply (replicaLookups_completes w reps 0 [] i j r ev); assumption.
  - assert (pass = 0).
    { unfold replica_phase in Hp.
      destruct (event_site ev) as [[]|]; try discriminate.
      now injection Hp as <- _. }
    subst pass. apply HSin.
    assert (HstS : In (Started (SReplicaSettings i) r) S)
      by (apply (HS1 _ i); [assumption|reflexivity]).
    assert (HevS : In ev S) by (apply (HS1 _ j); assumption).
    destruct HS as [->|(founds & ->)]; [contradiction|].
    apply (replicaSettingsFetches_completes w founds 0 [] i j r ev);
      assumption.
Qed.

Lemma replica_passes_one_index_at_a_time_witness :
  In (Settled (replica_site 0 0) (GetIndexByName "r1") None)
     (snd (handler Sample.twoParents Sample.argv)).
Proof.
  apply (proj2 (replica_passes_one_index_at_a_time Sample.twoParents
                  Sample.argv)
           0 0 1 (GetIndexByName "r1")
           (Started (SReplicaByName 1) (GetIndexByName "r3"))).
  - lia.
  - in_trace.
  - in_trace.
  - reflexivity.
Defined.

(** C7 as stated fails: with two indexes of one replica each, the
    by-name lookup of the second index has begun and ended before the
    replica-settings fetch of the first index begins, so the replica
    fetches of the first index are not over when those of the second
    begin. *)
Lemma second_index_starts_before_first_is_done :
  nth_error (snd (handler Sample.twoParents Sample.argv)) 16
  = Some (Started (SReplicaByName 1) (GetIndexByName "r3")) /\
  nth_error (snd (handler Sample.twoParents Sample.argv)) 18
  = Some (Started (SReplicaSettings 0) (GetIndexSettings "id-r1")) /\
  nth_error (snd (handler Sample.twoParents Sample.argv)) 19
  = Some (Settled (SReplicaSettings 0) (GetIndexSettings "id-r1") None) /\
  owners (snd (handler Sample.twoParents Sample.argv))
  = [0; 0; 1; 1; 0; 0; 1; 1].
Proof. repeat split. Qed.

(** ** The export gate *)

(** A run either rejects while fetching, or reaches `processIndexes`
    with everything fetched. *)
Lemma handler_tail w argv :
  (exists e,
     fst (handler w argv) = Rejected e /\
     forall ev, In ev (snd (handler w argv)) -> event_site ev <> None) \/
  (exists hub idx final pre,
     hubs_get w (hubId argv) = Fulfilled hub /\
     getIdexesDetailsList w = Fulfilled idx /\
     fst (if Nat.ltb 0 (List.length idx)
          then indexEntries w hub idx else ret []) = Fulfilled final /\
     snd (handler w argv)
     = pre ++ snd (processIndexes w (dir argv) hub final) /\
     (forall ev, In ev pre -> event_site ev <> None) /\
     fst (handler w argv) = fst (processIndexes w (dir argv) hub final)).
Proof.
  assert (Hsite : forall A s r (res : Outcome A) ev,
            In ev (snd (await s r res)) -> event_site ev <> None).
  { intros A s r res ev Hin. apply await_site in Hin. congruence. }
  unfold handler.
  set (a1 := await SHub _ _). set (a2 := await SInit _ _).
  set (a3 := await SList _ _).
  rewrite bind_fst, bind_snd.
  destruct (fst a1) as [hub|e1] eqn:E1.
  2:{ left. exists e1. split; [reflexivity|].
      rewrite app_nil_r. apply Hsite. }
  unfold a1 in E1. rewrite await_fst in E1.
  rewrite bind_fst, bind_snd.
  destruct (fst a2) as [u|e2].
  2:{ left. exists e2. split; [reflexivity|]. rewrite app_nil_r.
      intros ev Hin. apply in_app_iff in Hin as [Hin|Hin];
        eapply Hsite; eassumption. }
  rewrite bind_fst, bind_snd.
  destruct (fst a3) as [idx|e3] eqn:E3.
  2:{ left. exists e3. split; [reflexivity|]. rewrite app_nil_r.
      intros ev Hin. rewrite !in_app_iff in Hin.
      destruct Hin as [Hin|[Hin|Hin]]; eapply Hsite; eassumption. }
  unfold a3 in E3. rewrite await_fst in E3.
  rewrite bind_fst, bind_snd.
  set (body := if Nat.ltb 0 (List.length idx)
               then indexEntries w hub idx else ret []).
  assert (Hbody : forall ev, In ev (snd body) -> event_site ev <> None).
  { unfold body. destruct (Nat.ltb 0 (List.length idx)).
    - apply indexEntries_sites.
    - contradiction. }
  assert (Hpre : forall ev, In ev (snd a1 ++ snd a2 ++ snd a3 ++ snd body) ->
                            event_site ev <> None).
  { intros ev Hin. rewrite !in_app_iff in Hin.
    destruct Hin as [Hin|[Hin|[Hin|Hin]]];
      [eapply Hsite; eassumption ..|now apply Hbody]. }
  destruct (fst body) as [final|e4] eqn:E4.
  - right.
    exists hub, idx, final, (snd a1 ++ snd a2 ++ snd a3 ++ snd body).
    split; [assumption|]. split; [assumption|]. split; [exact E4|].
    split; [now rewrite <- !app_assoc|].
    split; [assumption|reflexivity].
  - left. exists e4. split; [reflexivity|]. now rewrite app_nil_r.
Qed.

Lemma processIndexes_declined w d hub final f :
  In (Prompted f false) (snd (processIndexes w d hub final)) ->
  f = uniqueFilename d hub /\
  file_exists w f = true /\
  overwrite_confirmed w f = false /\
  processIndexes w d hub final
  = (Fulfilled tt, [Prompted f false; NothingExported]).
Proof.
  rewrite processIndexes_cases. cbv zeta.
  destruct (file_exists w (uniqueFilename d hub)) eqn:Hex;
    destruct (overwrite_confirmed w (uniqueFilename d hub)) eqn:Hans;
    destruct (write_error w (uniqueFilename d hub) final);
    simpl; intros H;
    repeat (destruct H as [Heq|H];
            [try discriminate; injection Heq as <-;
             rewrite Hex, Hans; auto|]);
    contradiction.
Qed.

(** C8: when the export file is already there and the user declines to
    overwrite it, the run writes no file and ends normally: it is
    fulfilled, with the notice that nothing was exported, and its exit
    status is zero. *)
Theorem declined_overwrite_exports_nothing w argv f :
  In (Prompted f false) (snd (handler w argv)) ->
  file_exists w f = true /\
  overwrite_confirmed w f = false /\
  fst (handler w argv) = Fulfilled tt /\
  exit_status (fst (handler w argv)) = 0%Z /\
  In NothingExported (snd (handler w argv)) /\
  forall f' doc, ~ In (Written f' doc) (snd (handler w argv)).
Proof.
  intros Hin.
  destruct (handler_tail w argv)
    as [(e & _ & Hsites)|
        (hub & idx & final & pre & _ & _ & _ & Heq & Hpre & Hfst)].
  - apply Hsites in Hin. contradiction.
  - rewrite Heq in Hin |- *. rewrite Hfst.
    apply in_app_iff in Hin as [Hin|Hin];
      [apply Hpre in Hin; contradiction|].
    apply processIndexes_declined in Hin as (-> & Hex & Hans & Hrun).
    rewrite Hrun. simpl snd.
    repeat split; try assumption.
    + apply in_or_app. right. simpl. auto.
    + intros f' doc Hw. apply in_app_iff in Hw as [Hw|Hw].
      * apply Hpre in Hw. contradiction.
      * simpl in Hw. destruct Hw as [H|[H|[]]]; discriminate.
Qed.

Lemma declined_overwrite_exports_nothing_witness :
  file_exists Sample.declined "out/indexes-h1-Acme.json" = true /\
  overwrite_confirmed Sample.declined "out/indexes-h1-Acme.json" = false /\
  fst (handler Sample.declined Sample.argv) = Fulfilled tt /\
  exit_status (fst (handler Sample.declined Sample.argv)) = 0%Z /\
  In NothingExported (snd (handler Sample.declined Sample.argv)) /\
  forall f' doc,
    ~ In (Written f' doc) (snd (handler Sample.declined Sample.argv)).
Proof.
  apply (declined_overwrite_exports_nothing Sample.declined Sample.argv
           "out/indexes-h1-Acme.json").
  in_trace.
Defined.

(** ** The export path *)

#[local] Arguments Ascii.eqb : simpl never.

Lemma basename_loop_stable ext : forall r i st,
  noSlash r ->
  Path.extIdx st = (-1)%Z -> Path.firstNonSlashEnd st <> (-1)%Z ->
  Path.broke st = false ->
  Path.basename_loop ext r i st = st.
Proof.
  induction r as [|c r IH]; simpl; intros i st Hr He Hf Hb; [reflexivity|].
  inversion Hr as [|c' r' Hc Hr']; subst.
  unfold Path.basename_step. rewrite Hc.
  destruct (Z.eqb_spec (Path.firstNonSlashEnd st) (-1)); [contradiction|].
  rewrite He. simpl. rewrite Hb. now apply IH.
Qed.

Lemma matches_back_cons ext k c r :
  matches_back ext k (c :: r) =
  match String.get k ext with
  | Some x =>
      Ascii.eqb c x &&
      match k with
      | 0 => true
      | S k' => matches_back ext k' r
      end
  | None => false
  end.
Proof. destruct k; reflexivity. Qed.

(** While the scan has met no separator and the extension does not
    match, it keeps the whole path. *)
Lemma basename_loop_keeps ext : forall r i k ms f,
  noSlash r ->
  matches_back ext k r = false ->
  (f <> (-1)%Z \/ (0 <= i)%Z) ->
  let st := Path.basename_loop ext r i
              (Path.mkBase 0 (-1) ms (Z.of_nat k) f false) in
  Path.b_start st = 0%Z /\
  (Path.b_end st = (if (f =? -1)%Z then (i + 1)%Z else f) \/
   Path.b_end st = (-1)%Z).
Proof.
  induction r as [|c r IH]; intros i k ms f Hr Hm Hf; [simpl; auto|].
  inversion Hr as [|c' r' Hc Hr']; subst.
  set (e0 := if (f =? -1)%Z then (i + 1)%Z else f).
  assert (He0 : e0 <> (-1)%Z).
  { unfold e0. destruct (Z.eqb_spec f (-1)); [|assumption].
    destruct Hf as [Hf|Hf]; [contradiction|lia]. }
  rewrite matches_back_cons in Hm.
  cbn [Path.basename_loop].
  unfold Path.basename_step. rewrite Hc.
  cbn [Path.firstNonSlashEnd Path.extIdx Path.b_start Path.b_end
       Path.matchedSlash Path.broke].
  assert (Hst1 :
    (if (f =? -1)%Z
     then Path.mkBase 0 (-1) false (Z.of_nat k) (i + 1) false
     else Path.mkBase 0 (-1) ms (Z.of_nat k) f false)
    = Path.mkBase 0 (-1) (if (f =? -1)%Z then false else ms)
                  (Z.of_nat k) e0 false).
  { unfold e0. destruct (f =? -1)%Z; reflexivity. }
  rewrite Hst1.
  cbn [Path.firstNonSlashEnd Path.extIdx Path.b_start Path.b_end
       Path.matchedSlash Path.broke].
  assert (Hk : (0 <=? Z.of_nat k)%Z = true) by (apply Z.leb_le; lia).
  rewrite Hk, Nat2Z.id.
  destruct (String.get k ext) as [x|] eqn:Hx.
  - destruct (Ascii.eqb c x) eqn:Hcx; simpl in Hm.
    + destruct k as [|k'].
      * discriminate.
      * assert (Hk' : (Z.of_nat (S k') - 1 =? -1)%Z = false)
          by (apply Z.eqb_neq; lia).
        rewrite Hk'. cbn [Path.broke].
        replace (Z.of_nat (S k') - 1)%Z with (Z.of_nat k') by lia.
        specialize (IH (i - 1)%Z k' (if (f =? -1)%Z then false else ms)
                       e0 Hr' Hm (or_introl He0)).
        destruct (Z.eqb_spec e0 (-1)); [contradiction|]. exact IH.
    + cbn [Path.broke].
      rewrite basename_loop_stable; simpl; auto.
  - cbn [Path.broke].
    rewrite basename_loop_stable; simpl; auto.
Qed.

Lemma chars_app (a b : string) :
  list_ascii_of_string (a ++ b)%string
  = list_ascii_of_string a ++ list_ascii_of_string b.
Proof. induction a as [|c a IH]; simpl; [reflexivity|now rewrite IH]. Qed.

Lemma rchars_app (a b : string) :
  Str.rchars (a ++ b)%string = Str.rchars b ++ Str.rchars a.
Proof. unfold Str.rchars. now rewrite chars_app, rev_app_distr. Qed.

Lemma length_app (a b : string) :
  String.length (a ++ b)%string = String.length a + String.length b.
Proof. induction a as [|c a IH]; simpl; [reflexivity|now rewrite IH]. Qed.

Lemma substring_whole s : substring 0 (String.length s) s = s.
Proof. induction s as [|c s IH]; simpl; [reflexivity|now rewrite IH]. Qed.

Lemma substring_prefix (a b : string) :
  substring 0 (String.length a) (a ++ b)%string = a.
Proof.
  induction a as [|c a IH]; simpl.
  - destruct b; reflexivity.
  - now rewrite IH.
Qed.

Lemma substring_skip (a b : string) n :
  substring (String.length a) n (a ++ b)%string = substring 0 n b.
Proof. induction a as [|c a IH]; simpl; [reflexivity|exact IH]. Qed.

Lemma clamp_zero len : (0 <= len)%Z -> Str.clamp len 0 = 0%Z.
Proof. intros H. unfold Str.clamp. simpl. lia. Qed.

Lemma clamp_len len : (0 <= len)%Z -> Str.clamp len len = len.
Proof.
  intros H. unfold Str.clamp.
  destruct (Z.ltb_spec len 0); lia.
Qed.

Lemma slice_whole s : Str.slice s 0 (Z.of_nat (String.length s)) = s.
Proof.
  unfold Str.slice. cbv zeta.
  rewrite clamp_zero, clamp_len by lia.
  rewrite Z.sub_0_r, Z.max_l by lia.
  rewrite Nat2Z.id. apply substring_whole.
Qed.

Lemma contains_noSlash s :
  Str.contains Path.slash s = false -> noSlash (Str.rchars s).
Proof.
  intros H. unfold noSlash, Str.rchars. apply Forall_rev.
  induction s as [|c s IH]; simpl in *; [constructor|].
  apply orb_false_iff in H as [Hc Hs]. constructor; auto.
Qed.

Lemma noSlash_app r1 r2 : noSlash r1 -> noSlash r2 -> noSlash (r1 ++ r2).
Proof. unfold noSlash. intros. apply Forall_app. auto. Qed.

Lemma prefixb_beyond pat : forall a c b,
  existsb (Ascii.eqb c) pat = false ->
  prefixb pat (a ++ c :: b) = prefixb pat a.
Proof.
  induction pat as [|x pat IH]; intros a c b Hc; [reflexivity|].
  simpl in Hc. apply orb_false_iff in Hc as [Hx Hpat].
  destruct a as [|y a]; simpl.
  - rewrite Ascii.eqb_sym, Hx. reflexivity.
  - now rewrite IH.
Qed.

Lemma matches_back_json r :
  matches_back ".json" 4 r = prefixb (Str.rchars ".json") r.
Proof.
  unfold Str.rchars. simpl rev.
  destruct r as [|c1 [|c2 [|c3 [|c4 [|c5 r]]]]]; simpl;
    rewrite ?(Ascii.eqb_sym c1), ?(Ascii.eqb_sym c2), ?(Ascii.eqb_sym c3),
      ?(Ascii.eqb_sym c4), ?(Ascii.eqb_sym c5), ?andb_false_r, ?andb_true_r;
    reflexivity.
Qed.

(** The file name of the export when neither part of it holds a
    separator and the name does not already end in the extension. *)
Lemma exportFile_plain hub :
  Str.contains Path.slash (Hub.id hub) = false ->
  Str.contains Path.slash (Hub.name hub) = false ->
  ends_with ".json" (Hub.name hub) = false ->
  exportFile hub
  = ("indexes-" ++ Hub.id hub ++ "-" ++ Hub.name hub)%string.
Proof.
  intros Hid Hname Hext. unfold exportFile.
  set (p := ("indexes-" ++ Hub.id hub ++ "-" ++ Hub.name hub)%string).
  assert (Hlen : 9 <= String.length p).
  { unfold p. rewrite !length_app. simpl. lia. }
  assert (Hns : noSlash (Str.rchars p)).
  { unfold p. rewrite !rchars_app.
    repeat apply noSlash_app; try (now apply contains_noSlash);
      unfold noSlash, Str.rchars; simpl; repeat constructor. }
  assert (Hm : matches_back ".json" 4 (Str.rchars p) = false).
  { rewrite matches_back_json.
    assert (Hp : Str.rchars p
                 = Str.rchars (Hub.name hub) ++
                   "-"%char :: (Str.rchars (Hub.id hub) ++
                                Str.rchars "indexes-")).
    { unfold p. rewrite !rchars_app, <- !app_assoc. reflexivity. }
    rewrite Hp, prefixb_beyond; [exact Hext|reflexivity]. }
  unfold Path.basename.
  change (Z.of_nat (String.length ".json")) with 5%Z.
  assert (Hc : ((0 <? 5) && (5 <=? Z.of_nat (String.length p)))%Z%bool
               = true).
  { apply andb_true_iff. split; [reflexivity|]. apply Z.leb_le. lia. }
  rewrite Hc.
  assert (Hne : String.eqb ".json" p = false).
  { apply String.eqb_neq. unfold p. simpl. discriminate. }
  rewrite Hne.
  assert (Hi : (0 <= Z.of_nat (String.length p) - 1)%Z) by lia.
  pose proof (basename_loop_keeps ".json" (Str.rchars p)
                (Z.of_nat (String.length p) - 1) 4 true (-1)
                Hns Hm (or_intror Hi)) as [Hs He].
  cbv zeta in Hs, He. change (Z.of_nat 4) with 4%Z in Hs, He.
  change (5 - 1)%Z with 4%Z.
  rewrite Hs.
  replace (Z.of_nat (String.length p) - 1 + 1)%Z
    with (Z.of_nat (String.length p)) in He by lia.
  simpl (-1 =? -1)%Z in He. cbv iota in He.
  destruct He as [-> | ->].
  - destruct (Z.eqb_spec 0 (Z.of_nat (String.length p))); [lia|].
    destruct (Z.eqb_spec (Z.of_nat (String.length p)) (-1)); [lia|].
    apply slice_whole.
  - simpl. apply slice_whole.
Qed.

Lemma string_snoc (s : string) :
  s = "" \/ exists d c, s = (d ++ String c "")%string.
Proof.
  induction s as [|a s IH]; [now left|right].
  destruct IH as [->|(d & c & ->)].
  - exists "", a. reflexivity.
  - exists (String a d), c. reflexivity.
Qed.

Lemma string_app_assoc (a b c : string) :
  ((a ++ b) ++ c = a ++ (b ++ c))%string.
Proof. induction a as [|x a IH]; simpl; [reflexivity|now rewrite IH]. Qed.

Lemma substr_last (d : string) c :
  Str.substr (d ++ String c "") (-1) = String c "".
Proof.
  unfold Str.substr. cbv zeta. rewrite length_app. simpl String.length.
  change (-1 <? 0)%Z with true. cbv iota.
  match goal with
  | |- substring ?m ?n _ = _ =>
      replace m with (String.length d) by lia; replace n with 1 by lia
  end.
  rewrite substring_skip. reflexivity.
Qed.

Lemma slice_drop_last (d : string) c :
  Str.slice (d ++ String c "") 0 (-1) = d.
Proof.
  unfold Str.slice. cbv zeta. rewrite length_app. simpl String.length.
  rewrite clamp_zero by lia.
  unfold Str.clamp. change (-1 <? 0)%Z with true. cbv iota.
  change (Z.to_nat 0) with 0.
  match goal with
  | |- substring 0 ?n _ = _ => replace n with (String.length d) by lia
  end.
  apply substring_prefix.
Qed.

Lemma trimmedDir_trailing (d : string) : trimmedDir (d ++ "/") = d.
Proof.
  unfold trimmedDir. rewrite substr_last. simpl String.eqb.
  apply slice_drop_last.
Qed.

Lemma trimmedDir_plain (d : string) :
  ends_with "/" d = false -> trimmedDir d = d.
Proof.
  unfold trimmedDir, ends_with. intros H.
  destruct (string_snoc d) as [->|(d' & c & ->)]; [reflexivity|].
  rewrite substr_last.
  rewrite rchars_app in H. unfold Str.rchars in H. simpl in H.
  rewrite andb_true_r in H.
  unfold Path.sep. simpl String.eqb.
  rewrite Ascii.eqb_sym, H. reflexivity.
Qed.

(** C9 (amended): the export is written to the output directory, less
    one trailing separator if it has one, followed by a separator and by
    the file name `path.basename("indexes-" + id + "-" + name, ".json")
    + ".json"`.  That file name is `"indexes-" + id + "-" + name +
    ".json"` whenever the id and the name of the hub hold no path
    separator and the name does not end in `.json`. *)
Theorem export_written_at_unique_filename w argv f doc :
  In (Written f doc) (snd (handler w argv)) ->
  exists hub,
    hubs_get w (hubId argv) = Fulfilled hub /\
    f = (trimmedDir (dir argv) ++ "/" ++ exportFile hub ++ ".json")%string /\
    (ends_with "/" (dir argv) = false -> trimmedDir (dir argv) = dir argv) /\
    (forall d, dir argv = (d ++ "/")%string -> trimmedDir (dir argv) = d) /\
    (Str.contains Path.slash (Hub.id hub) = false ->
     Str.contains Path.slash (Hub.name hub) = false ->
     ends_with ".json" (Hub.name hub) = false ->
     f = (trimmedDir (dir argv) ++ "/" ++
          "indexes-" ++ Hub.id hub ++ "-" ++ Hub.name hub ++ ".json")%string).
Proof.
  intros Hin.
  apply handler_written in Hin as (hub & idx & Hhub & _ & -> & _ & _).
  exists hub. split; [assumption|]. split; [reflexivity|].
  split; [apply trimmedDir_plain|].
  split; [intros d ->; apply trimmedDir_trailing|].
  intros Hid Hname Hext. unfold uniqueFilename, Path.sep.
  rewrite (exportFile_plain hub Hid Hname Hext).
  now rewrite !string_app_assoc.
Qed.

Lemma export_written_at_unique_filename_witness :
  exists hub,
    hubs_get Sample.scenario (hubId Sample.argv) = Fulfilled hub /\
    "out/indexes-h1-Acme.json"
    = (trimmedDir (dir Sample.argv) ++ "/" ++ exportFile hub ++ ".json")%string /\
    (ends_with "/" (dir Sample.argv) = false ->
     trimmedDir (dir Sample.argv) = dir Sample.argv) /\
    (forall d, dir Sample.argv = (d ++ "/")%string ->
               trimmedDir (dir Sample.argv) = d) /\
    (Str.contains Path.slash (Hub.id hub) = false ->
     Str.contains Path.slash (Hub.name hub) = false ->
     ends_with ".json" (Hub.name hub) = false ->
     "out/indexes-h1-Acme.json"
     = (trimmedDir (dir Sample.argv) ++ "/" ++
        "indexes-" ++ Hub.id hub ++ "-" ++ Hub.name hub ++ ".json")%string).
Proof.
  apply (export_written_at_unique_filename Sample.scenario Sample.argv
           "out/indexes-h1-Acme.json" [Sample.scenarioEntry]).
  in_trace.
Defined.

(** C9 as stated fails: a path separator in the name of the hub, or a
    name that ends in `.json`, changes the file name; the export of hub
    `{id: "h1", name: "a/b"}` is written to `b.json`. *)
Lemma hub_name_with_separator_changes_file :
  In (Written "out/b.json" [Sample.bareEntry])
     (snd (handler Sample.nestedWorld Sample.argv)) /\
  hubs_get Sample.nestedWorld (hubId Sample.argv)
  = Fulfilled Sample.nested /\
  uniqueFilename "out" Sample.nested = "out/b.json" /\
  uniqueFilename "out" Sample.nested
  <> ("out" ++ "/" ++ "indexes-" ++ Hub.id Sample.nested ++ "-" ++
      Hub.name Sample.nested ++ ".json")%string /\
  uniqueFilename "out" Sample.dotted = "out/indexes-h1-x.json" /\
  uniqueFilename "out" Sample.dotted
  <> ("out" ++ "/" ++ "indexes-" ++ Hub.id Sample.dotted ++ "-" ++
      Hub.name Sample.dotted ++ ".json")%string.
Proof.
  split; [in_trace|].
  repeat split; try (intros H; vm_compute in H; discriminate H).
Qed.

(** ** Indexes without a `replicas` property *)





(** ** Webhook fields *)

Lemma webhookRef_link rel type ref :
  webhookRef rel type = Fulfilled ref ->
  lookup_link rel (ContentTypeAssignment._links type) <> None.
Proof.
  unfold webhookRef.
  destruct (lookup_link rel (ContentTypeAssignment._links type));
    intros H; [discriminate|discriminate].
Qed.

(** A run that gets through the webhook stage has found both link
    relations on the first assignment of every listed index. *)
Lemma indexEntries_links w hub idx final item type rest :
  fst (indexEntries w hub idx) = Fulfilled final ->
  In item idx ->
  getIndexAssignedContentTypes w (IndexSummary.id item)
  = Fulfilled (type :: rest) ->
  lookup_link activeRel (ContentTypeAssignment._links type) <> None /\
  lookup_link archivedRel (ContentTypeAssignment._links type) <> None.
Proof.
  intros H Hin Hget.
  apply indexEntries_fulfilled in H
    as (settingsList & assigned & refs & aList & bList & aPay & bPay &
        founds & fetched & _ & Ha & Hr & _).
  apply webhookRefs_fulfilled in Hr as (pairs & Hpairs & _).
  apply In_nth_error in Hin as [k Hk].
  destruct (Forall2_nth_l _ _ _ Ha k item Hk) as (types & Htk & Hget').
  rewrite Hget in Hget'. injection Hget' as <-.
  destruct (Forall2_nth_l _ _ _ Hpairs k _ Htk) as (ab & _ & Hab).
  apply webhookRefsOf_cons in Hab as [Hactive Harchived].
  split; eapply webhookRef_link; eassumption.
Qed.

(** C4 (amended): in every exported entry of an index without
    content-type assignment both webhook fields are present and `null`.
    A missing webhook link relation is not turned into `null`: when the
    first assignment of a listed index lacks one of the two relations,
    the run rejects and writes no file. *)
Theorem webhooks_null_without_assignment w argv :
  (forall f doc e,
     In (Written f doc) (snd (handler w argv)) -> In e doc ->
     getIndexAssignedContentTypes w (IndexEntry.id e) = Fulfilled [] ->
     IndexEntry.activeContentWebhook e = JsNull /\
     IndexEntry.archivedContentWebhook e = JsNull) /\
  (forall idx item type rest rel,
     getIdexesDetailsList w = Fulfilled idx -> In item idx ->
     getIndexAssignedContentTypes w (IndexSummary.id item)
     = Fulfilled (type :: rest) ->
     rel = activeRel \/ rel = archivedRel ->
     lookup_link rel (ContentTypeAssignment._links type) = None ->
     (exists e, fst (handler w argv) = Rejected e) /\
     (forall f doc, ~ In (Written f doc) (snd (handler w argv)))).
Proof.
  split.
  - intros f doc e Hin He Hnone.
    destruct (written_entry _ _ _ _ _ Hin He)
      as (hub & item & _ & _ & s & types & _ & Ht & Hid & _ & _ & _ & _ &
          Hw).
    rewrite <- Hid, Hnone in Ht. injection Ht as <-. exact Hw.
  - intros idx item type rest rel Hidx Hin Hget Hrel Hmiss.
    destruct (handler_tail w argv)
      as [(e & Hfst & Hsites)|
          (hub & idx' & final & pre & _ & Hidx' & Hbody & _)].
    + split; [eauto|]. intros f doc Hw. now apply Hsites in Hw.
    + exfalso. rewrite Hidx in Hidx'. injection Hidx' as <-.
      destruct (Nat.ltb 0 (List.length idx)) eqn:Hlen.
      * destruct (indexEntries_links _ _ _ _ _ _ _ Hbody Hin Hget)
          as [Ha Hb].
        destruct Hrel as [-> | ->]; contradiction.
      * apply length_zero_nil in Hlen. subst idx. contradiction.
Qed.

Lemma webhooks_null_without_assignment_witness :
  (IndexEntry.activeContentWebhook Sample.bareEntry = JsNull /\
   IndexEntry.archivedContentWebhook Sample.bareEntry = JsNull) /\
  ((exists e, fst (handler Sample.missingLinkWorld Sample.argv)
              = Rejected e) /\
   (forall f doc,
      ~ In (Written f doc)
           (snd (handler Sample.missingLinkWorld Sample.argv)))).
Proof.
  split.
  - apply (proj1 (webhooks_null_without_assignment Sample.bareWorld
                    Sample.argv)
             "out/indexes-h1-Acme.json" [Sample.bareEntry]
             Sample.bareEntry).
    + in_trace.
    + simpl. left. reflexivity.
    + reflexivity.
  - apply (proj2 (webhooks_null_without_assignment Sample.missingLinkWorld
                    Sample.argv)
             [Sample.main] Sample.main Sample.halfLinked [] activeRel).
    + reflexivity.
    + simpl. left. reflexivity.
    + reflexivity.
    + left. reflexivity.
    + reflexivity.
Defined.

(** C4 as stated fails: when the first assignment lacks a webhook link
    relation the run throws and exports nothing, instead of exporting
    `null`. *)
Lemma missing_link_relation_throws :
  getIndexAssignedContentTypes Sample.missingLinkWorld "i1"
  = Fulfilled [Sample.halfLinked] /\
  lookup_link activeRel (ContentTypeAssignment._links Sample.halfLinked)
  = None /\
  fst (handler Sample.missingLinkWorld Sample.argv)
  = Rejected (TypeError "Cannot read property 'href' of undefined") /\
  existsb is_written (snd (handler Sample.missingLinkWorld Sample.argv))
  = false.
Proof. repeat split. Qed.

(** ** The stages of a run *)

Lemma Within_nil lo hi : Within lo hi [].
Proof. split; [constructor|contradiction]. Qed.

Lemma Within_app lo mid mid' hi t1 t2 :
  Within lo mid t1 -> Within mid' hi t2 ->
  lo <= mid -> mid <= mid' -> mid' <= hi ->
  Within lo hi (t1 ++ t2).
Proof.
  intros [S1 B1] [S2 B2] H1 H2 H3. split.
  - rewrite map_app. apply StronglySorted_app; try assumption.
    intros x y Hx Hy.
    apply in_map_iff in Hx as (e1 & <- & He1).
    apply in_map_iff in Hy as (e2 & <- & He2).
    specialize (B1 e1 He1). specialize (B2 e2 He2). lia.
  - intros ev Hin. apply in_app_iff in Hin as [Hin|Hin].
    + specialize (B1 ev Hin). lia.
    + specialize (B2 ev Hin). lia.
Qed.

Lemma Within_bind {A B} lo mid mid' hi (m : Run A) (k : A -> Run B) :
  Within lo mid (snd m) ->
  (forall a, Within mid' hi (snd (k a))) ->
  lo <= mid -> mid <= mid' -> mid' <= hi ->
  Within lo hi (snd (bind m k)).
Proof.
  intros Hm Hk H1 H2 H3. rewrite bind_snd.
  apply (Within_app lo mid mid' hi); try assumption.
  destruct (fst m); [apply Hk|apply Within_nil].
Qed.

Lemma Within_const n t :
  (forall ev, In ev t -> event_stage ev = n) -> Within n n t.
Proof.
  intros H. split.
  - apply (StronglySorted_const _ n); [apply Nat.le_refl|].
    intros x Hx. apply in_map_iff in Hx as (ev & <- & Hev). auto.
  - intros ev Hin. rewrite (H ev Hin). lia.
Qed.

Lemma Within_site s t :
  (forall ev, In ev t -> event_site ev = Some s) ->
  Within (stage s) (stage s) t.
Proof.
  intros H. apply Within_const. intros ev Hin.
  unfold event_stage. now rewrite (H ev Hin).
Qed.

Lemma Within_promise_all {A} s completion (ps : list (Pending A)) :
  Forall (issued_at s) ps ->
  Within (stage s) (stage s) (snd (promise_all completion ps)).
Proof. intros H. apply Within_site. now apply promise_all_site. Qed.

Lemma Within_await {A} s r (res : Outcome A) :
  Within (stage s) (stage s) (snd (await s r res)).
Proof. apply Within_site. intros ev. apply await_site. Qed.

Lemma Within_replicaLookups w i reps acc :
  Within 7 7 (snd (replicaLookups w i reps acc)).
Proof.
  apply Within_const. intros ev Hin.
  apply replicaLookups_events in Hin as (j & ns & _ & _ & Hs).
  unfold event_stage. now rewrite Hs.
Qed.

Lemma Within_replicaSettingsFetches w i founds acc :
  Within 8 8 (snd (replicaSettingsFetches w i founds acc)).
Proof.
  apply Within_const. intros ev Hin.
  apply replicaSettingsFetches_events in Hin as (j & ns & _ & _ & Hs).
  unfold event_stage. now rewrite Hs.
Qed.

Lemma Within_processIndexes w d hub final :
  Within 9 9 (snd (processIndexes w d hub final)).
Proof.
  apply Within_const. intros ev Hin.
  apply processIndexes_events in Hin. unfold event_stage. now rewrite Hin.
Qed.

Lemma Within_indexEntries w hub idx :
  Within 3 8 (snd (indexEntries w hub idx)).
Proof.
  unfold indexEntries.
  apply (Within_bind 3 3 4 8); try lia.
  { apply (Within_promise_all SSettings), issued_map. }
  intros settingsList.
  apply (Within_bind 4 4 5 8); try lia.
  { apply (Within_promise_all SAssigned), issued_map. }
  intros assigned.
  apply (Within_bind 5 5 5 8); try lia; [apply Within_nil|]. intros refs.
  apply (Within_bind 5 5 6 8); try lia.
  { apply (Within_promise_all SActiveWebhook), webhookPromise_issued. }
  intros aList.
  apply (Within_bind 6 6 7 8); try lia.
  { apply (Within_promise_all SArchivedWebhook), webhookPromise_issued. }
  intros bList.
  apply (Within_bind 7 7 7 8); try lia; [apply Within_nil|]. intros aPay.
  apply (Within_bind 7 7 7 8); try lia; [apply Within_nil|]. intros bPay.
  apply (Within_bind 7 7 8 8); try lia; [apply Within_replicaLookups|].
  intros founds.
  apply (Within_bind 8 8 8 8); try lia;
    [apply Within_replicaSettingsFetches|].
  intros fetched. apply Within_nil.
Qed.

Lemma Within_handler w argv : Within 0 9 (snd (handler w argv)).
Proof.
  unfold handler.
  apply (Within_bind 0 0 1 9); try lia; [apply (Within_await SHub)|].
  intros hub.
  apply (Within_bind 1 1 2 9); try lia; [apply (Within_await SInit)|].
  intros _.
  apply (Within_bind 2 2 3 9); try lia; [apply (Within_await SList)|].
  intros idx.
  apply (Within_bind 3 8 9 9); try lia;
    [|intros; apply Within_processIndexes].
  destruct (Nat.ltb 0 (List.length idx));
    [apply Within_indexEntries|apply Within_nil].
Qed.

(** X1: the events of any run come in the order of the stages of
    `handler`: hub, client initialisation, listing, settings,
    assignments, active webhooks, archived webhooks, by-name lookups,
    replica settings and, last, the prompt, the write and the notices.
    A stage never starts before the one ahead of it is over. *)
Theorem events_in_stage_order w argv :
  StronglySorted le (map event_stage (snd (handler w argv))).
Proof. apply Within_handler. Qed.

(** ** The requests of a run *)

Lemma site_eqb_eq a b : site_eqb a b = true <-> a = b.
Proof.
  destruct a, b; simpl; split; intros H;
    try reflexivity; try discriminate;
    try (apply Nat.eqb_eq in H; now subst);
    try (injection H as ->; apply Nat.eqb_refl).
Qed.

Lemma requests_at_app s t1 t2 :
  requests_at s (t1 ++ t2) = requests_at s t1 ++ requests_at s t2.
Proof. apply flat_map_app. Qed.

Lemma requests_at_elsewhere s t :
  (forall ev, In ev t -> event_site ev <> Some s) -> requests_at s t = [].
Proof.
  induction t as [|ev t IH]; intros H; [reflexivity|].
  unfold requests_at in *. simpl. rewrite IH.
  - destruct ev as [s' r| | | | |]; try reflexivity.
    destruct (site_eqb s' s) eqn:E; [|reflexivity].
    apply site_eqb_eq in E. subst s'.
    exfalso. apply (H (Started s r)); [now left|reflexivity].
  - intros ev' Hin. apply H. now right.
Qed.

Lemma requests_at_stage s lo hi t :
  Within lo hi t -> stage s < lo \/ hi < stage s -> requests_at s t = [].
Proof.
  intros [_ HB] Hs. apply requests_at_elsewhere. intros ev Hin Hev.
  specialize (HB ev Hin). unfold event_stage in HB. rewrite Hev in HB. lia.
Qed.

Lemma requests_at_settle {A} s (ps : list (Pending A)) order :
  requests_at s (snd (settle ps order)) = [].
Proof.
  induction order as [|k order IH]; simpl; [reflexivity|].
  destruct (nth_error ps k) as [[s' r [a|e]|a]|]; try assumption.
  - destruct (settle ps order) as [o t]. simpl in *. assumption.
  - reflexivity.
Qed.

Lemma requests_at_started {A B} s (f : A -> Request) (g : A -> Outcome B)
    l :
  requests_at s (started (map (fun x => Issued s (f x) (g x)) l))
  = map f l.
Proof.
  induction l as [|x l IH]; [reflexivity|].
  simpl. unfold requests_at in *. simpl.
  assert (E : site_eqb s s = true) by (now apply site_eqb_eq).
  rewrite E. simpl. now rewrite IH.
Qed.

(** A batch issues one request per element, in array order. *)
Lemma requests_at_batch {A B} s completion (f : A -> Request)
    (g : A -> Outcome B) l :
  requests_at s
    (snd (promise_all completion (map (fun x => Issued s (f x) (g x)) l)))
  = map f l.
Proof.
  rewrite promise_all_snd, requests_at_app, requests_at_settle.
  rewrite app_nil_r. apply requests_at_started.
Qed.

Lemma requests_at_await {A} s s' r (res : Outcome A) :
  s <> s' -> requests_at s' (snd (await s r res)) = [].
Proof.
  intros Hne. apply requests_at_elsewhere. intros ev Hin Hev.
  apply await_site in Hin. congruence.
Qed.

Lemma requests_at_bind {A B} s (m : Run A) (k : A -> Run B) :
  requests_at s (snd (bind m k))
  = requests_at s (snd m) ++
    match fst m with
    | Fulfilled a => requests_at s (snd (k a))
    | Rejected _ => []
    end.
Proof.
  rewrite bind_snd, requests_at_app. destruct (fst m); reflexivity.
Qed.

(** The run up to the listing. *)
Lemma requests_at_handler w argv hub idx s :
  hubs_get w (hubId argv) = Fulfilled hub ->
  fetch_init w = Fulfilled tt ->
  getIdexesDetailsList w = Fulfilled idx ->
  3 <= stage s <= 8 ->
  requests_at s (snd (handler w argv))
  = requests_at s
      (snd (if Nat.ltb 0 (List.length idx)
            then indexEntries w hub idx else ret [])).
Proof.
  intros Hhub Hinit Hidx Hs. unfold handler.
  rewrite requests_at_bind, await_fst, Hhub.
  rewrite requests_at_await by (intros E; rewrite <- E in Hs; simpl in Hs; lia).
  rewrite requests_at_bind, await_fst, Hinit.
  rewrite requests_at_await by (intros E; rewrite <- E in Hs; simpl in Hs; lia).
  rewrite requests_at_bind, await_fst, Hidx.
  rewrite requests_at_await by (intros E; rewrite <- E in Hs; simpl in Hs; lia).
  rewrite requests_at_bind. simpl app.
  assert (Hgate : forall final,
            requests_at s (snd (processIndexes w (dir argv) hub final))
            = []).
  { intros final. apply (requests_at_stage s 9 9);
      [apply Within_processIndexes|lia]. }
  destruct (fst _); [rewrite Hgate|]; now rewrite app_nil_r.
Qed.

(** The guarded body, stage by stage. *)
Lemma indexEntries_staged w hub idx :
  indexEntries w hub idx
  = bind (settingsBatch w idx) (assignmentStage w hub idx).
Proof. reflexivity. Qed.

Lemma Within_replicaStage w idx settingsList assigned aPay bPay :
  Within 7 8 (snd (replicaStage w idx settingsList assigned aPay bPay)).
Proof.
  unfold replicaStage.
  apply (Within_bind 7 7 8 8); try lia; [apply Within_replicaLookups|].
  intros founds.
  apply (Within_bind 8 8 8 8); try lia;
    [apply Within_replicaSettingsFetches|].
  intros fetched. apply Within_nil.
Qed.

Lemma Within_webhookStage w hub idx settingsList assigned :
  Within 5 8 (snd (webhookStage w hub idx settingsList assigned)).
Proof.
  unfold webhookStage.
  apply (Within_bind 5 5 5 8); try lia; [apply Within_nil|]. intros refs.
  apply (Within_bind 5 5 6 8); try lia.
  { apply (Within_promise_all SActiveWebhook), webhookPromise_issued. }
  intros aList.
  apply (Within_bind 6 6 7 8); try lia.
  { apply (Within_promise_all SArchivedWebhook), webhookPromise_issued. }
  intros bList.
  apply (Within_bind 7 7 7 8); try lia; [apply Within_nil|]. intros aPay.
  apply (Within_bind 7 7 7 8); try lia; [apply Within_nil|]. intros bPay.
  apply Within_replicaStage.
Qed.

Lemma Within_assignmentStage w hub idx settingsList :
  Within 4 8 (snd (assignmentStage w hub idx settingsList)).
Proof.
  unfold assignmentStage.
  apply (Within_bind 4 4 5 8); try lia.
  { apply (Within_promise_all SAssigned), issued_map. }
  intros assigned. apply Within_webhookStage.
Qed.

Lemma settle_all_fulfilled {A} (ps : list (Pending A)) order :
  (forall p, In p ps -> is_rejected (pending_outcome p) = false) ->
  fst (settle ps order) = None.
Proof.
  intros Hok. induction order as [|k order IH]; simpl; [reflexivity|].
  destruct (nth_error ps k) as [[s r [a|e]|a]|] eqn:Hk; auto.
  - destruct (settle ps order) as [o t]. simpl in *. assumption.
  - apply nth_error_In in Hk. specialize (Hok _ Hk). discriminate.
Qed.

(** A batch whose fetches are all fulfilled is fulfilled, whatever the
    completion order. *)
Lemma promise_all_total {A} completion (ps : list (Pending A)) :
  (forall p, In p ps -> is_rejected (pending_outcome p) = false) ->
  exists vs,
    fst (promise_all completion ps) = Fulfilled vs /\
    mapM pending_outcome ps = Fulfilled vs.
Proof.
  intros Hok. rewrite promise_all_fst, (settle_all_fulfilled _ _ Hok).
  destruct (mapM_total pending_outcome ps) as [vs Hvs]; [|eauto].
  intros p Hp. specialize (Hok p Hp).
  destruct (pending_outcome p); [eauto|discriminate].
Qed.

Lemma settingsBatch_fulfilled w idx :
  (forall item, In item idx ->
                is_rejected (getIndexSettings w (IndexSummary.id item))
                = false) ->
  exists settingsList, fst (settingsBatch w idx) = Fulfilled settingsList.
Proof.
  intros Hok. unfold settingsBatch.
  destruct (promise_all_total (completion w SSettings)
              (map (fun item =>
                      Issued SSettings
                        (GetIndexSettings (IndexSummary.id item))
                        (getIndexSettings w (IndexSummary.id item)))
                   idx)) as (vs & Hvs & _); [|eauto].
  intros p Hp. apply in_map_iff in Hp as (item & <- & Hin). simpl. auto.
Qed.

(** ** Where a run stops *)

Lemma EndsAtFailure_none t : first_failure t = None -> EndsAtFailure t.
Proof. intros H e He. congruence. Qed.

Lemma EndsAtFailure_app t1 t2 :
  first_failure t1 = None -> EndsAtFailure t2 -> EndsAtFailure (t1 ++ t2).
Proof.
  intros H1 H2 e He. rewrite (first_failure_app_none _ _ H1) in He.
  destruct (H2 e He) as (t0 & s & r & -> & H0).
  exists (t1 ++ t0), s, r. split; [now rewrite app_assoc|].
  now rewrite (first_failure_app_none _ _ H1).
Qed.

Lemma EndsAtFailure_settle {A} (ps : list (Pending A)) order :
  EndsAtFailure (snd (settle ps order)).
Proof.
  induction order as [|k order IH]; simpl; [intros e; discriminate|].
  destruct (nth_error ps k) as [[s r [a|e0]|a]|]; try assumption.
  - destruct (settle ps order) as [o t]. simpl in *.
    apply (EndsAtFailure_app [Settled s r None] t); [reflexivity|assumption].
  - simpl. intros e He. injection He as <-.
    exists [], s, r. split; reflexivity.
Qed.

Lemma FailFast_bind {A B} (m : Run A) (k : A -> Run B) :
  FailFast m -> (forall a, FailFast (k a)) -> FailFast (bind m k).
Proof.
  intros [Em Fm] Hk. unfold FailFast. rewrite bind_fst, bind_snd.
  destruct (fst m) as [a|e].
  - destruct (Hk a) as [Ek Fk]. split.
    + apply EndsAtFailure_app; [now apply (Fm a)|assumption].
    + intros b Hb. rewrite (first_failure_app_none _ _ (Fm a eq_refl)).
      now apply (Fk b).
  - rewrite app_nil_r. split; [assumption|intros; discriminate].
Qed.

Lemma FailFast_silent {A} (m : Run A) :
  first_failure (snd m) = None -> FailFast m.
Proof. intros H. split; [now apply EndsAtFailure_none|auto]. Qed.

Lemma FailFast_promise_all {A} completion (ps : list (Pending A)) :
  FailFast (promise_all completion ps).
Proof.
  split.
  - rewrite promise_all_snd.
    apply EndsAtFailure_app;
      [apply first_failure_started|apply EndsAtFailure_settle].
  - intros vs Hvs. rewrite promise_all_fst in Hvs.
    rewrite promise_all_snd,
      (first_failure_app_none _ _ (first_failure_started ps)),
      settle_first_failure.
    destruct (fst (settle ps _)); [discriminate|reflexivity].
Qed.

Lemma FailFast_await {A} s r (res : Outcome A) : FailFast (await s r res).
Proof.
  destruct res as [a|e]; [now apply FailFast_silent|].
  split; [|intros; discriminate].
  simpl. intros e' He. injection He as <-.
  exists [Started s r], s, r. split; reflexivity.
Qed.

Lemma FailFast_replicaLookups w reps : forall i acc,
  FailFast (replicaLookups w i reps acc).
Proof.
  induction reps as [|names reps IH]; simpl; intros i acc.
  - now apply FailFast_silent.
  - destruct (Nat.ltb 0 (List.length names)); [|apply IH].
    apply FailFast_bind; [apply FailFast_promise_all|intros; apply IH].
Qed.

Lemma FailFast_replicaSettingsFetches w founds : forall i acc,
  FailFast (replicaSettingsFetches w i founds acc).
Proof.
  induction founds as [|found founds IH]; simpl; intros i acc.
  - now apply FailFast_silent.
  - destruct (Nat.ltb 0 (List.length found)); [|apply IH].
    apply FailFast_bind; [apply FailFast_promise_all|intros; apply IH].
Qed.

Lemma FailFast_indexEntries w hub idx : FailFast (indexEntries w hub idx).
Proof.
  unfold indexEntries.
  repeat (apply FailFast_bind;
          [first [ apply FailFast_promise_all
                 | apply FailFast_replicaLookups
                 | apply FailFast_replicaSettingsFetches
                 | now apply FailFast_silent ]
          |intros ?]).
  now apply FailFast_silent.
Qed.

Lemma FailFast_processIndexes w d hub final :
  FailFast (processIndexes w d hub final).
Proof.
  apply FailFast_silent, siteless_no_failure.
  intros ev. apply processIndexes_events.
Qed.

Lemma FailFast_handler w argv : FailFast (handler w argv).
Proof.
  unfold handler.
  apply FailFast_bind; [apply FailFast_await|intros hub].
  apply FailFast_bind; [apply FailFast_await|intros _].
  apply FailFast_bind; [apply FailFast_await|intros idx].
  apply FailFast_bind; [|intros; apply FailFast_processIndexes].
  destruct (Nat.ltb 0 (List.length idx));
    [apply FailFast_indexEntries|now apply FailFast_silent].
Qed.

(** X3: a run goes no further than the first fetch that is rejected.
    When the trace of a run holds a rejection, the run rejects with that
    error, the rejected fetch is the very last event of the trace, no
    rejection comes before it, and the trace holds fetch events only:
    no prompt, no write and no notice. *)
Theorem rejected_run_stops_at_failure w argv e :
  first_failure (snd (handler w argv)) = Some e ->
  fst (handler w argv) = Rejected e /\
  (forall ev, In ev (snd (handler w argv)) -> event_site ev <> None) /\
  exists t0 s r,
    snd (handler w argv) = t0 ++ [Settled s r (Some e)] /\
    first_failure t0 = None.
Proof.
  intros Hfail.
  destruct (proj1 (FailFast_handler w argv) e Hfail)
    as (t0 & s & r & Heq & Hnone).
  split; [|split; [|eauto]].
  - pose proof (Faithful_handler w argv) as HF. unfold Faithful in HF.
    destruct (fst (handler w argv)) as [u|e'].
    + destruct HF as [HF _]. congruence.
    + destruct HF as [HF|(HF & _)]; congruence.
  - destruct (handler_tail w argv)
      as [(e' & _ & Hsites)|
          (hub & idx & final & pre & _ & _ & _ & Htr & Hpre & _)];
      [assumption|].
    assert (Hpost : forall ev,
              In ev (snd (processIndexes w (dir argv) hub final)) ->
              event_site ev = None)
      by (intros ev; apply processIndexes_events).
    destruct (snd (processIndexes w (dir argv) hub final)) as [|x post]
      using rev_ind.
    + rewrite app_nil_r in Htr. now rewrite Htr.
    + exfalso. rewrite Heq, app_assoc in Htr.
      apply app_inj_tail in Htr as [_ <-].
      specialize (Hpost (Settled s r (Some e))).
      rewrite in_app_iff in Hpost. simpl in Hpost.
      discriminate Hpost. auto.
Qed.

Lemma rejected_run_stops_at_failure_witness :
  fst (handler Sample.replicaMissing Sample.argv)
  = Rejected (RemoteError "404 Not Found") /\
  (forall ev, In ev (snd (handler Sample.replicaMissing Sample.argv)) ->
              event_site ev <> None) /\
  exists t0 s r,
    snd (handler Sample.replicaMissing Sample.argv)
    = t0 ++ [Settled s r (Some (RemoteError "404 Not Found"))] /\
    first_failure t0 = None.
Proof.
  apply (rejected_run_stops_at_failure Sample.replicaMissing Sample.argv
           (RemoteError "404 Not Found")).
  reflexivity.
Defined.

(** ** Fetches left pending *)

Lemma Settles_bind {A B} (m : Run A) (k : A -> Run B) :
  Settles m -> (forall a, Settles (k a)) -> Settles (bind m k).
Proof.
  intros Hm Hk b Hb s r Hin.
  apply bind_fulfilled in Hb as (a & Ha & Hkb & Heq).
  rewrite Heq in *. apply in_app_iff in Hin as [Hin|Hin];
    apply in_or_app; [left|right].
  - eapply Hm; eassumption.
  - eapply Hk; eassumption.
Qed.

Lemma Settles_quiet {A} (m : Run A) :
  (forall s r, ~ In (Started s r) (snd m)) -> Settles m.
Proof. intros H a _ s r Hin. now apply H in Hin. Qed.

Lemma Settles_promise_all {A} completion (ps : list (Pending A)) :
  Settles (promise_all completion ps).
Proof. intros vs Hvs s r. now apply (promise_all_settles _ _ vs). Qed.

Lemma Settles_await {A} s r (res : Outcome A) : Settles (await s r res).
Proof.
  intros a Ha s' r' Hin. destruct res as [a'|e]; [|discriminate].
  simpl in *. destruct Hin as [H|[H|[]]]; [|discriminate].
  injection H as <- <-. auto.
Qed.

Lemma Settles_replicaLookups w reps : forall i acc,
  Settles (replicaLookups w i reps acc).
Proof.
  induction reps as [|names reps IH]; simpl; intros i acc.
  - apply Settles_quiet. intros s r [].
  - destruct (Nat.ltb 0 (List.length names)); [|apply IH].
    apply Settles_bind; [apply Settles_promise_all|intros; apply IH].
Qed.

Lemma Settles_replicaSettingsFetches w founds : forall i acc,
  Settles (replicaSettingsFetches w i founds acc).
Proof.
  induction founds as [|found founds IH]; simpl; intros i acc.
  - apply Settles_quiet. intros s r [].
  - destruct (Nat.ltb 0 (List.length found)); [|apply IH].
    apply Settles_bind; [apply Settles_promise_all|intros; apply IH].
Qed.

Lemma Settles_indexEntries w hub idx : Settles (indexEntries w hub idx).
Proof.
  unfold indexEntries.
  repeat (apply Settles_bind;
          [first [ apply Settles_promise_all
                 | apply Settles_replicaLookups
                 | apply Settles_replicaSettingsFetches
                 | apply Settles_quiet; intros s r [] ]
          |intros ?]).
  apply Settles_quiet. intros s r [].
Qed.

Lemma Settles_handler w argv : Settles (handler w argv).
Proof.
  unfold handler.
  apply Settles_bind; [apply Settles_await|intros hub].
  apply Settles_bind; [apply Settles_await|intros _].
  apply Settles_bind; [apply Settles_await|intros idx].
  apply Settles_bind.
  - destruct (Nat.ltb 0 (List.length idx));
      [apply Settles_indexEntries|apply Settles_quiet; intros s r []].
  - intros final. apply Settles_quiet. intros s r Hin.
    apply processIndexes_events in Hin. discriminate.
Qed.

(** X4: a run that is fulfilled leaves no fetch pending: every fetch it
    has issued has settled, fulfilled, by the time it ends. *)
Theorem fulfilled_run_leaves_nothing_pending w argv s r :
  fst (handler w argv) = Fulfilled tt ->
  In (Started s r) (snd (handler w argv)) ->
  In (Settled s r None) (snd (handler w argv)).
Proof. intros Hf. now apply (Settles_handler w argv tt). Qed.

Lemma fulfilled_run_leaves_nothing_pending_witness :
  In (Settled (SReplicaSettings 0) (GetIndexSettings "i2") None)
     (snd (handler Sample.scenario Sample.argv)).
Proof.
  apply (fulfilled_run_leaves_nothing_pending Sample.scenario Sample.argv).
  - reflexivity.
  - in_trace.
Defined.

(** ** Reaching the export gate *)

Lemma handler_fulfilled_inv w argv :
  fst (handler w argv) = Fulfilled tt ->
  exists hub idx final,
    hubs_get w (hubId argv) = Fulfilled hub /\
    fetch_init w = Fulfilled tt /\
    getIdexesDetailsList w = Fulfilled idx /\
    fst (if Nat.ltb 0 (List.length idx)
         then indexEntries w hub idx else ret []) = Fulfilled final.
Proof.
  unfold handler. intros H.
  apply bind_fulfilled in H as (hub & Hhub & H & _).
  apply bind_fulfilled in H as ([] & Hinit & H & _).
  apply bind_fulfilled in H as (idx & Hidx & H & _).
  apply bind_fulfilled in H as (final & Hfinal & _ & _).
  rewrite await_fst in Hhub. rewrite await_fst in Hinit.
  rewrite await_fst in Hidx.
  exists hub, idx, final. auto.
Qed.

(** A run that has fetched everything goes through `processIndexes`. *)
Lemma handler_reaches_gate w argv hub idx final :
  hubs_get w (hubId argv) = Fulfilled hub ->
  fetch_init w = Fulfilled tt ->
  getIdexesDetailsList w = Fulfilled idx ->
  fst (if Nat.ltb 0 (List.length idx)
       then indexEntries w hub idx else ret []) = Fulfilled final ->
  fst (handler w argv) = fst (processIndexes w (dir argv) hub final) /\
  forall ev, In ev (snd (processIndexes w (dir argv) hub final)) ->
             In ev (snd (handler w argv)).
Proof.
  intros Hhub Hinit Hidx Hfinal. unfold handler. split.
  - rewrite bind_fst, await_fst, Hhub. cbn beta iota.
    rewrite bind_fst, await_fst, Hinit. cbn beta iota.
    rewrite bind_fst, await_fst, Hidx. cbn beta iota.
    rewrite bind_fst.
    match goal with
    | |- match ?X with Fulfilled _ => _ | Rejected _ => _ end = _ =>
        replace X with (@Fulfilled (list IndexEntry.t) final)
          by (symmetry; exact Hfinal)
    end.
    reflexivity.
  - intros ev Hin.
    apply in_bind. right. exists hub. rewrite await_fst.
    split; [exact Hhub|].
    apply in_bind. right. exists tt. rewrite await_fst.
    split; [exact Hinit|].
    apply in_bind. right. exists idx. rewrite await_fst.
    split; [exact Hidx|].
    apply in_bind. right. exists final. auto.
Qed.

(** On a file system that refuses the write, the scenario ends with the
    error of the write and no file written. *)
Example refused_write_rejects_run :
  fst (handler Sample.diskFull Sample.argv)
  = Rejected (WriteError "ENOSPC: no space left on device") /\
  forall f doc, ~ In (Written f doc) (snd (handler Sample.diskFull Sample.argv)).
Proof.
  split; [reflexivity|].
  intros f doc Hw.
  apply handler_written in Hw as (_ & _ & _ & _ & _ & _ & Hok).
  discriminate Hok.
Qed.

(** ** How a fulfilled run ends *)

Lemma processIndexes_shapes w d hub final :
  fst (processIndexes w d hub final) = Fulfilled tt ->
  let f := uniqueFilename d hub in
  snd (processIndexes w d hub final)
  = [Written f final; Stdout successNotice] \/
  snd (processIndexes w d hub final)
  = [Prompted f true; Written f final; Stdout successNotice] \/
  snd (processIndexes w d hub final) = [Prompted f false; NothingExported].
Proof.
  rewrite processIndexes_cases. cbv zeta.
  destruct (file_exists w (uniqueFilename d hub));
    destruct (overwrite_confirmed w (uniqueFilename d hub));
    destruct (write_error w (uniqueFilename d hub) final);
    simpl; intros H; try discriminate; auto.
Qed.

(** X5: a run that is fulfilled has fetched everything first and ends at
    the export gate in one of two ways: it writes the document once, to
    the export path, and prints the success notice right after the
    write; or, the overwrite being declined, it writes nothing and ends
    with the notice that nothing was exported. *)
Theorem fulfilled_run_ends_at_gate w argv :
  fst (handler w argv) = Fulfilled tt ->
  exists hub final pre,
    hubs_get w (hubId argv) = Fulfilled hub /\
    (forall ev, In ev pre -> event_site ev <> None) /\
    (snd (handler w argv)
     = pre ++ [Written (uniqueFilename (dir argv) hub) final;
               Stdout successNotice] \/
     snd (handler w argv)
     = pre ++ [Prompted (uniqueFilename (dir argv) hub) true;
               Written (uniqueFilename (dir argv) hub) final;
               Stdout successNotice] \/
     snd (handler w argv)
     = pre ++ [Prompted (uniqueFilename (dir argv) hub) false;
               NothingExported]).
Proof.
  intros Hf.
  destruct (handler_tail w argv)
    as [(e & He & _)|
        (hub & idx & final & pre & Hhub & _ & _ & Heq & Hpre & Hfst)];
    [congruence|].
  exists hub, final, pre. split; [assumption|]. split; [assumption|].
  rewrite Heq. rewrite Hfst in Hf.
  destruct (processIndexes_shapes w (dir argv) hub final Hf)
    as [-> |[-> | ->]]; auto.
Qed.

Lemma fulfilled_run_ends_at_gate_witness :
  exists hub final pre,
    hubs_get Sample.declined (hubId Sample.argv) = Fulfilled hub /\
    (forall ev, In ev pre -> event_site ev <> None) /\
    (snd (handler Sample.declined Sample.argv)
     = pre ++ [Written (uniqueFilename (dir Sample.argv) hub) final;
               Stdout successNotice] \/
     snd (handler Sample.declined Sample.argv)
     = pre ++ [Prompted (uniqueFilename (dir Sample.argv) hub) true;
               Written (uniqueFilename (dir Sample.argv) hub) final;
               Stdout successNotice] \/
     snd (handler Sample.declined Sample.argv)
     = pre ++ [Prompted (uniqueFilename (dir Sample.argv) hub) false;
               NothingExported]).
Proof.
  apply (fulfilled_run_ends_at_gate Sample.declined Sample.argv).
  reflexivity.
Defined.

(** ** A hub without indexes *)

(** X6: when the listing is empty the guarded body is skipped: the run
    fetches nothing beyond the hub, the client and the listing, and any
    document it writes is the empty sequence.  With the hub and the
    client there and no file in the way, the run ends as the write of
    the empty document at the export path does: when the write goes
    through the run is fulfilled and the empty document is written
    there; when it fails the run rejects with the error of the write and
    nothing is written. *)
Theorem empty_listing_exports_empty_document w argv :
  getIdexesDetailsList w = Fulfilled [] ->
  (forall ev, In ev (snd (handler w argv)) ->
              event_stage ev <= 2 \/ event_stage ev = 9) /\
  (forall f doc, In (Written f doc) (snd (handler w argv)) -> doc = []) /\
  (forall hub,
     hubs_get w (hubId argv) = Fulfilled hub ->
     fetch_init w = Fulfilled tt ->
     file_exists w (uniqueFilename (dir argv) hub) = false ->
     match write_error w (uniqueFilename (dir argv) hub) [] with
     | None =>
         fst (handler w argv) = Fulfilled tt /\
         In (Written (uniqueFilename (dir argv) hub) [])
            (snd (handler w argv))
     | Some e =>
         fst (handler w argv) = Rejected e /\
         forall f doc, ~ In (Written f doc) (snd (handler w argv))
     end).
Proof.
  intros Hidx. split; [|split].
  - intros ev Hin. unfold handler in Hin.
    apply in_bind in Hin as [Hin|(hub & _ & Hin)];
      [left; apply await_site in Hin; unfold event_stage;
       rewrite Hin; simpl; lia|].
    apply in_bind in Hin as [Hin|(u & _ & Hin)];
      [left; apply await_site in Hin; unfold event_stage;
       rewrite Hin; simpl; lia|].
    apply in_bind in Hin as [Hin|(idx & Hl & Hin)];
      [left; apply await_site in Hin; unfold event_stage;
       rewrite Hin; simpl; lia|].
    rewrite await_fst, Hidx in Hl. injection Hl as <-.
    apply in_bind in Hin as [Hin|(final & _ & Hin)];
      [simpl in Hin; contradiction|].
    right. apply processIndexes_events in Hin.
    unfold event_stage. now rewrite Hin.
  - intros f doc Hw.
    apply handler_written in Hw as (hub & idx & _ & Hidx' & _ & HF & _).
    rewrite Hidx in Hidx'. injection Hidx' as <-.
    simpl in HF. now inversion HF.
  - intros hub Hhub Hinit Hfile.
    destruct (handler_reaches_gate w argv hub [] [] Hhub Hinit Hidx eq_refl)
      as [Hfst Hgate].
    rewrite processIndexes_cases in Hfst, Hgate. cbv zeta in Hfst, Hgate.
    rewrite Hfile in Hfst, Hgate. cbn [andb app] in Hfst, Hgate.
    destruct (write_error w (uniqueFilename (dir argv) hub) []) as [e|];
      cbn [fst snd] in Hfst, Hgate.
    + split; [exact Hfst|].
      intros f doc Hw.
      apply handler_written in Hw as (_ & _ & _ & _ & _ & _ & Hok).
      congruence.
    + split; [exact Hfst|]. apply Hgate. now left.
Qed.

Lemma empty_listing_exports_empty_document_witness :
  (forall ev, In ev (snd (handler Sample.emptyHub Sample.argv)) ->
              event_stage ev <= 2 \/ event_stage ev = 9) /\
  (forall f doc,
     In (Written f doc) (snd (handler Sample.emptyHub Sample.argv)) ->
     doc = []) /\
  (forall hub,
     hubs_get Sample.emptyHub (hubId Sample.argv) = Fulfilled hub ->
     fetch_init Sample.emptyHub = Fulfilled tt ->
     file_exists Sample.emptyHub (uniqueFilename (dir Sample.argv) hub)
     = false ->
     fst (handler Sample.emptyHub Sample.argv) = Fulfilled tt /\
     In (Written (uniqueFilename (dir Sample.argv) hub) [])
        (snd (handler Sample.emptyHub Sample.argv))).
Proof.
  apply (empty_listing_exports_empty_document Sample.emptyHub Sample.argv).
  reflexivity.
Defined.

(** ** Webhook lookups *)

Lemma promise_all_started {A} completion (ps : list (Pending A)) s r :
  In (Started s r) (snd (promise_all completion ps)) ->
  exists res, In (Issued s r res) ps.
Proof.
  rewrite promise_all_snd, in_app_iff. intros [H|H].
  - now apply started_issued.
  - now apply settle_no_started in H.
Qed.

Lemma batch_started {A B} completion site (f : A -> Request)
    (g : A -> Outcome B) l s r :
  In (Started s r)
     (snd (promise_all completion
             (map (fun x => Issued site (f x) (g x)) l))) ->
  s = site /\ exists x, In x l /\ r = f x.
Proof.
  intros H. apply promise_all_started in H as [res H].
  apply in_map_iff in H as (x & Hx & Hin).
  injection Hx as <- <- _. eauto.
Qed.

Lemma replicaLookups_started w reps : forall i acc s r,
  In (Started s r) (snd (replicaLookups w i reps acc)) ->
  exists n, r = GetIndexByName n.
Proof.
  induction reps as [|names reps IH]; simpl; intros i acc s r Hin;
    [contradiction|].
  destruct (Nat.ltb 0 (List.length names)); [|eauto].
  apply in_bind in Hin as [Hin|(vs & _ & Hin)]; [|eauto].
  apply batch_started in Hin as (_ & n & _ & ->). eauto.
Qed.

Lemma replicaSettingsFetches_started w founds : forall i acc s r,
  In (Started s r) (snd (replicaSettingsFetches w i founds acc)) ->
  exists id, r = GetIndexSettings id.
Proof.
  induction founds as [|found founds IH]; simpl; intros i acc s r Hin;
    [contradiction|].
  destruct (Nat.ltb 0 (List.length found)); [|eauto].
  apply in_bind in Hin as [Hin|(vs & _ & Hin)]; [|eauto].
  apply batch_started in Hin as (_ & x & _ & ->). eauto.
Qed.

Lemma webhook_batch_started w completion site hub refs s ref :
  In (Started s (GetWebhook ref))
     (snd (promise_all completion (map (webhookPromise w site hub) refs))) ->
  s = site /\ In (JsSome ref) refs /\ truthy_string ref = true.
Proof.
  intros H. apply promise_all_started in H as [res H].
  apply in_map_iff in H as (x & Hx & Hin).
  unfold webhookPromise in Hx.
  destruct x as [| |ref']; try discriminate.
  destruct (truthy_string ref') eqn:Ht; [|discriminate].
  injection Hx as <- <- _. auto.
Qed.

Lemma truthy_string_nonempty s : truthy_string s = true <-> s <> "".
Proof.
  unfold truthy_string. rewrite negb_true_iff. apply String.eqb_neq.
Qed.

(** ** The call sites of the requests *)

Lemma await_started {A} s' r' (res : Outcome A) s r :
  In (Started s r) (snd (await s' r' res)) -> s = s' /\ r = r'.
Proof.
  destruct res; simpl; intros [H|[H|[]]]; try discriminate;
    injection H as <- <-; auto.
Qed.

Lemma webhook_batch_request w completion site hub refs s r :
  In (Started s r)
     (snd (promise_all completion (map (webhookPromise w site hub) refs))) ->
  s = site /\ exists ref, r = GetWebhook ref /\ ref <> "".
Proof.
  intros H. apply promise_all_started in H as [res H].
  apply in_map_iff in H as (x & Hx & Hin).
  unfold webhookPromise in Hx.
  destruct x as [| |ref']; try discriminate.
  destruct (truthy_string ref') eqn:Ht; [|discriminate].
  injection Hx as <- <- _. split; [reflexivity|].
  exists ref'. split; [reflexivity|]. now apply truthy_string_nonempty.
Qed.

(** Every kind of request is issued from its own call sites of
    `handler`; a webhook is never looked up under an empty id. *)
Lemma handler_request_site w argv s r :
  In (Started s r) (snd (handler w argv)) ->
  match r with
  | GetHub _ => s = SHub
  | InitFetchClient => s = SInit
  | GetIdexesDetailsList => s = SList
  | GetIndexSettings _ => s = SSettings \/ exists i, s = SReplicaSettings i
  | GetIndexAssignedContentTypes _ => s = SAssigned
  | GetIndexByName _ => exists i, s = SReplicaByName i
  | GetWebhook ref => (s = SActiveWebhook \/ s = SArchivedWebhook) /\ ref <> ""
  end.
Proof.
  intros Hin. unfold handler in Hin.
  apply in_bind in Hin as [Hin|(hub & _ & Hin)];
    [apply await_started in Hin as [-> ->]; reflexivity|].
  apply in_bind in Hin as [Hin|(u & _ & Hin)];
    [apply await_started in Hin as [-> ->]; reflexivity|].
  apply in_bind in Hin as [Hin|(idx & _ & Hin)];
    [apply await_started in Hin as [-> ->]; reflexivity|].
  apply in_bind in Hin as [Hin|(final & _ & Hin)];
    [|apply processIndexes_events in Hin; discriminate].
  destruct (Nat.ltb 0 (List.length idx)); [|contradiction].
  rewrite indexEntries_staged in Hin.
  apply in_bind in Hin as [Hin|(settingsList & _ & Hin)];
    [apply batch_started in Hin as (-> & x & _ & ->); now left|].
  unfold assignmentStage in Hin.
  apply in_bind in Hin as [Hin|(assigned & _ & Hin)];
    [apply batch_started in Hin as (-> & x & _ & ->); reflexivity|].
  unfold webhookStage in Hin.
  apply in_bind in Hin as [[]|(refs & _ & Hin)].
  apply in_bind in Hin as [Hin|(aList & _ & Hin)];
    [apply webhook_batch_request in Hin as (-> & ref & -> & Hne); auto|].
  apply in_bind in Hin as [Hin|(bList & _ & Hin)];
    [apply webhook_batch_request in Hin as (-> & ref & -> & Hne); auto|].
  apply in_bind in Hin as [[]|(aPay & _ & Hin)].
  apply in_bind in Hin as [[]|(bPay & _ & Hin)].
  unfold replicaStage in Hin.
  apply in_bind in Hin as [Hin|(founds & _ & Hin)].
  { pose proof (replicaLookups_started _ _ _ _ _ _ Hin) as [n ->].
    apply replicaLookups_events in Hin as (j & ns & _ & _ & Hs).
    injection Hs as ->. eauto. }
  apply in_bind in Hin as [Hin|(fetched & _ & Hin)]; [|contradiction].
  pose proof (replicaSettingsFetches_started _ _ _ _ _ _ Hin) as [n ->].
  apply replicaSettingsFetches_events in Hin as (j & ns & _ & _ & Hs).
  injection Hs as ->. eauto.
Qed.

(** X2: once the hub, the client and the listing are there, the
    settings fan-out of a run (the first `Promise.all`) issues exactly
    one `getIndexSettings` per listed index, replicas included, in the
    order of the listing; and when all of these are fulfilled, the
    assignment fan-out issues exactly one `getIndexAssignedContentTypes`
    per listed index, in the same order.  An empty listing issues
    neither.  Assignments are requested nowhere else in a run; settings
    are requested again only by the second replica loop, for the
    replicas found by name, so that the settings of a listed replica
    may be fetched twice in one run. *)
Theorem one_fetch_per_listed_index w argv hub idx :
  hubs_get w (hubId argv) = Fulfilled hub ->
  fetch_init w = Fulfilled tt ->
  getIdexesDetailsList w = Fulfilled idx ->
  requests_at SSettings (snd (handler w argv))
  = map (fun item => GetIndexSettings (IndexSummary.id item)) idx /\
  ((forall item, In item idx ->
                 is_rejected (getIndexSettings w (IndexSummary.id item))
                 = false) ->
   requests_at SAssigned (snd (handler w argv))
   = map (fun item => GetIndexAssignedContentTypes (IndexSummary.id item))
         idx) /\
  (forall s id,
     In (Started s (GetIndexAssignedContentTypes id)) (snd (handler w argv)) ->
     s = SAssigned) /\
  (forall s id,
     In (Started s (GetIndexSettings id)) (snd (handler w argv)) ->
     s = SSettings \/ exists i, s = SReplicaSettings i).
Proof.
  intros Hhub Hinit Hidx.
  assert (Hbatches :
    requests_at SSettings (snd (handler w argv))
    = map (fun item => GetIndexSettings (IndexSummary.id item)) idx /\
    ((forall item, In item idx ->
                   is_rejected (getIndexSettings w (IndexSummary.id item))
                   = false) ->
     requests_at SAssigned (snd (handler w argv))
     = map (fun item =>
              GetIndexAssignedContentTypes (IndexSummary.id item)) idx)).
  { rewrite !(requests_at_handler w argv hub idx) by (simpl; auto; lia).
    destruct (Nat.ltb 0 (List.length idx)) eqn:Hlen.
    2:{ apply length_zero_nil in Hlen. subst idx. split; reflexivity. }
    rewrite indexEntries_staged, !requests_at_bind.
    assert (Htail : forall sl,
              requests_at SSettings (snd (assignmentStage w hub idx sl))
              = []).
    { intros sl. apply (requests_at_stage SSettings 4 8);
        [apply Within_assignmentStage|simpl; lia]. }
    split.
    - unfold settingsBatch at 1. rewrite requests_at_batch.
      destruct (fst (settingsBatch w idx)); [rewrite Htail|];
        now rewrite app_nil_r.
    - intros Hok.
      destruct (settingsBatch_fulfilled w idx Hok) as [sl ->].
      rewrite (requests_at_stage SAssigned 3 3);
        [|apply (Within_promise_all SSettings), issued_map|simpl; lia].
      unfold assignmentStage. rewrite requests_at_bind, requests_at_batch.
      simpl app.
      destruct (fst _) as [assigned|e]; [|now rewrite app_nil_r].
      rewrite (requests_at_stage SAssigned 5 8);
        [now rewrite app_nil_r|apply Within_webhookStage|simpl; lia]. }
  destruct Hbatches as [Hsettings Hassigned].
  split; [exact Hsettings|]. split; [exact Hassigned|]. split.
  - intros s id Hin. exact (handler_request_site w argv s _ Hin).
  - intros s id Hin. exact (handler_request_site w argv s _ Hin).
Qed.

Lemma one_fetch_per_listed_index_witness :
  requests_at SSettings (snd (handler Sample.scenario Sample.argv))
  = map (fun item => GetIndexSettings (IndexSummary.id item))
        [Sample.main; Sample.mainReplica] /\
  ((forall item, In item [Sample.main; Sample.mainReplica] ->
                 is_rejected (getIndexSettings Sample.scenario
                                (IndexSummary.id item)) = false) ->
   requests_at SAssigned (snd (handler Sample.scenario Sample.argv))
   = map (fun item => GetIndexAssignedContentTypes (IndexSummary.id item))
         [Sample.main; Sample.mainReplica]) /\
  (forall s id,
     In (Started s (GetIndexAssignedContentTypes id))
        (snd (handler Sample.scenario Sample.argv)) ->
     s = SAssigned) /\
  (forall s id,
     In (Started s (GetIndexSettings id))
        (snd (handler Sample.scenario Sample.argv)) ->
     s = SSettings \/ exists i, s = SReplicaSettings i).
Proof.
  apply (one_fetch_per_listed_index Sample.scenario Sample.argv
           Sample.acme [Sample.main; Sample.mainReplica]);
    reflexivity.
Defined.

(** Where a reference handed to the webhook batches comes from. *)
Lemma webhook_reference_origin w idx assigned pairs
    (sel : JsOpt string * JsOpt string -> JsOpt string) rel ref :
  (forall type rest ab, webhookRefsOf (type :: rest) = Fulfilled ab ->
                        webhookRef rel type = Fulfilled (sel ab)) ->
  sel (JsNull, JsNull) = JsNull ->
  Forall2 (fun item ts =>
             getIndexAssignedContentTypes w (IndexSummary.id item)
             = Fulfilled ts) idx assigned ->
  Forall2 (fun types ab => webhookRefsOf types = Fulfilled ab)
          assigned pairs ->
  In (JsSome ref) (map sel pairs) ->
  exists item type rest,
    In item idx /\
    getIndexAssignedContentTypes w (IndexSummary.id item)
    = Fulfilled (type :: rest) /\
    webhookRef rel type = Fulfilled (JsSome ref).
Proof.
  intros Hsel Hnull Ha Hpairs Hin.
  apply in_map_iff in Hin as (ab & Hab & Hin).
  destruct (Forall2_in_r _ _ _ _ Hpairs Hin) as (types & Hty & Hrefs).
  destruct (Forall2_in_r _ _ _ _ Ha Hty) as (item & Hitem & Hget).
  destruct types as [|type rest].
  - unfold webhookRefsOf in Hrefs. simpl in Hrefs.
    injection Hrefs as <-. congruence.
  - exists item, type, rest. repeat split; try assumption.
    rewrite <- Hab. eapply Hsel; eassumption.
Qed.

(** X7: a webhook is looked up only for an index that has an
    assignment: every webhook lookup a run issues carries a non-empty
    id, and that id is the reference read off the active (or archived)
    link relation of the first assignment of some listed index. *)
Theorem webhook_lookup_has_assignment w argv s ref :
  In (Started s (GetWebhook ref)) (snd (handler w argv)) ->
  ref <> "" /\
  exists rel idx item type rest,
    webhook_rel s = Some rel /\
    getIdexesDetailsList w = Fulfilled idx /\
    In item idx /\
    getIndexAssignedContentTypes w (IndexSummary.id item)
    = Fulfilled (type :: rest) /\
    webhookRef rel type = Fulfilled (JsSome ref).
Proof.
  intros Hin. unfold handler in Hin.
  apply in_bind in Hin as [Hin|(hub & _ & Hin)];
    [destruct (hubs_get w (hubId argv)); simpl in Hin;
     destruct Hin as [H|[H|[]]]; discriminate|].
  apply in_bind in Hin as [Hin|(u & _ & Hin)];
    [destruct (fetch_init w); simpl in Hin;
     destruct Hin as [H|[H|[]]]; discriminate|].
  apply in_bind in Hin as [Hin|(idx & Hidx & Hin)];
    [destruct (getIdexesDetailsList w); simpl in Hin;
     destruct Hin as [H|[H|[]]]; discriminate|].
  rewrite await_fst in Hidx.
  apply in_bind in Hin as [Hin|(final & _ & Hin)];
    [|apply processIndexes_events in Hin; discriminate].
  destruct (Nat.ltb 0 (List.length idx)); [|contradiction].
  rewrite indexEntries_staged in Hin.
  apply in_bind in Hin as [Hin|(settingsList & _ & Hin)];
    [apply batch_started in Hin as (_ & x & _ & H); discriminate|].
  unfold assignmentStage in Hin.
  apply in_bind in Hin as [Hin|(assigned & Ha & Hin)];
    [apply batch_started in Hin as (_ & x & _ & H); discriminate|].
  apply promise_all_fulfilled, Forall2_map_l in Ha. simpl in Ha.
  unfold webhookStage in Hin.
  apply in_bind in Hin as [[]|(refs & Hr & Hin)].
  unfold lift in Hr. cbn [fst] in Hr.
  apply webhookRefs_fulfilled in Hr as (pairs & Hpairs & Hfst & Hsnd).
  apply in_bind in Hin as [Hin|(aList & _ & Hin)].
  { apply webhook_batch_started in Hin as (-> & Hin & Ht).
    split; [now apply truthy_string_nonempty|].
    rewrite Hfst in Hin.
    destruct (webhook_reference_origin w idx assigned pairs fst activeRel
                ref) as (item & type & rest & H1 & H2 & H3); auto.
    { intros ? ? ? HH. now apply webhookRefsOf_cons in HH. }
    exists activeRel, idx, item, type, rest. auto. }
  apply in_bind in Hin as [Hin|(bList & _ & Hin)].
  { apply webhook_batch_started in Hin as (-> & Hin & Ht).
    split; [now apply truthy_string_nonempty|].
    rewrite Hsnd in Hin.
    destruct (webhook_reference_origin w idx assigned pairs snd
                archivedRel ref) as (item & type & rest & H1 & H2 & H3);
      auto.
    { intros ? ? ? HH. now apply webhookRefsOf_cons in HH. }
    exists archivedRel, idx, item, type, rest. auto. }
  apply in_bind in Hin as [[]|(aPay & _ & Hin)].
  apply in_bind in Hin as [[]|(bPay & _ & Hin)].
  unfold replicaStage in Hin.
  apply in_bind in Hin as [Hin|(founds & _ & Hin)];
    [apply replicaLookups_started in Hin as [n H]; discriminate|].
  apply in_bind in Hin as [Hin|(fetched & _ & Hin)];
    [apply replicaSettingsFetches_started in Hin as [n H]; discriminate|].
  contradiction.
Qed.

Lemma webhook_lookup_has_assignment_witness :
  "wa" <> "" /\
  exists rel idx item type rest,
    webhook_rel SActiveWebhook = Some rel /\
    getIdexesDetailsList Sample.scenario = Fulfilled idx /\
    In item idx /\
    getIndexAssignedContentTypes Sample.scenario (IndexSummary.id item)
    = Fulfilled (type :: rest) /\
    webhookRef rel type = Fulfilled (JsSome "wa").
Proof.
  apply (webhook_lookup_has_assignment Sample.scenario Sample.argv).
  in_trace.
Defined.

(** ** The webhook reference of a link *)

Lemma split_front c (p s : string) :
  exists front,
    front <> [] /\
    Str.split c (p ++ String c s) = front ++ Str.split c s.
Proof.
  induction p as [|a p IH]; simpl.
  - rewrite Ascii.eqb_refl. exists [EmptyString]. split; [discriminate|].
    reflexivity.
  - destruct IH as (front & Hne & ->).
    destruct (Ascii.eqb a c).
    + exists (EmptyString :: front). split; [discriminate|reflexivity].
    + destruct front as [|f0 fs]; [congruence|]. simpl.
      exists (String a f0 :: fs). split; [discriminate|reflexivity].
Qed.

Lemma split_nonempty c s : Str.split c s <> [].
Proof.
  destruct s as [|a s]; simpl; [discriminate|].
  destruct (Ascii.eqb a c); [discriminate|].
  destruct (Str.split c s); discriminate.
Qed.

Lemma split_plain c s : Str.contains c s = false -> Str.split c s = [s].
Proof.
  induction s as [|a s IH]; simpl; intros H; [reflexivity|].
  apply orb_false_iff in H as [Ha Hs]. rewrite Ha, (IH Hs). reflexivity.
Qed.

Lemma slice_last_app {A} (front l : list A) :
  l <> [] -> Str.slice_last (front ++ l) = Str.slice_last l.
Proof.
  intros Hl. unfold Str.slice_last. rewrite List.length_app.
  destruct l as [|x l]; [congruence|]. simpl List.length.
  replace (List.length front + S (List.length l) - 1)
    with (List.length front + (S (List.length l) - 1)) by lia.
  rewrite skipn_app.
  replace (List.length front + (S (List.length l) - 1)
           - List.length front) with (S (List.length l) - 1) by lia.
  rewrite skipn_all2 by lia. reflexivity.
Qed.

(** `href.split('/').slice(-1)` keeps what follows the last separator. *)
Lemma last_segment (p id : string) :
  Str.contains Path.slash id = false ->
  Str.slice_last (Str.split Path.slash (p ++ "/" ++ id)) = [id].
Proof.
  intros Hid.
  destruct (split_front Path.slash p id) as (front & _ & Heq).
  change (p ++ "/" ++ id)%string with (p ++ String Path.slash id)%string.
  rewrite Heq, slice_last_app by apply split_nonempty.
  now rewrite (split_plain _ _ Hid).
Qed.

Lemma issued_started {A} s r res (ps : list (Pending A)) :
  In (Issued s r res) ps -> In (Started s r) (started ps).
Proof.
  induction ps as [|[s' r' res'|a] ps IH]; simpl; intros H.
  - contradiction.
  - destruct H as [H|H]; [injection H as -> -> _; now left|right; auto].
  - destruct H as [H|H]; [discriminate|auto].
Qed.

(** What the guarded body does shows in the run, once the hub, the
    client and the listing are there. *)
Lemma handler_body_events w argv hub idx ev :
  hubs_get w (hubId argv) = Fulfilled hub ->
  fetch_init w = Fulfilled tt ->
  getIdexesDetailsList w = Fulfilled idx ->
  In ev (snd (if Nat.ltb 0 (List.length idx)
              then indexEntries w hub idx else ret [])) ->
  In ev (snd (handler w argv)).
Proof.
  intros Hhub Hinit Hidx Hin. unfold handler.
  apply in_bind. right. exists hub. rewrite await_fst.
  split; [exact Hhub|].
  apply in_bind. right. exists tt. rewrite await_fst.
  split; [exact Hinit|].
  apply in_bind. right. exists idx. rewrite await_fst.
  split; [exact Hidx|].
  apply in_bind. left. exact Hin.
Qed.

(** A body that gets through has looked up, at the site of each link
    relation, the webhook the first assignment of every listed index
    refers to, unless the reference is empty. *)
Lemma webhook_lookup_issued w hub idx final item type rest s rel id :
  fst (indexEntries w hub idx) = Fulfilled final ->
  In item idx ->
  getIndexAssignedContentTypes w (IndexSummary.id item)
  = Fulfilled (type :: rest) ->
  webhook_rel s = Some rel ->
  webhookRef rel type = Fulfilled (JsSome id) ->
  id <> "" ->
  In (Started s (GetWebhook id)) (snd (indexEntries w hub idx)).
Proof.
  intros H Hin Hget Hrel Href Hne.
  unfold indexEntries in H |- *.
  apply bind_fulfilled in H as (sl & E1 & H & _).
  apply bind_fulfilled in H as (asg & E2 & H & _).
  apply bind_fulfilled in H as (refs & E3 & H & _).
  apply bind_fulfilled in H as (aList & E4 & H & _).
  apply in_bind. right. exists sl. split; [exact E1|].
  apply in_bind. right. exists asg. split; [exact E2|].
  apply in_bind. right. exists refs. split; [exact E3|].
  pose proof E2 as Ha.
  apply promise_all_fulfilled, Forall2_map_l in Ha. simpl in Ha.
  rewrite lift_fst in E3.
  apply webhookRefs_fulfilled in E3 as (pairs & Hpairs & Hfst & Hsnd).
  apply In_nth_error in Hin as [k Hk].
  destruct (Forall2_nth_l _ _ _ Ha k item Hk) as (types & Htk & Hget').
  rewrite Hget in Hget'. injection Hget' as <-.
  destruct (Forall2_nth_l _ _ _ Hpairs k _ Htk) as (ab & Hab & Hrefs).
  apply webhookRefsOf_cons in Hrefs as [Hra Hrb].
  apply nth_error_In in Hab.
  assert (Hissued : forall c site refs',
            In (JsSome id) refs' ->
            In (Started site (GetWebhook id))
               (snd (promise_all c (map (webhookPromise w site hub) refs')))).
  { intros c site refs' Hin. rewrite promise_all_snd.
    apply in_or_app. left.
    apply (issued_started _ _
             (obind (webhooks_get w hub id) (fun x => Fulfilled (Some x)))).
    apply in_map_iff. exists (JsSome id). split; [|assumption].
    unfold webhookPromise.
    apply truthy_string_nonempty in Hne. now rewrite Hne. }
  destruct s; simpl in Hrel; try discriminate; injection Hrel as <-.
  - apply in_bind. left. apply Hissued. rewrite Hfst.
    apply in_map_iff. exists ab. split; [congruence|assumption].
  - apply in_bind. right. exists aList. split; [exact E4|].
    apply in_bind. left. apply Hissued. rewrite Hsnd.
    apply in_map_iff. exists ab. split; [congruence|assumption].
Qed.

(** X8: the webhook a link relation refers to is what follows the last
    `/` of its href.  In a run that writes the export, take an entry
    with assignments and either link relation of its first assignment.
    When the last segment of the href is empty (the href ends in `/`)
    the webhook field of the entry for that relation is `null` and the
    run has looked up no webhook under the empty id.  Otherwise the run
    has looked up the webhook under that id at the site of the relation,
    the hub has returned it with a custom payload, and the field of the
    entry is the value of that payload. *)
Theorem webhook_reference_is_last_segment w argv f doc e type rest s rel l
    (p id : string) :
  In (Written f doc) (snd (handler w argv)) ->
  In e doc ->
  IndexDetails.assignedContentTypes (IndexEntry.indexDetails e)
  = Some (type :: rest) ->
  webhook_rel s = Some rel ->
  lookup_link rel (ContentTypeAssignment._links type) = Some l ->
  Link.href l = (p ++ "/" ++ id)%string ->
  Str.contains Path.slash id = false ->
  webhookRef rel type = Fulfilled (JsSome id) /\
  if String.eqb id "" then
    entryWebhook s e = JsNull /\
    forall s', ~ In (Started s' (GetWebhook id)) (snd (handler w argv))
  else
    In (Started s (GetWebhook id)) (snd (handler w argv)) /\
    exists hub hook pay,
      hubs_get w (hubId argv) = Fulfilled hub /\
      webhooks_get w hub id = Fulfilled hook /\
      Webhook.customPayload hook = Some pay /\
      entryWebhook s e = JsSome (Webhook.value pay).
Proof.
  intros Hw He Hasg Hrel Hl Hhref Hid.
  assert (Href : webhookRef rel type = Fulfilled (JsSome id)).
  { unfold webhookRef. rewrite Hl, Hhref, (last_segment p id Hid).
    reflexivity. }
  split; [assumption|].
  pose proof Hw as Hrun.
  apply handler_written in Hrun as (hub & idx & Hhub & Hidx & _ & HF & Hok).
  destruct (Forall2_in_r _ _ _ _ HF He)
    as (item & Hitem & s0 & types & _ & Hts & _ & _ & _ & _ & Hact & Hweb).
  apply filter_In in Hitem as [Hitem _].
  assert (Htypes : types = type :: rest).
  { destruct types as [|t r]; simpl in Hact; congruence. }
  subst types.
  assert (Hfield : webhookField w hub rel type
                   = Fulfilled (entryWebhook s e)).
  { destruct s; simpl in Hrel; try discriminate; injection Hrel as <-;
      simpl; tauto. }
  unfold webhookField in Hfield. rewrite Href in Hfield.
  cbn [obind truthy_slot] in Hfield.
  unfold truthy_string in Hfield |- *.
  destruct (String.eqb_spec id "") as [->|Hne]; cbn [negb] in Hfield.
  - injection Hfield as <-. split; [reflexivity|].
    intros s' Hin. apply handler_request_site in Hin as [_ Hne].
    now apply Hne.
  - destruct (webhooks_get w hub id) as [hook|e0] eqn:Hhook;
      cbn [obind] in Hfield; [|discriminate].
    unfold webhookPayload in Hfield.
    destruct (Webhook.customPayload hook) as [pay|] eqn:Hpay;
      [|discriminate].
    injection Hfield as <-. split.
    + apply handler_fulfilled_inv in Hok
        as (hub' & idx' & final & Hhub' & Hinit & Hidx' & Hbody).
      rewrite Hhub in Hhub'. injection Hhub' as <-.
      rewrite Hidx in Hidx'. injection Hidx' as <-.
      apply (handler_body_events w argv hub idx); try assumption.
      destruct (Nat.ltb 0 (List.length idx)) eqn:Hlen.
      * apply (webhook_lookup_issued w hub idx final item type rest s rel);
          assumption.
      * apply length_zero_nil in Hlen. subst idx. contradiction.
    + exists hub, hook, pay. auto.
Qed.

Lemma webhook_reference_is_last_segment_witness :
  webhookRef archivedRel (Sample.assignment "http://schema/main" "wa" "wb")
  = Fulfilled (JsSome "wb") /\
  In (Started SArchivedWebhook (GetWebhook "wb"))
     (snd (handler Sample.scenario Sample.argv)) /\
  exists hub hook pay,
    hubs_get Sample.scenario (hubId Sample.argv) = Fulfilled hub /\
    webhooks_get Sample.scenario hub "wb" = Fulfilled hook /\
    Webhook.customPayload hook = Some pay /\
    entryWebhook SArchivedWebhook Sample.scenarioEntry
    = JsSome (Webhook.value pay).
Proof.
  apply (webhook_reference_is_last_segment Sample.scenario Sample.argv
           "out/indexes-h1-Acme.json" [Sample.scenarioEntry]
           Sample.scenarioEntry
           (Sample.assignment "http://schema/main" "wa" "wb") []
           SArchivedWebhook archivedRel (Sample.link "wb")
           "https://api.example/webhooks" "wb");
    try reflexivity.
  - in_trace.
  - now left.
Defined.

(** ** Webhooks without a custom payload *)

(** A run that gets through the webhook stage has derived both webhook
    fields from the first assignment of every listed index. *)
Lemma indexEntries_webhookFields w hub idx final item type rest :
  fst (indexEntries w hub idx) = Fulfilled final ->
  In item idx ->
  getIndexAssignedContentTypes w (IndexSummary.id item)
  = Fulfilled (type :: rest) ->
  (exists v, webhookField w hub activeRel type = Fulfilled v) /\
  (exists v, webhookField w hub archivedRel type = Fulfilled v).
Proof.
  intros H Hin Hget.
  apply indexEntries_fulfilled in H
    as (settingsList & assigned & refs & aList & bList & aPay & bPay &
        founds & fetched & _ & Ha & Hr & Hal & Hbl & Hap & Hbp & _).
  apply webhookRefs_fulfilled in Hr as (pairs & Hpairs & Hfst & Hsnd).
  apply In_nth_error in Hin as [k Hk].
  destruct (Forall2_nth_l _ _ _ Ha k item Hk) as (types & Htk & Hget').
  rewrite Hget in Hget'. injection Hget' as <-.
  pose proof (webhook_slot w SActiveWebhook hub activeRel fst
                assigned pairs (fst refs) aList aPay k (type :: rest)) as A.
  pose proof (webhook_slot w SArchivedWebhook hub archivedRel snd
                assigned pairs (snd refs) bList bPay k (type :: rest)) as B.
  split; eexists; [apply A|apply B]; auto;
    intros ? ? ? HH; now apply webhookRefsOf_cons in HH.
Qed.

(** X9: a webhook without custom payload fails the export.  When the
    first assignment of a listed index refers, by its active or archived
    link relation, to a webhook that the hub returns without
    `customPayload`, reading `.value` throws: the run rejects and no
    file is written. *)
Theorem webhook_without_payload_rejects w argv hub idx item type rest
    rel ref hook :
  hubs_get w (hubId argv) = Fulfilled hub ->
  getIdexesDetailsList w = Fulfilled idx ->
  In item idx ->
  getIndexAssignedContentTypes w (IndexSummary.id item)
  = Fulfilled (type :: rest) ->
  rel = activeRel \/ rel = archivedRel ->
  webhookRef rel type = Fulfilled (JsSome ref) ->
  ref <> "" ->
  webhooks_get w hub ref = Fulfilled hook ->
  Webhook.customPayload hook = None ->
  (exists e, fst (handler w argv) = Rejected e) /\
  (forall f doc, ~ In (Written f doc) (snd (handler w argv))).
Proof.
  intros Hhub Hidx Hin Hget Hrel Href Hne Hhook Hpay.
  assert (Hfield : forall v, webhookField w hub rel type <> Fulfilled v).
  { intros v. unfold webhookField. rewrite Href. simpl.
    apply truthy_string_nonempty in Hne. rewrite Hne, Hhook. simpl.
    rewrite Hpay. discriminate. }
  destruct (handler_tail w argv)
    as [(e & Hfst & Hsites)|
        (hub' & idx' & final & pre & Hhub' & Hidx' & Hbody & _)].
  - split; [eauto|]. intros f doc Hw. now apply Hsites in Hw.
  - exfalso. rewrite Hhub in Hhub'. injection Hhub' as <-.
    rewrite Hidx in Hidx'. injection Hidx' as <-.
    destruct (Nat.ltb 0 (List.length idx)) eqn:Hlen.
    + destruct (indexEntries_webhookFields _ _ _ _ _ _ _ Hbody Hin Hget)
        as [[va Ha] [vb Hb]].
      destruct Hrel as [-> | ->]; eapply Hfield; eassumption.
    + apply length_zero_nil in Hlen. subst idx. contradiction.
Qed.

Lemma webhook_without_payload_rejects_witness :
  (exists e, fst (handler Sample.noPayload Sample.argv) = Rejected e) /\
  (forall f doc,
     ~ In (Written f doc) (snd (handler Sample.noPayload Sample.argv))).
Proof.
  apply (webhook_without_payload_rejects Sample.noPayload Sample.argv
           Sample.acme [Sample.main; Sample.mainReplica] Sample.main
           (Sample.assignment "http://schema/main" "wa" "wb") []
           activeRel "wa" (Webhook.mk None)).
  - reflexivity.
  - reflexivity.
  - simpl. left. reflexivity.
  - reflexivity.
  - left. reflexivity.
  - reflexivity.
  - discriminate.
  - reflexivity.
  - reflexivity.
Defined.

(** ** Completion order *)

Lemma bind_fulfilled_intro {A B} (m : Run A) (k : A -> Run B) a b :
  fst m = Fulfilled a -> fst (k a) = Fulfilled b ->
  fst (bind m k) = Fulfilled b.
Proof. intros Hm Hk. now rewrite bind_fst, Hm. Qed.

(** A fulfilled batch is fulfilled with the same values under any other
    completion order. *)
Lemma promise_all_any_order {A} c c' (ps : list (Pending A)) vs :
  fst (promise_all c ps) = Fulfilled vs ->
  fst (promise_all c' ps) = Fulfilled vs.
Proof.
  intros H.
  assert (Hm : mapM pending_outcome ps = Fulfilled vs).
  { rewrite promise_all_fst in H.
    destruct (fst (settle ps _)); [discriminate|assumption]. }
  destruct (promise_all_total c' ps) as (vs' & Hvs' & Hm').
  - intros p Hp. apply mapM_fulfilled in Hm.
    apply In_nth_error in Hp as [k Hk].
    destruct (Forall2_nth_l _ _ _ Hm k p Hk) as (v & _ & Hv).
    now rewrite Hv.
  - congruence.
Qed.

Section OtherOrder.

Variable c : Site -> list nat.
Variable w : World.

Let w' := with_completion c w.

Lemma replicaLookups_any_order reps : forall i acc out,
  fst (replicaLookups w i reps acc) = Fulfilled out ->
  fst (replicaLookups w' i reps acc) = Fulfilled out.
Proof.
  induction reps as [|names reps IH]; simpl; intros i acc out H;
    [assumption|].
  destruct (Nat.ltb 0 (List.length names)); [|now apply IH].
  apply bind_fulfilled in H as (vs & Hvs & H & _).
  eapply bind_fulfilled_intro; [|apply IH; exact H].
  eapply promise_all_any_order. exact Hvs.
Qed.

Lemma replicaSettingsFetches_any_order founds : forall i acc out,
  fst (replicaSettingsFetches w i founds acc) = Fulfilled out ->
  fst (replicaSettingsFetches w' i founds acc) = Fulfilled out.
Proof.
  induction founds as [|found founds IH]; simpl; intros i acc out H;
    [assumption|].
  destruct (Nat.ltb 0 (List.length found)); [|now apply IH].
  apply bind_fulfilled in H as (vs & Hvs & H & _).
  eapply bind_fulfilled_intro; [|apply IH; exact H].
  eapply promise_all_any_order. exact Hvs.
Qed.

Lemma indexEntries_any_order hub idx doc :
  fst (indexEntries w hub idx) = Fulfilled doc ->
  fst (indexEntries w' hub idx) = Fulfilled doc.
Proof.
  unfold indexEntries. intros H.
  apply bind_fulfilled in H as (settingsList & H1 & H & _).
  eapply bind_fulfilled_intro;
    [eapply promise_all_any_order; exact H1|].
  apply bind_fulfilled in H as (assigned & H2 & H & _).
  eapply bind_fulfilled_intro;
    [eapply promise_all_any_order; exact H2|].
  apply bind_fulfilled in H as (refs & H3 & H & _).
  eapply bind_fulfilled_intro; [exact H3|].
  apply bind_fulfilled in H as (aList & H4 & H & _).
  eapply bind_fulfilled_intro;
    [eapply promise_all_any_order; exact H4|].
  apply bind_fulfilled in H as (bList & H5 & H & _).
  eapply bind_fulfilled_intro;
    [eapply promise_all_any_order; exact H5|].
  apply bind_fulfilled in H as (aPay & H6 & H & _).
  eapply bind_fulfilled_intro; [exact H6|].
  apply bind_fulfilled in H as (bPay & H7 & H & _).
  eapply bind_fulfilled_intro; [exact H7|].
  apply bind_fulfilled in H as (founds & H8 & H & _).
  eapply bind_fulfilled_intro;
    [apply replicaLookups_any_order; exact H8|].
  apply bind_fulfilled in H as (fetched & H9 & H & _).
  eapply bind_fulfilled_intro;
    [apply replicaSettingsFetches_any_order; exact H9|].
  exact H.
Qed.

End OtherOrder.

(** X10: the exported document does not depend on the order in which
    the fetches complete: if a run writes a document to a path, the run
    in the same world under any other completion orders is fulfilled
    too and writes the same document to the same path. *)
Theorem export_independent_of_completion_order w c argv f doc :
  In (Written f doc) (snd (handler w argv)) ->
  In (Written f doc) (snd (handler (with_completion c w) argv)) /\
  fst (handler (with_completion c w) argv) = Fulfilled tt.
Proof.
  intros Hw.
  destruct (handler_tail w argv)
    as [(e & _ & Hsites)|
        (hub & idx & final & pre & Hhub & Hidx & Hbody & Heq & Hpre & Hok)];
    [now apply Hsites in Hw|].
  rewrite Heq in Hw. apply in_app_iff in Hw as [Hw|Hw];
    [now apply Hpre in Hw|].
  destruct (processIndexes_written_fst _ _ _ _ _ _ Hw) as [Hdone _].
  rewrite Hdone in Hok.
  apply handler_fulfilled_inv in Hok
    as (hub' & idx' & final' & _ & Hinit & _).
  destruct (handler_reaches_gate (with_completion c w) argv hub idx final)
    as [Hfst Hgate]; try assumption.
  { destruct (Nat.ltb 0 (List.length idx));
      [now apply indexEntries_any_order|assumption]. }
  change (processIndexes (with_completion c w) (dir argv) hub final)
    with (processIndexes w (dir argv) hub final) in Hfst, Hgate.
  split; [apply Hgate; exact Hw|congruence].
Qed.

Lemma export_independent_of_completion_order_witness :
  In (Written "out/indexes-h1-Acme.json" [Sample.twoReplicasEntry])
     (snd (handler (with_completion (fun _ => [0; 1]) Sample.twoReplicas)
                   Sample.argv)) /\
  fst (handler (with_completion (fun _ => [0; 1]) Sample.twoReplicas)
               Sample.argv) = Fulfilled tt.
Proof.
  apply (export_independent_of_completion_order Sample.twoReplicas
           (fun _ => [0; 1]) Sample.argv).
  in_trace.
Defined.

(** ** The requests of the replica passes *)

Lemma requests_at_batch_elsewhere {A B} s s' completion (f : A -> Request)
    (g : A -> Outcome B) l :
  s <> s' ->
  requests_at s'
    (snd (promise_all completion (map (fun x => Issued s (f x) (g x)) l)))
  = [].
Proof.
  intros Hne. apply requests_at_elsewhere. intros ev Hin Hev.
  apply (promise_all_site s) in Hin; [congruence|apply issued_map].
Qed.

Lemma replicaLookups_requests w reps : forall i acc out j names,
  fst (replicaLookups w i reps acc) = Fulfilled out ->
  nth_error reps j = Some names ->
  requests_at (SReplicaByName (i + j)) (snd (replicaLookups w i reps acc))
  = map GetIndexByName names.
Proof.
  induction reps as [|names0 reps IH]; intros i acc out j names H Hj;
    [destruct j; discriminate|].
  assert (Hrest : forall acc',
            requests_at (SReplicaByName i)
              (snd (replicaLookups w (S i) reps acc')) = []).
  { intros acc'. apply requests_at_elsewhere. intros ev Hin Hev.
    apply replicaLookups_events in Hin as (k & ns & _ & _ & Hs).
    rewrite Hs in Hev. injection Hev as Hev. lia. }
  simpl in H |- *.
  destruct (Nat.ltb 0 (List.length names0)) eqn:Hlen.
  - apply bind_fulfilled in H as (vs & Hvs & H & _).
    rewrite requests_at_bind, Hvs.
    destruct j as [|j]; simpl in Hj.
    + injection Hj as <-. rewrite Nat.add_0_r, requests_at_batch, Hrest.
      now rewrite app_nil_r.
    + rewrite requests_at_batch_elsewhere
        by (intros E; injection E as E; lia).
      rewrite Nat.add_succ_r. simpl app.
      apply (IH (S i) _ out j names H Hj).
  - apply length_zero_nil in Hlen. subst names0.
    destruct j as [|j]; simpl in Hj.
    + injection Hj as <-. rewrite Nat.add_0_r. apply Hrest.
    + rewrite Nat.add_succ_r. apply (IH (S i) _ out j names H Hj).
Qed.

Lemma replicaSettingsFetches_requests w founds : forall i acc out j found,
  fst (replicaSettingsFetches w i founds acc) = Fulfilled out ->
  nth_error founds j = Some found ->
  requests_at (SReplicaSettings (i + j))
    (snd (replicaSettingsFetches w i founds acc))
  = map (fun r => GetIndexSettings (IndexSummary.id r)) found.
Proof.
  induction founds as [|found0 founds IH]; intros i acc out j found H Hj;
    [destruct j; discriminate|].
  assert (Hrest : forall acc',
            requests_at (SReplicaSettings i)
              (snd (replicaSettingsFetches w (S i) founds acc')) = []).
  { intros acc'. apply requests_at_elsewhere. intros ev Hin Hev.
    apply replicaSettingsFetches_events in Hin as (k & ns & _ & _ & Hs).
    rewrite Hs in Hev. injection Hev as Hev. lia. }
  simpl in H |- *.
  destruct (Nat.ltb 0 (List.length found0)) eqn:Hlen.
  - apply bind_fulfilled in H as (vs & Hvs & H & _).
    rewrite requests_at_bind, Hvs.
    destruct j as [|j]; simpl in Hj.
    + injection Hj as <-. rewrite Nat.add_0_r, requests_at_batch, Hrest.
      now rewrite app_nil_r.
    + rewrite requests_at_batch_elsewhere
        by (intros E; injection E as E; lia).
      rewrite Nat.add_succ_r. simpl app.
      apply (IH (S i) _ out j found H Hj).
  - apply length_zero_nil in Hlen. subst found0.
    destruct j as [|j]; simpl in Hj.
    + injection Hj as <-. rewrite Nat.add_0_r. apply Hrest.
    + rewrite Nat.add_succ_r. apply (IH (S i) _ out j found H Hj).
Qed.

(** X11: in a fulfilled run, the replica passes serve every listed
    index, exported or not: at the position of an index, the by-name
    lookups issued are exactly the replica names its settings declare,
    in order, and the replica-settings fetches issued are exactly the
    settings of the indexes those names resolve to, in the same order. *)
Theorem replica_requests_follow_declared_names w argv idx i item s :
  fst (handler w argv) = Fulfilled tt ->
  getIdexesDetailsList w = Fulfilled idx ->
  nth_error idx i = Some item ->
  getIndexSettings w (IndexSummary.id item) = Fulfilled s ->
  requests_at (SReplicaByName i) (snd (handler w argv))
  = map GetIndexByName (replicasOf s) /\
  exists found,
    Forall2 (fun n r => getIndexByName w n = Fulfilled r)
            (replicasOf s) found /\
    requests_at (SReplicaSettings i) (snd (handler w argv))
    = map (fun r => GetIndexSettings (IndexSummary.id r)) found.
Proof.
  intros Hok Hidx Hi Hs.
  apply handler_fulfilled_inv in Hok
    as (hub & idx' & final & Hhub & Hinit & Hidx' & Hbody).
  rewrite Hidx in Hidx'. injection Hidx' as <-.
  rewrite !(requests_at_handler w argv hub idx) by (simpl; auto; lia).
  assert (Hlen : Nat.ltb 0 (List.length idx) = true).
  { apply Nat.ltb_lt. assert (i < List.length idx); [|lia].
    apply nth_error_Some. congruence. }
  rewrite Hlen in Hbody |- *.
  pose proof Hbody as Hstages.
  apply indexEntries_fulfilled in Hstages
    as (settingsList & assigned & refs & aList & bList & aPay & bPay &
        founds & fetched & Hsl & _).
  unfold indexEntries in Hbody |- *.
  apply bind_fulfilled in Hbody as (sl & E1 & Hbody & _).
  apply bind_fulfilled in Hbody as (asg & E2 & Hbody & _).
  apply bind_fulfilled in Hbody as (rf & E3 & Hbody & _).
  apply bind_fulfilled in Hbody as (al & E4 & Hbody & _).
  apply bind_fulfilled in Hbody as (bl & E5 & Hbody & _).
  apply bind_fulfilled in Hbody as (ap & E6 & Hbody & _).
  apply bind_fulfilled in Hbody as (bp & E7 & Hbody & _).
  apply bind_fulfilled in Hbody as (fo & E8 & Hbody & _).
  apply bind_fulfilled in Hbody as (ft & E9 & Hbody & _).
  assert (Hsl' : Forall2 (fun item s =>
                   getIndexSettings w (IndexSummary.id item) = Fulfilled s)
                   idx sl).
  { apply promise_all_fulfilled, Forall2_map_l in E1. exact E1. }
  destruct (Forall2_nth_l _ _ _ Hsl' i item Hi) as (s' & Hs' & Hget).
  rewrite Hs in Hget. injection Hget as <-.
  assert (Hrep : nth_error (map replicasOf sl) i = Some (replicasOf s))
    by (now apply map_nth_error).
  pose proof E8 as Hfo.
  apply replicaLookups_fulfilled in Hfo as (founds' & -> & Hfo).
  destruct (Forall2_nth_l _ _ _ Hfo i _ Hrep) as (found & Hfound & Hby).
  simpl app in *.
  assert (Hpre : forall site,
            7 <= stage site ->
            requests_at site (snd (indexEntries w hub idx))
            = requests_at site
                (snd (replicaStage w idx sl asg ap bp))).
  { intros site Hsite. unfold indexEntries.
    rewrite requests_at_bind, E1.
    rewrite (requests_at_stage site 3 3);
      [|apply (Within_promise_all SSettings), issued_map|lia].
    rewrite requests_at_bind, E2.
    rewrite (requests_at_stage site 4 4);
      [|apply (Within_promise_all SAssigned), issued_map|lia].
    rewrite requests_at_bind, E3, lift_snd.
    change (requests_at site []) with (@nil Request).
    rewrite requests_at_bind, E4.
    rewrite (requests_at_stage site 5 5);
      [|apply (Within_promise_all SActiveWebhook), webhookPromise_issued
       |lia].
    rewrite requests_at_bind, E5.
    rewrite (requests_at_stage site 6 6);
      [|apply (Within_promise_all SArchivedWebhook), webhookPromise_issued
       |lia].
    rewrite requests_at_bind, E6, lift_snd.
    change (requests_at site []) with (@nil Request).
    rewrite requests_at_bind, E7, lift_snd.
    change (requests_at site []) with (@nil Request).
    reflexivity. }
  fold (indexEntries w hub idx).
  rewrite !Hpre by (simpl; lia).
  unfold replicaStage.
  rewrite !requests_at_bind, E8. cbn beta iota.
  rewrite !requests_at_bind, E9, lift_snd.
  change (requests_at (SReplicaByName i) []) with (@nil Request).
  change (requests_at (SReplicaSettings i) []) with (@nil Request).
  split.
  - pose proof (replicaLookups_requests w _ 0 [] founds' i (replicasOf s)
                  E8 Hrep) as Hreq.
    simpl Nat.add in Hreq. rewrite Hreq.
    rewrite (requests_at_stage (SReplicaByName i) 8 8);
      [|apply Within_replicaSettingsFetches|simpl; lia].
    now rewrite !app_nil_r.
  - exists found. split; [assumption|].
    rewrite (requests_at_stage (SReplicaSettings i) 7 7);
      [|apply Within_replicaLookups|simpl; lia].
    pose proof (replicaSettingsFetches_requests w _ 0 [] ft i found
                  E9 Hfound) as Hreq.
    simpl Nat.add in Hreq. rewrite Hreq.
    now rewrite app_nil_r.
Qed.

Lemma replica_requests_follow_declared_names_witness :
  requests_at (SReplicaByName 1)
    (snd (handler Sample.twoParents Sample.argv))
  = map GetIndexByName
        (replicasOf (IndexSettings.mk (Some ["r3"]) "other settings")) /\
  exists found,
    Forall2 (fun n r => getIndexByName Sample.twoParents n = Fulfilled r)
            (replicasOf (IndexSettings.mk (Some ["r3"]) "other settings"))
            found /\
    requests_at (SReplicaSettings 1)
      (snd (handler Sample.twoParents Sample.argv))
    = map (fun r => GetIndexSettings (IndexSummary.id r)) found.
Proof.
  apply (replica_requests_follow_declared_names Sample.twoParents
           Sample.argv [Sample.main; Sample.other] 1 Sample.other);
    reflexivity.
Defined.

(** ** The export stays in the output directory *)

Lemma basename_step_char ext i c st :
  Ascii.eqb c Path.slash = false ->
  Path.broke st = false ->
  let F := if (Path.firstNonSlashEnd st =? -1)%Z then (i + 1)%Z
           else Path.firstNonSlashEnd st in
  let st' := Path.basename_step ext i c st in
  Path.broke st' = false /\
  Path.firstNonSlashEnd st' = F /\
  Path.matchedSlash st'
  = (if (Path.firstNonSlashEnd st =? -1)%Z then false
     else Path.matchedSlash st) /\
  Path.b_start st' = Path.b_start st /\
  (Path.b_end st' = Path.b_end st \/ Path.b_end st' = i \/
   Path.b_end st' = F).
Proof.
  intros Hc Hb. unfold Path.basename_step. rewrite Hc.
  destruct st as [s e ms x f b]. simpl in Hb. subst b.
  cbn [Path.firstNonSlashEnd Path.extIdx Path.b_start Path.b_end
       Path.matchedSlash Path.broke].
  destruct (f =? -1)%Z;
    cbn [Path.firstNonSlashEnd Path.extIdx Path.b_start Path.b_end
         Path.matchedSlash Path.broke];
    destruct (0 <=? x)%Z;
    try destruct (match String.get (Z.to_nat x) ext with
                  | Some y => Ascii.eqb c y
                  | None => false
                  end);
    try destruct (x - 1 =? -1)%Z;
    cbn [Path.firstNonSlashEnd Path.extIdx Path.b_start Path.b_end
         Path.matchedSlash Path.broke];
    repeat split; auto.
Qed.

(** Once the scan is past the trailing separators, it stops right after
    the last separator of the path, or at the start of the path when
    there is none, and its end mark is not before that. *)
Lemma basename_loop_scan ext : forall r i st F,
  Path.broke st = false -> Path.matchedSlash st = false ->
  Path.firstNonSlashEnd st = F -> F <> (-1)%Z ->
  Path.b_start st = 0%Z ->
  i = (Z.of_nat (List.length r) - 1)%Z ->
  (i + 1 <= F)%Z ->
  (Path.b_end st = (-1)%Z \/ (i + 1 <= Path.b_end st <= F)%Z) ->
  let st' := Path.basename_loop ext r i st in
  Path.firstNonSlashEnd st' = F /\
  (Path.b_end st' = (-1)%Z \/
   (Path.b_start st' <= Path.b_end st' <= F)%Z) /\
  exists r1 r2, r = r1 ++ r2 /\ noSlash r1 /\
    Path.b_start st' = Z.of_nat (List.length r2).
Proof.
  induction r as [|c r IH]; intros i st F Hb Hms HF HF1 Hs Hi HiF He.
  - simpl. split; [assumption|]. split.
    + simpl in Hi. destruct He as [He|He]; [now left|right; lia].
    + exists [], []. repeat split; [constructor|assumption].
  - cbn [Path.basename_loop]. cbv zeta.
    destruct (Ascii.eqb c Path.slash) eqn:Hc.
    + unfold Path.basename_step. rewrite Hc, Hms. simpl negb. cbv iota.
      cbn [Path.firstNonSlashEnd Path.extIdx Path.b_start Path.b_end
           Path.matchedSlash Path.broke].
      split; [assumption|]. split.
      * destruct He as [He|He]; [now left|right; lia].
      * exists [], (c :: r). repeat split; [constructor|].
        rewrite Hi. lia.
    + pose proof (basename_step_char ext i c st Hc Hb) as Hstep.
      cbv zeta in Hstep.
      destruct (Z.eqb_spec (Path.firstNonSlashEnd st) (-1)) as [E|_];
        [congruence|].
      destruct Hstep as (Hb' & Hf' & Hms' & Hs' & He').
      rewrite Hb'.
      assert (Hlen : (i - 1 = Z.of_nat (List.length r) - 1)%Z).
      { rewrite Hi. simpl List.length. lia. }
      assert (He'' :
        Path.b_end (Path.basename_step ext i c st) = (-1)%Z \/
        (i - 1 + 1 <= Path.b_end (Path.basename_step ext i c st) <= F)%Z).
      { destruct He' as [E|[E|E]]; rewrite E.
        - destruct He as [He|He]; [now left|right; lia].
        - right. lia.
        - right. lia. }
      assert (HiF' : (i - 1 + 1 <= F)%Z) by lia.
      assert (Hms'' : Path.matchedSlash (Path.basename_step ext i c st)
                      = false) by congruence.
      assert (Hf'' : Path.firstNonSlashEnd (Path.basename_step ext i c st)
                     = F) by congruence.
      assert (Hs'' : Path.b_start (Path.basename_step ext i c st) = 0%Z)
        by congruence.
      destruct (IH (i - 1)%Z (Path.basename_step ext i c st) F
                  Hb' Hms'' Hf'' HF1 Hs'' Hlen HiF' He'')
        as (H1 & H2 & r1 & r2 & Hr & Hr1 & Hr2).
      split; [assumption|]. split; [assumption|].
      exists (c :: r1), r2. repeat split.
      * now rewrite Hr.
      * constructor; assumption.
      * assumption.
Qed.

Lemma string_of_chars_app (a b : list ascii) :
  string_of_list_ascii (a ++ b)
  = (string_of_list_ascii a ++ string_of_list_ascii b)%string.
Proof. induction a as [|c a IH]; simpl; [reflexivity|now rewrite IH]. Qed.

Lemma string_of_chars_length (a : list ascii) :
  String.length (string_of_list_ascii a) = List.length a.
Proof. induction a as [|c a IH]; simpl; [reflexivity|now rewrite IH]. Qed.

Lemma string_of_chars_noSlash (a : list ascii) :
  noSlash a -> Str.contains Path.slash (string_of_list_ascii a) = false.
Proof.
  induction 1 as [|c a Hc Ha IH]; simpl; [reflexivity|].
  now rewrite Hc, IH.
Qed.

Lemma contains_substring c : forall (b : string) n m,
  Str.contains c b = false -> Str.contains c (substring n m b) = false.
Proof.
  induction b as [|x b IH]; intros n m H.
  - destruct n, m; reflexivity.
  - simpl in H. apply orb_false_iff in H as [Hx Hb].
    destruct n as [|n]; simpl.
    + destruct m as [|m]; simpl; [reflexivity|].
      rewrite Hx. now apply IH.
    + now apply IH.
Qed.

(** The file name of the export holds no separator when the name of the
    hub does not end in one. *)
Lemma exportFile_noSlash hub :
  ends_with "/" (Hub.name hub) = false ->
  Str.contains Path.slash (exportFile hub) = false.
Proof.
  intros Hend. unfold exportFile.
  set (p := ("indexes-" ++ Hub.id hub ++ "-" ++ Hub.name hub)%string).
  assert (Hlen : 9 <= String.length p).
  { unfold p. rewrite !length_app. simpl. lia. }
  assert (Hhead : exists c r, Str.rchars p = c :: r /\
                              Ascii.eqb c Path.slash = false).
  { assert (Hp : Str.rchars p
                 = Str.rchars (Hub.name hub) ++
                   "-"%char :: (Str.rchars (Hub.id hub) ++
                                Str.rchars "indexes-")).
    { unfold p. rewrite !rchars_app, <- !app_assoc. reflexivity. }
    rewrite Hp. unfold ends_with in Hend.
    destruct (Str.rchars (Hub.name hub)) as [|c r].
    - simpl. eexists _, _. split; reflexivity.
    - simpl in Hend |- *. rewrite andb_true_r in Hend.
      exists c, (r ++ "-"%char :: (Str.rchars (Hub.id hub) ++
                                    Str.rchars "indexes-")).
      split; [reflexivity|]. rewrite Ascii.eqb_sym. exact Hend. }
  destruct Hhead as (c & r & Hr & Hc).
  assert (Hrlen : S (List.length r) = String.length p).
  { assert (E : List.length (Str.rchars p) = String.length p).
    { unfold Str.rchars. rewrite length_rev.
      rewrite <- (string_of_list_ascii_of_string p) at 2.
      now rewrite string_of_chars_length. }
    rewrite Hr in E. exact E. }
  unfold Path.basename.
  change (Z.of_nat (String.length ".json")) with 5%Z.
  assert (Hcond : ((0 <? 5) && (5 <=? Z.of_nat (String.length p)))%Z%bool
                  = true).
  { apply andb_true_iff. split; [reflexivity|]. apply Z.leb_le. lia. }
  rewrite Hcond.
  assert (Hne : String.eqb ".json" p = false).
  { apply String.eqb_neq. unfold p. simpl. discriminate. }
  rewrite Hne, Hr.
  cbn [Path.basename_loop]. cbv zeta.
  set (n := Z.of_nat (String.length p)) in *.
  set (st0 := Path.mkBase 0 (-1) true (5 - 1) (-1) false).
  pose proof (basename_step_char ".json" (n - 1) c st0 Hc eq_refl) as Hstep.
  cbv zeta in Hstep.
  change (Path.firstNonSlashEnd st0) with (-1)%Z in Hstep.
  change (Path.b_start st0) with 0%Z in Hstep.
  change (Path.b_end st0) with (-1)%Z in Hstep.
  change (-1 =? -1)%Z with true in Hstep. cbv iota in Hstep.
  destruct Hstep as (Hb & Hf & Hms & Hs & He).
  rewrite Hb.
  assert (Hn : n <> (-1)%Z) by lia.
  assert (Hi : (n - 1 - 1 = Z.of_nat (List.length r) - 1)%Z) by lia.
  assert (HiF : (n - 1 - 1 + 1 <= n)%Z) by lia.
  assert (Hf' : Path.firstNonSlashEnd
                  (Path.basename_step ".json" (n - 1) c st0) = n)
    by (rewrite Hf; lia).
  assert (He' :
    Path.b_end (Path.basename_step ".json" (n - 1) c st0) = (-1)%Z \/
    (n - 1 - 1 + 1
     <= Path.b_end (Path.basename_step ".json" (n - 1) c st0) <= n)%Z).
  { destruct He as [E|[E|E]]; rewrite E; [now left|right; lia|right; lia]. }
  destruct (basename_loop_scan ".json" r (n - 1 - 1)
              (Path.basename_step ".json" (n - 1) c st0) n
              Hb Hms Hf' Hn Hs Hi HiF He')
    as (H1 & H2 & r1 & r2 & Hsplit & Hr1 & Hstart).
  set (st := Path.basename_loop ".json" r (n - 1 - 1)
               (Path.basename_step ".json" (n - 1) c st0)) in *.
  assert (Hr2 : (Z.of_nat (List.length r2) < n)%Z).
  { assert (List.length r2 <= List.length r); [|lia].
    rewrite Hsplit, List.length_app. lia. }
  set (end_ := if (Path.b_start st =? Path.b_end st)%Z
               then Path.firstNonSlashEnd st
               else if (Path.b_end st =? -1)%Z then n else Path.b_end st).
  assert (Hend_ : (Path.b_start st <= end_ <= n)%Z).
  { unfold end_.
    destruct (Z.eqb_spec (Path.b_start st) (Path.b_end st)); [lia|].
    destruct (Z.eqb_spec (Path.b_end st) (-1)); lia. }
  assert (Hp : p = (string_of_list_ascii (rev r2) ++
                    string_of_list_ascii (rev r1 ++ [c]))%string).
  { rewrite <- string_of_chars_app.
    rewrite <- (string_of_list_ascii_of_string p) at 1. f_equal.
    rewrite <- (rev_involutive (list_ascii_of_string p)).
    fold (Str.rchars p). rewrite Hr, Hsplit. simpl rev.
    rewrite rev_app_distr, <- app_assoc. reflexivity. }
  unfold Str.slice. cbv zeta. fold n.
  assert (Hfrom : Str.clamp n (Path.b_start st) = Path.b_start st).
  { unfold Str.clamp. destruct (Z.ltb_spec (Path.b_start st) 0); lia. }
  assert (Hto : Str.clamp n end_ = end_).
  { unfold Str.clamp. destruct (Z.ltb_spec end_ 0); lia. }
  rewrite Hfrom, Hto, Hstart, Nat2Z.id.
  rewrite Hp at 1.
  rewrite <- (length_rev r2), <- string_of_chars_length, substring_skip.
  apply contains_substring, string_of_chars_noSlash.
  unfold noSlash in *. apply Forall_app. split; [now apply Forall_rev|].
  constructor; [assumption|constructor].
Qed.

(** X12: when the name of the hub does not end in a path separator, the
    file the export is written to lies directly in the output directory:
    it is the directory, less one trailing separator, a separator, and a
    file name with no separator in it followed by `.json`, whatever the
    id and the name of the hub hold otherwise. *)
Theorem export_lands_in_output_directory w argv hub f doc :
  hubs_get w (hubId argv) = Fulfilled hub ->
  ends_with "/" (Hub.name hub) = false ->
  In (Written f doc) (snd (handler w argv)) ->
  exists name,
    f = (trimmedDir (dir argv) ++ "/" ++ name ++ ".json")%string /\
    Str.contains Path.slash name = false.
Proof.
  intros Hhub Hend Hin.
  apply handler_written in Hin as (hub' & idx & Hhub' & _ & -> & _ & _).
  rewrite Hhub in Hhub'. injection Hhub' as <-.
  exists (exportFile hub). split; [reflexivity|].
  now apply exportFile_noSlash.
Qed.

Lemma export_lands_in_output_directory_witness :
  exists name,
    "out/b.json"
    = (trimmedDir (dir Sample.argv) ++ "/" ++ name ++ ".json")%string /\
    Str.contains Path.slash name = false.
Proof.
  apply (export_lands_in_output_directory Sample.nestedWorld Sample.argv
           Sample.nested "out/b.json" [Sample.bareEntry]);
    [reflexivity|reflexivity|in_trace].
Defined.

(** ** When the export goes through *)

Lemma replicaLookups_total w reps : forall i acc,
  Forall (Forall (fun n => is_rejected (getIndexByName w n) = false)) reps ->
  exists out, fst (replicaLookups w i reps acc) = Fulfilled out.
Proof.
  induction reps as [|names reps IH]; intros i acc H; simpl; [eauto|].
  inversion H as [|x l Hnames Hreps]; subst.
  destruct (Nat.ltb 0 (List.length names)).
  - destruct (promise_all_total (completion w (SReplicaByName i))
                (map (fun item =>
                        Issued (SReplicaByName i) (GetIndexByName item)
                               (getIndexByName w item)) names))
      as (vs & Hvs & _).
    { intros p Hp. apply in_map_iff in Hp as (n & <- & Hn). simpl.
      rewrite Forall_forall in Hnames. auto. }
    destruct (IH (S i) (acc ++ [vs]) Hreps) as [out Hout].
    exists out. now apply (bind_fulfilled_intro _ _ vs).
  - apply IH. assumption.
Qed.

Lemma replicaSettingsFetches_total w founds : forall i acc,
  Forall (Forall (fun r =>
                    is_rejected (getIndexSettings w (IndexSummary.id r))
                    = false)) founds ->
  exists out, fst (replicaSettingsFetches w i founds acc) = Fulfilled out.
Proof.
  induction founds as [|found founds IH]; intros i acc H; simpl; [eauto|].
  inversion H as [|x l Hfound Hfounds]; subst.
  destruct (Nat.ltb 0 (List.length found)).
  - destruct (promise_all_total (completion w (SReplicaSettings i))
                (map (fun item =>
                        Issued (SReplicaSettings i)
                               (GetIndexSettings (IndexSummary.id item))
                               (getIndexSettings w (IndexSummary.id item)))
                     found))
      as (vs & Hvs & _).
    { intros p Hp. apply in_map_iff in Hp as (r & <- & Hr). simpl.
      rewrite Forall_forall in Hfound. auto. }
    destruct (IH (S i) (acc ++ [vs]) Hfounds) as [out Hout].
    exists out. now apply (bind_fulfilled_intro _ _ vs).
  - apply IH. assumption.
Qed.

(** A webhook field that can be derived is derived through a lookup
    that is fulfilled and a payload that is there. *)
Lemma webhook_unchain w site hub rel type ref :
  webhookRef rel type = Fulfilled ref ->
  is_rejected (webhookField w hub rel type) = false ->
  exists x v,
    pending_outcome (webhookPromise w site hub ref) = Fulfilled x /\
    webhookPayload x = Fulfilled v.
Proof.
  intros Hr Hf. unfold webhookField in Hf. rewrite Hr in Hf. simpl in Hf.
  unfold webhookPromise.
  destruct ref as [| |id]; simpl in *;
    try (exists None, JsNull; split; reflexivity).
  destruct (truthy_string id); simpl in *;
    [|exists None, JsNull; split; reflexivity].
  destruct (webhooks_get w hub id) as [hook|e]; simpl in *; [|discriminate].
  destruct (Webhook.customPayload hook) as [p|] eqn:Hp; [|discriminate].
  exists (Some hook), (JsSome (Webhook.value p)). simpl. rewrite Hp.
  split; reflexivity.
Qed.

(** One side (active or archived) of the webhook stage goes through. *)
Lemma webhook_side_total w completion site hub rel
    (sel : JsOpt string * JsOpt string -> JsOpt string) assigned pairs :
  (forall type rest ab, webhookRefsOf (type :: rest) = Fulfilled ab ->
                        webhookRef rel type = Fulfilled (sel ab)) ->
  sel (JsNull, JsNull) = JsNull ->
  Forall2 (fun types ab => webhookRefsOf types = Fulfilled ab)
          assigned pairs ->
  (forall type rest, In (type :: rest) assigned ->
                     is_rejected (webhookField w hub rel type) = false) ->
  exists hooks payloads,
    fst (promise_all completion
           (map (webhookPromise w site hub) (map sel pairs)))
    = Fulfilled hooks /\
    mapM webhookPayload hooks = Fulfilled payloads.
Proof.
  intros Hsel Hnull Hpairs Hok.
  assert (Hall : forall ab, In ab pairs ->
            exists x v,
              pending_outcome (webhookPromise w site hub (sel ab))
              = Fulfilled x /\
              webhookPayload x = Fulfilled v).
  { intros ab Hab.
    destruct (Forall2_in_r _ _ _ ab Hpairs Hab) as (types & Hin & Hrefs).
    destruct types as [|type rest].
    - unfold webhookRefsOf in Hrefs. simpl in Hrefs.
      injection Hrefs as <-. rewrite Hnull.
      exists None, JsNull. split; reflexivity.
    - apply (webhook_unchain w site hub rel type).
      + eapply Hsel; eassumption.
      + eapply Hok; eassumption. }
  destruct (promise_all_total completion
              (map (webhookPromise w site hub) (map sel pairs)))
    as (hooks & Hhooks & _).
  { intros p Hp. apply in_map_iff in Hp as (ref & <- & Href).
    apply in_map_iff in Href as (ab & <- & Hab).
    destruct (Hall ab Hab) as (x & v & -> & _). reflexivity. }
  exists hooks.
  destruct (mapM_total webhookPayload hooks) as [payloads Hpay];
    [|eauto].
  intros x Hx.
  pose proof Hhooks as HF. apply promise_all_fulfilled in HF.
  rewrite !Forall2_map_l in HF.
  destruct (Forall2_in_r _ _ _ x HF Hx) as (ab & Hab & Hout).
  destruct (Hall ab Hab) as (x' & v & Hx' & Hv).
  rewrite Hout in Hx'. injection Hx' as <-. eauto.
Qed.

Lemma webhookRefsOf_active type rest ab :
  webhookRefsOf (type :: rest) = Fulfilled ab ->
  webhookRef activeRel type = Fulfilled (fst ab).
Proof. intros H. now apply webhookRefsOf_cons in H. Qed.

Lemma webhookRefsOf_archived type rest ab :
  webhookRefsOf (type :: rest) = Fulfilled ab ->
  webhookRef archivedRel type = Fulfilled (snd ab).
Proof. intros H. now apply webhookRefsOf_cons in H. Qed.

(** The guarded body is fulfilled when every listed index is served. *)
Lemma indexEntries_total w hub idx :
  Forall (Served w hub) idx ->
  exists final, fst (indexEntries w hub idx) = Fulfilled final.
Proof.
  intros Hserved. rewrite Forall_forall in Hserved.
  (* settings *)
  destruct (settingsBatch_fulfilled w idx) as [sl Hsl].
  { intros item Hin.
    destruct (Hserved item Hin) as (s & types & -> & _). reflexivity. }
  assert (HslF : Forall2 (fun item s =>
                   getIndexSettings w (IndexSummary.id item) = Fulfilled s)
                   idx sl).
  { unfold settingsBatch in Hsl.
    apply promise_all_fulfilled, Forall2_map_l in Hsl. exact Hsl. }
  (* assignments *)
  destruct (promise_all_total (completion w SAssigned)
              (map (fun item =>
                      Issued SAssigned
                        (GetIndexAssignedContentTypes (IndexSummary.id item))
                        (getIndexAssignedContentTypes w
                           (IndexSummary.id item)))
                   idx)) as (asg & Hasg & _).
  { intros p Hp. apply in_map_iff in Hp as (item & <- & Hin). simpl.
    destruct (Hserved item Hin) as (s & types & _ & -> & _). reflexivity. }
  assert (HasgF : Forall2 (fun item ts =>
                    getIndexAssignedContentTypes w (IndexSummary.id item)
                    = Fulfilled ts) idx asg).
  { pose proof Hasg as H.
    apply promise_all_fulfilled, Forall2_map_l in H. exact H. }
  assert (Hfields : forall type rest, In (type :: rest) asg ->
            is_rejected (webhookField w hub activeRel type) = false /\
            is_rejected (webhookField w hub archivedRel type) = false).
  { intros type rest Hin.
    destruct (Forall2_in_r _ _ _ _ HasgF Hin) as (item & Hitem & Hts).
    destruct (Hserved item Hitem) as (s & types & _ & Hts' & Hw & _).
    rewrite Hts in Hts'. injection Hts' as <-. exact Hw. }
  (* webhook references *)
  assert (Hrefs : exists refs, webhookRefs asg = Fulfilled refs).
  { unfold webhookRefs.
    destruct (mapM_total webhookRefsOf asg) as [pairs ->]; [|simpl; eauto].
    intros types Hin. destruct types as [|type rest].
    - unfold webhookRefsOf. simpl. eauto.
    - destruct (Hfields type rest Hin) as [Ha Hb].
      unfold webhookRefsOf. simpl.
      unfold webhookField in Ha, Hb.
      destruct (webhookRef activeRel type); [|discriminate].
      destruct (webhookRef archivedRel type); [|discriminate].
      simpl. eauto. }
  destruct Hrefs as [refs Hrefs].
  destruct (webhookRefs_fulfilled _ _ Hrefs) as (pairs & Hpairs & Hfst & Hsnd).
  destruct (webhook_side_total w (completion w SActiveWebhook)
              SActiveWebhook hub activeRel fst asg pairs
              webhookRefsOf_active eq_refl Hpairs)
    as (aList & aPay & HaList & HaPay).
  { intros type rest Hin. now destruct (Hfields type rest Hin). }
  destruct (webhook_side_total w (completion w SArchivedWebhook)
              SArchivedWebhook hub archivedRel snd asg pairs
              webhookRefsOf_archived eq_refl Hpairs)
    as (bList & bPay & HbList & HbPay).
  { intros type rest Hin. now destruct (Hfields type rest Hin). }
  rewrite <- Hfst in HaList. rewrite <- Hsnd in HbList.
  (* replica passes *)
  destruct (replicaLookups_total w (map replicasOf sl) 0 []) as [fo Hfo].
  { apply Forall_forall. intros names Hin.
    apply in_map_iff in Hin as (s & <- & Hs).
    destruct (Forall2_in_r _ _ _ _ HslF Hs) as (item & Hitem & Hget).
    destruct (Hserved item Hitem) as (s' & types & Hget' & _ & _ & Hreps).
    rewrite Hget in Hget'. injection Hget' as <-.
    eapply Forall_impl; [|exact Hreps].
    intros n (r & -> & _). reflexivity. }
  pose proof Hfo as HfoF.
  apply replicaLookups_fulfilled in HfoF as (founds & Efo & HfoF).
  simpl in Efo. subst fo.
  destruct (replicaSettingsFetches_total w founds 0 []) as [ft Hft].
  { apply Forall_forall. intros found Hin.
    destruct (Forall2_in_r _ _ _ _ HfoF Hin) as (names & Hnames & Hby).
    apply Forall_forall. intros r Hr.
    destruct (Forall2_in_r _ _ _ _ Hby Hr) as (n & Hn & Hget).
    apply in_map_iff in Hnames as (s & <- & Hs).
    destruct (Forall2_in_r _ _ _ _ HslF Hs) as (item & Hitem & Hgs).
    destruct (Hserved item Hitem) as (s' & types & Hgs' & _ & _ & Hreps).
    rewrite Hgs in Hgs'. injection Hgs' as <-.
    rewrite Forall_forall in Hreps.
    destruct (Hreps n Hn) as (r' & Hget' & Hok).
    rewrite Hget in Hget'. injection Hget' as <-. exact Hok. }
  pose proof Hft as HftF.
  apply replicaSettingsFetches_fulfilled in HftF as (fetched & Eft & HftF).
  simpl in Eft. subst ft.
  destruct (buildEntries_total w idx sl asg aPay bPay founds fetched
              HslF HasgF HfoF HftF) as [doc Hdoc].
  exists doc. unfold indexEntries.
  apply (bind_fulfilled_intro _ _ sl); [exact Hsl|].
  apply (bind_fulfilled_intro _ _ asg); [exact Hasg|].
  apply (bind_fulfilled_intro _ _ refs); [now rewrite lift_fst|].
  apply (bind_fulfilled_intro _ _ aList); [exact HaList|].
  apply (bind_fulfilled_intro _ _ bList); [exact HbList|].
  apply (bind_fulfilled_intro _ _ aPay); [now rewrite lift_fst|].
  apply (bind_fulfilled_intro _ _ bPay); [now rewrite lift_fst|].
  apply (bind_fulfilled_intro _ _ founds); [exact Hfo|].
  apply (bind_fulfilled_intro _ _ fetched); [exact Hft|].
  now rewrite lift_fst.
Qed.

(** X13: the export goes through when the remote serves it and the file
    system takes the write.  With the hub, the client and the listing
    there, and every listed index served (settings, assignments, both
    webhooks of the first assignment with their custom payload, every
    declared replica and its settings), the run assembles a document
    that holds the export of every non-replica index of the listing, in
    order.  Unless a file is in the way and the overwrite is declined,
    the run then ends as the write of that document at the export path
    does: when the write goes through the run is fulfilled and the
    document is written there; when it fails the run rejects with the
    error of the write and nothing is written. *)
Theorem served_export_is_written w argv hub idx :
  hubs_get w (hubId argv) = Fulfilled hub ->
  fetch_init w = Fulfilled tt ->
  getIdexesDetailsList w = Fulfilled idx ->
  Forall (Served w hub) idx ->
  file_exists w (uniqueFilename (dir argv) hub) = false \/
  overwrite_confirmed w (uniqueFilename (dir argv) hub) = true ->
  exists doc,
    Forall2 (ExportOf w hub) (filter notReplica idx) doc /\
    match write_error w (uniqueFilename (dir argv) hub) doc with
    | None =>
        fst (handler w argv) = Fulfilled tt /\
        In (Written (uniqueFilename (dir argv) hub) doc)
           (snd (handler w argv))
    | Some e =>
        fst (handler w argv) = Rejected e /\
        forall f' doc', ~ In (Written f' doc') (snd (handler w argv))
    end.
Proof.
  intros Hhub Hinit Hidx Hserved Hfree.
  assert (Hbody : exists final,
            fst (if Nat.ltb 0 (List.length idx)
                 then indexEntries w hub idx else ret [])
            = Fulfilled final /\
            Forall2 (ExportOf w hub) (filter notReplica idx) final).
  { destruct (Nat.ltb 0 (List.length idx)) eqn:Hlen.
    - destruct (indexEntries_total w hub idx Hserved) as [final Hfinal].
      exists final. split; [assumption|].
      now apply indexEntries_exports.
    - apply length_zero_nil in Hlen. subst idx.
      exists []. split; [reflexivity|constructor]. }
  destruct Hbody as (final & Hfinal & HF).
  destruct (handler_reaches_gate w argv hub idx final Hhub Hinit Hidx Hfinal)
    as [Hfst Hgate].
  exists final. split; [assumption|].
  rewrite processIndexes_cases in Hfst, Hgate. cbv zeta in Hfst, Hgate.
  assert (Hopen : file_exists w (uniqueFilename (dir argv) hub) &&
                  negb (overwrite_confirmed w (uniqueFilename (dir argv) hub))
                  = false).
  { destruct Hfree as [-> | ->]; [reflexivity|].
    simpl. apply andb_false_r. }
  rewrite Hopen in Hfst, Hgate.
  destruct (write_error w (uniqueFilename (dir argv) hub) final) as [e|];
    cbn [fst snd] in Hfst, Hgate.
  - split; [exact Hfst|].
    intros f' doc' Hw.
    apply handler_written in Hw as (_ & _ & _ & _ & _ & _ & Hok).
    congruence.
  - split; [exact Hfst|]. apply Hgate.
    apply in_or_app. right. now left.
Qed.

Lemma served_export_is_written_witness :
  exists doc,
    Forall2 (ExportOf Sample.scenario Sample.acme)
            (filter notReplica [Sample.main; Sample.mainReplica]) doc /\
    fst (handler Sample.scenario Sample.argv) = Fulfilled tt /\
    In (Written (uniqueFilename (dir Sample.argv) Sample.acme) doc)
       (snd (handler Sample.scenario Sample.argv)).
Proof.
  apply (served_export_is_written Sample.scenario Sample.argv
           Sample.acme [Sample.main; Sample.mainReplica]);
    try reflexivity.
  - repeat constructor.
    + exists (IndexSettings.mk (Some ["MainReplica"]) "main settings"),
        [Sample.assignment "http://schema/main" "wa" "wb"].
      repeat split; try reflexivity.
      repeat constructor. exists Sample.mainReplica. split; reflexivity.
    + exists (IndexSettings.mk None "replica settings"), [].
      repeat split; try reflexivity. constructor.
  - left. reflexivity.
Defined.

(** X14: a run is fulfilled only when the remote has served every listed
    index, replicas included: the settings and the assignments of each,
    both webhooks of its first assignment with their custom payload, and
    every replica its settings declare together with the settings of
    that replica.  Nothing is skipped over silently. *)
Theorem fulfilled_run_was_served w argv :
  fst (handler w argv) = Fulfilled tt ->
  exists hub idx,
    hubs_get w (hubId argv) = Fulfilled hub /\
    fetch_init w = Fulfilled tt /\
    getIdexesDetailsList w = Fulfilled idx /\
    Forall (Served w hub) idx.
Proof.
  intros Hok.
  apply handler_fulfilled_inv in Hok
    as (hub & idx & final & Hhub & Hinit & Hidx & Hbody).
  exists hub, idx. repeat split; try assumption.
  destruct (Nat.ltb 0 (List.length idx)) eqn:Hlen.
  2:{ apply length_zero_nil in Hlen. subst idx. constructor. }
  apply indexEntries_fulfilled in Hbody
    as (sl & asg & refs & aList & bList & aPay & bPay & founds & fetched &
        Hsl & Hasg & Hrefs & Ha & Hb & HaPay & HbPay & Hfo & Hft & _).
  apply webhookRefs_fulfilled in Hrefs as (pairs & Hpairs & Hfst & Hsnd).
  apply Forall_forall. intros item Hin.
  apply In_nth_error in Hin as [k Hk].
  destruct (Forall2_nth_l _ _ _ Hsl k item Hk) as (s & Hs & Hgs).
  destruct (Forall2_nth_l _ _ _ Hasg k item Hk) as (types & Hts & Hgt).
  exists s, types. split; [assumption|]. split; [assumption|]. split.
  - pose proof (webhook_slot w SActiveWebhook hub activeRel fst asg pairs
                  (fst refs) aList aPay k types webhookRefsOf_active
                  eq_refl Hpairs Hfst Ha HaPay Hts) as H1.
    pose proof (webhook_slot w SArchivedWebhook hub archivedRel snd asg
                  pairs (snd refs) bList bPay k types
                  webhookRefsOf_archived eq_refl Hpairs Hsnd Hb HbPay Hts)
      as H2.
    destruct types as [|type rest]; [exact I|].
    rewrite H1, H2. split; reflexivity.
  - assert (Hrep : nth_error (map replicasOf sl) k = Some (replicasOf s))
      by (now apply map_nth_error).
    destruct (Forall2_nth_l _ _ _ Hfo k _ Hrep) as (found & Hfound & Hby).
    destruct (Forall2_nth_l _ _ _ Hft k _ Hfound) as (sts & _ & Hsts).
    apply Forall_forall. intros n Hn.
    apply In_nth_error in Hn as [j Hj].
    destruct (Forall2_nth_l _ _ _ Hby j n Hj) as (r & Hr & Hget).
    destruct (Forall2_nth_l _ _ _ Hsts j r Hr) as (st & _ & Hst).
    exists r. split; [assumption|]. now rewrite Hst.
Qed.

Lemma fulfilled_run_was_served_witness :
  exists hub idx,
    hubs_get Sample.scenario (hubId Sample.argv) = Fulfilled hub /\
    fetch_init Sample.scenario = Fulfilled tt /\
    getIdexesDetailsList Sample.scenario = Fulfilled idx /\
    Forall (Served Sample.scenario hub) idx.
Proof.
  apply (fulfilled_run_was_served Sample.scenario Sample.argv).
  reflexivity.
Defined.
